(** * ART batch rename engine and inspector image cache

    A shallow embedding of the pattern-based rename engine of
    [rtgui/filecatalog_rename.cc], of the extension helpers
    [removeExtension] and [getExtension] and of the inspector image
    cache ([InspectorBuffer], [InspectorArea]), with the properties
    stated about them.

    Conventions of the embedding:
    - a [Glib::ustring] is the list of its Unicode code points ([gunichar],
      a [guint32]), held as [N];
    - [size_t] values are [N]; subtractions that can go below zero are
      written with their wrap-around modulo [2^64];
    - [int] values are [Z]; the increment of the sequence counter is
      written with its two's-complement wrap-around;
    - the build is the non-Windows one ([G_DIR_SEPARATOR] is ['/']), except
      for [is_valid_char] and [make_valid], which carry both branches of
      their [#ifdef __WIN32__];
    - [<ctype.h>] classification is the one of the C locale, and code
      points above 127 are left alone by [toupper], [tolower] and are
      neither spaces nor digits. *)

From Stdlib Require Import String Ascii.
From Stdlib Require Import List NArith ZArith Bool Lia Permutation.
Import ListNotations.

Local Open Scope N_scope.

(** ** Strings of code points *)

Abbreviation gunichar := N (only parsing).
Abbreviation ustring := (list N) (only parsing).

(** Code points of an ASCII literal, for readable examples. *)
Definition u (s : string) : ustring :=
  map N_of_ascii (list_ascii_of_string s).

Definition ch (a : ascii) : gunichar := N_of_ascii a.

Arguments u s%_string.
Arguments ch a%_char.

Definition ueqb (a b : ustring) : bool :=
  if list_eq_dec N.eq_dec a b then true else false.

(** [s.length()], [s.size()] *)
Definition ulen (s : ustring) : N := N.of_nat (length s).

(** The characters from position [pos] on, and the first [len]
    characters. *)
Fixpoint dropN (pos : N) (s : ustring) : ustring :=
  match s with
  | [] => []
  | _ :: s' => if pos =? 0 then s else dropN (pos - 1) s'
  end.

Fixpoint takeN (len : N) (s : ustring) : ustring :=
  match s with
  | [] => []
  | c :: s' => if len =? 0 then [] else c :: takeN (len - 1) s'
  end.

(** [s[i]].  [Glib::ustring::operator[]] decodes the character found [i]
    characters after the start of the NUL-terminated buffer, so position
    [ulen s] reads the terminator, code point 0.  Positions beyond it are
    outside the buffer; the embedding gives 0 there too. *)
Definition at_ (s : ustring) (i : N) : gunichar :=
  match dropN i s with
  | c :: _ => c
  | [] => 0
  end.

(** [size_t] arithmetic *)
Definition size_modulus : N := 2 ^ 64.
Definition npos : N := size_modulus - 1.
Definition size_sub (a b : N) : N := (a + size_modulus - b mod size_modulus) mod size_modulus.
Definition size_add (a b : N) : N := (a + b) mod size_modulus.

(** [s.substr(pos, len)]: the characters from [pos], at most [len] of
    them, and all of them when [len] is [npos].  The C++ call throws
    [std::out_of_range] when [pos > s.size()]; the embedding gives the
    empty string there.  [extension_cut] and [trim_run_spec] show the
    positions that [getExtension], [removeExtension] and [trim] pass to be
    within the string. *)
Definition substr (s : ustring) (pos len : N) : ustring :=
  if len =? npos then dropN pos s else takeN len (dropN pos s).

(** [s.substr(pos)] *)
Definition substr_from (s : ustring) (pos : N) : ustring := substr s pos npos.

(** ** [<ctype.h>] in the C locale *)

Definition isspace (c : gunichar) : bool :=
  (c =? 32) || ((9 <=? c) && (c <=? 13)).

Definition isdigit (c : gunichar) : bool := (48 <=? c) && (c <=? 57).

Definition toupper (c : gunichar) : gunichar :=
  if (97 <=? c) && (c <=? 122) then c - 32 else c.

Definition tolower (c : gunichar) : gunichar :=
  if (65 <=? c) && (c <=? 90) then c + 32 else c.

(** ** [std::to_string(int)] *)

(** The decimal digits of [n] put in front of [acc], lowest digit first;
    a number has no more decimal digits than binary ones, which is the
    fuel ([digits_value]). *)
Fixpoint digits_aux (fuel : nat) (n : N) (acc : ustring) : ustring :=
  match fuel with
  | O => acc
  | S fuel' =>
      let acc' := (48 + n mod 10) :: acc in
      if n / 10 =? 0 then acc' else digits_aux fuel' (n / 10) acc'
  end.

Definition digits (n : N) : ustring := digits_aux (S (N.to_nat (N.size n))) n [].

Definition to_string (z : Z) : ustring :=
  if (z <? 0)%Z then ch "-" :: digits (Z.to_N (- z)) else digits (Z.to_N z).

(** [int] with two's-complement wrap-around *)
Definition INT_MAX : Z := 2147483647.
Definition INT_MIN : Z := (-2147483648)%Z.
Definition int_wrap (z : Z) : Z :=
  ((z - INT_MIN) mod 4294967296 + INT_MIN)%Z.

(** ** GLib path helpers (POSIX build)

    [Glib::path_get_basename], [Glib::path_get_dirname],
    [g_path_is_absolute] and [Glib::build_filename] belong to GLib; they
    are embedded from GLib's documented behaviour for
    [G_DIR_SEPARATOR = '/']. *)

Definition DIR_SEPARATOR : gunichar := 47.

Definition is_sep (c : gunichar) : bool := c =? DIR_SEPARATOR.

Fixpoint lstrip_sep (s : ustring) : ustring :=
  match s with
  | c :: s' => if is_sep c then lstrip_sep s' else s
  | [] => []
  end.

Definition rstrip_sep (s : ustring) : ustring := rev (lstrip_sep (rev s)).

(** The characters before the first separator. *)
Fixpoint upto_sep (s : ustring) : ustring :=
  match s with
  | c :: s' => if is_sep c then [] else c :: upto_sep s'
  | [] => []
  end.

(** [g_path_get_basename]: ["."] for the empty string, ["/"] for a string
    of separators only, otherwise the last component, trailing separators
    removed. *)
Definition path_get_basename (file_name : ustring) : ustring :=
  match file_name with
  | [] => [ch "."]
  | _ =>
      match rstrip_sep file_name with
      | [] => [DIR_SEPARATOR]
      | t => rev (upto_sep (rev t))
      end
  end.

(** [g_path_get_dirname]: ["."] when there is no separator, otherwise the
    text before the last separator with the separators that end it
    removed, but never less than the first character. *)
Definition path_get_dirname (file_name : ustring) : ustring :=
  if existsb is_sep file_name then
    let before := firstn (length file_name - length (upto_sep (rev file_name))) file_name in
    match rstrip_sep before with
    | [] => firstn 1 file_name
    | d => d
    end
  else [ch "."].

(** [g_path_is_absolute] *)
Definition g_path_is_absolute (file_name : ustring) : bool :=
  match file_name with
  | c :: _ => is_sep c
  | [] => false
  end.

(** [Glib::build_filename(a, b)], that is [g_build_filename(a, b, NULL)]:
    empty elements are ignored; the leading separators of the first
    non-empty element and the trailing separators of the last one are
    kept; the elements, stripped of the separators around them, are
    joined by one separator. *)
Definition leading_sep (s : ustring) : ustring :=
  firstn (length s - length (lstrip_sep s)) s.
Definition trailing_sep (s : ustring) : ustring :=
  skipn (length (rstrip_sep s)) s.
Definition strip_sep (s : ustring) : ustring := rstrip_sep (lstrip_sep s).

Definition build_filename (a b : ustring) : ustring :=
  match a, b with
  | [], _ => b
  | _, [] => a
  | _, _ =>
      let ma := strip_sep a in
      let mb := strip_sep b in
      leading_sep a ++ ma ++
      (match ma, mb with
       | _, [] => []
       | [], _ => mb
       | _, _ => DIR_SEPARATOR :: mb
       end) ++
      trailing_sep b
  end.

(** ** [pathutils.cc]: [removeExtension], [getExtension] *)

(** [bname.find_last_of(set)]: position of the last character of [bname]
    that satisfies [p], or [npos]. *)
Fixpoint find_last_of_from (p : gunichar -> bool) (s : ustring) (i : N) (found : N) : N :=
  match s with
  | [] => found
  | c :: s' => find_last_of_from p s' (i + 1) (if p c then i else found)
  end.

Definition find_last_of (p : gunichar -> bool) (s : ustring) : N :=
  find_last_of_from p s 0 npos.

Definition is_dot (c : gunichar) : bool := c =? 46.

(** the set [" \t\f\v\n\r"] *)
Definition is_blank (c : gunichar) : bool :=
  (c =? 32) || (c =? 9) || (c =? 12) || (c =? 11) || (c =? 10) || (c =? 13).

Definition has_extension (bname : ustring) : bool :=
  let lastdot := find_last_of is_dot bname in
  let lastwhitespace := find_last_of is_blank bname in
  negb (lastdot =? npos) &&
  ((lastwhitespace =? npos) || (lastwhitespace <? lastdot)).

Definition removeExtension (filename : ustring) : ustring :=
  let bname := path_get_basename filename in
  let lastdot := find_last_of is_dot bname in
  if has_extension bname then
    substr filename 0 (size_sub (ulen filename) (size_sub (ulen bname) lastdot))
  else filename.

Definition getExtension (filename : ustring) : ustring :=
  let bname := path_get_basename filename in
  let lastdot := find_last_of is_dot bname in
  if has_extension bname then
    substr filename
      (size_add (size_sub (ulen filename) (size_sub (ulen bname) lastdot)) 1)
      npos
  else [].

(** ** [filecatalog_rename.cc]: character validity *)

Section Platform.

(** [true] for the [__WIN32__] build. *)
Variable win32 : bool.

(** [G_IS_DIR_SEPARATOR]: ['/'], and also ['\\'] on Windows. *)
Definition G_IS_DIR_SEPARATOR (c : gunichar) : bool :=
  if win32 then (c =? 92) || (c =? 47) else c =? 47.

Definition is_valid_char (c : gunichar) (allow_sep : bool) : bool :=
  if G_IS_DIR_SEPARATOR c then allow_sep
  else if win32 then
    negb ((c =? 60) || (c =? 62) || (c =? 58) || (c =? 34) || (c =? 47) ||
          (c =? 92) || (c =? 124) || (c =? 63) || (c =? 42))
  else negb (c =? 47).

(** unicode division slash *)
Definition DIVISION_SLASH : gunichar := 8725.
Definition UNDERSCORE : gunichar := 95.

Fixpoint make_valid (s : ustring) (allow_sep : bool) : ustring :=
  match s with
  | [] => []
  | c :: s' =>
      (if negb (is_valid_char c allow_sep) then
         if c =? 47 then DIVISION_SLASH else UNDERSCORE
       else c) :: make_valid s' allow_sep
  end.

End Platform.

(** The rest of the engine is the non-Windows build. *)
Definition posix : bool := false.

(** ** Metadata of one file

    What the collaborators answer for the file being renamed:
    [FramesMetaData] accessors, the formatting helpers of the engine that
    work on floating-point values, [strftime] on the file's date, the
    [Glib::Regex] match of [%#] and the Exiv2 tag lookup. *)
Record FramesMetaData := {
  getFileName : ustring;
  (** [strftime(buf, 255, fmt, &t)] with [fmt = "%c"], [t = getDateTime()] *)
  strftime_DateTime : gunichar -> ustring;
  getMake : ustring;
  getModel : ustring;
  getLens : ustring;
  getRating : Z;
  getISOSpeed : Z;
  (** [apertureToString(getFNumber())] *)
  apertureToString_FNumber : ustring;
  (** [tostr(getFocalLen(), 0)], a [double] printed with no decimals *)
  tostr_FocalLen : ustring;
  (** [expcompToString(getExpComp(), false)] *)
  expcompToString_ExpComp : ustring;
  (** [shutterToString(getShutterSpeed())] *)
  shutterToString_ShutterSpeed : ustring;
  (** group 1 of the match of [^.*?([0-9]+)$] on a name, empty when the
      name does not match *)
  regex_fetch_number : ustring -> ustring;
  (** [findKey] in the Exif, Iptc or Xmp data of the file: the value as a
      string, [None] when the key is absent or Exiv2 throws *)
  exiv2_findKey : ustring -> option ustring
}.

(** ** Patterns *)

(** The lambdas given to [make_pattern] in [parse_pattern]. *)
Inductive FramesFunc :=
| FileName | FileExt | FileNumber
| Date (c : gunichar)
| Camera | Make | Model
| Rating | ISO | FNumber | Lens | FocalLength | ExpComp | ShutterSpeed
| Percent.

(** [tostr(n, 0)] on an [int] *)
Definition tostr_int (n : Z) : ustring := to_string n.

Definition apply_func (f : FramesFunc) (fd : FramesMetaData) : ustring :=
  match f with
  | FileName => removeExtension (path_get_basename (getFileName fd))
  | FileExt => getExtension (getFileName fd)
  | FileNumber =>
      regex_fetch_number fd (removeExtension (path_get_basename (getFileName fd)))
  | Date c => strftime_DateTime fd c
  | Camera => getMake fd ++ u " " ++ getModel fd
  | Make => getMake fd
  | Model => getModel fd
  | Rating => tostr_int (getRating fd)
  | ISO => tostr_int (getISOSpeed fd)
  | FNumber => apertureToString_FNumber fd
  | Lens => getLens fd
  | FocalLength => tostr_FocalLen fd
  | ExpComp => expcompToString_ExpComp fd
  | ShutterSpeed => shutterToString_ShutterSpeed fd
  | Percent => u "%"
  end.

(** The subclasses of [Pattern], with their members. *)
Inductive Pattern :=
| FixedPattern (s_ : ustring)
| ProgressivePattern (pad_ : N)
| FramesDataPattern (func_ : FramesFunc)
| TagPattern (tag_ : ustring).

(** The constructor of [FixedPattern]: [s_(make_valid(s, true))]. *)
Definition new_FixedPattern (s : ustring) : Pattern :=
  FixedPattern (make_valid posix s true).

(** [strncmp(tag, prefix, strlen(prefix)) == 0] *)
Definition starts_with (prefix s : ustring) : bool :=
  ueqb (firstn (length prefix) s) prefix.

(** [std::string(count, '0')] *)
Definition zeros (count : N) : ustring := repeat (ch "0") (N.to_nat count).

(** [operator()] of each subclass.  The shared counter that
    [ProgressivePattern] holds by reference is threaded through: [idx] is
    [params.progressive_number] before the call, the second component of
    the result is its value after it. *)
Definition render (p : Pattern) (fd : FramesMetaData) (idx : Z) : ustring * Z :=
  match p with
  | FixedPattern s_ => (s_, idx)
  | ProgressivePattern pad_ =>
      let s := to_string idx in
      let idx' := int_wrap (idx + 1) in
      if ulen s <? pad_ then (zeros (pad_ - ulen s) ++ s, idx') else (s, idx')
  | FramesDataPattern func_ => (make_valid posix (apply_func func_ fd) false, idx)
  | TagPattern tag_ =>
      if starts_with (u "Exif.") tag_ || starts_with (u "Iptc.") tag_
         || starts_with (u "Xmp.") tag_ then
        match exiv2_findKey fd tag_ with
        | Some v => (make_valid posix v false, idx)
        | None => ([], idx)
        end
      else ([], idx)
  end.

Inductive Normalization := OFF | UPPERCASE | LOWERCASE.
Inductive OnExistingAction := SKIP | RENAME.

Record Params := {
  basedir : ustring;
  pattern : list Pattern;
  sidecars : list ustring;
  name_norm : Normalization;
  ext_norm : Normalization;
  allow_whitespace : bool;
  on_existing : OnExistingAction;
  progressive_number : Z
}.

(** ** [parse_pattern] *)

Definition is_ch (c : gunichar) (a : ascii) : bool := c =? ch a.
Arguments is_ch c a%_char.

(** The cases of the [switch] that push a [FramesDataPattern]. *)
Definition frames_directive (c : gunichar) : option FramesFunc :=
  if is_ch c "f" then Some FileName
  else if is_ch c "e" then Some FileExt
  else if is_ch c "#" then Some FileNumber
  else if is_ch c "m" || is_ch c "d" || is_ch c "Y" || is_ch c "y" ||
          is_ch c "a" || is_ch c "A" || is_ch c "b" || is_ch c "B" then Some (Date c)
  else if is_ch c "C" then Some Camera
  else if is_ch c "M" then Some Make
  else if is_ch c "N" then Some Model
  else if is_ch c "r" then Some Rating
  else if is_ch c "I" then Some ISO
  else if is_ch c "F" then Some FNumber
  else if is_ch c "L" then Some Lens
  else if is_ch c "l" then Some FocalLength
  else if is_ch c "E" then Some ExpComp
  else if is_ch c "s" then Some ShutterSpeed
  else if is_ch c "%" then Some Percent
  else None.

(** [while (j < n && s[j] != ']') ++j], run on the characters from
    position [j] on; the result is the final [j]. *)
Fixpoint scan_bracket (rest : ustring) (j : N) : N :=
  match rest with
  | [] => j
  | c :: rest' => if is_ch c "]" then j else scan_bracket rest' (j + 1)
  end.

(** The [switch (c)] on the directive character; [i] already points
    after it.  [None] is [return false], otherwise the new [i] and
    [out.pattern]. *)
Definition parse_directive (s : ustring) (n i : N) (c : gunichar)
    (out : list Pattern) : option (N * list Pattern) :=
  if is_ch c "n" then
    if (i <? n) && isdigit (at_ s i) then
      Some (i + 1, out ++ [ProgressivePattern (at_ s i - ch "0")])
    else Some (i, out ++ [ProgressivePattern 0])
  else if is_ch c "T" then
    if (i <? n) && is_ch (at_ s i) "[" then
      let j := scan_bracket (dropN (i + 1) s) (i + 1) in
      if j <? n then Some (j + 1, out ++ [TagPattern (substr s (i + 1) (j - i - 1))])
      else None
    else None
  else
    match frames_directive c with
    | Some f => Some (i, out ++ [FramesDataPattern f])
    | None => None
    end.

(** The [for] loop of [parse_pattern].  Every turn moves [i] forward, so
    [S (length s)] turns are enough ([parse_loop_fuel]).  [None] is
    [return false]; otherwise [prev] and [out.pattern] at the exit. *)
Fixpoint parse_loop (fuel : nat) (s : ustring) (prev i : N) (out : list Pattern)
    : option (N * list Pattern) :=
  match fuel with
  | O => Some (prev, out)
  | S fuel' =>
      let n := ulen s in
      if i <? n then
        let c := at_ s i in
        if is_ch c "%" then
          let out :=
            if negb (prev =? i) then out ++ [new_FixedPattern (substr s prev (i - prev))]
            else out in
          if i + 1 <? n then
            let i := i + 2 in
            let c := at_ s (i - 1) in
            match parse_directive s n i c out with
            | Some (i, out) => parse_loop fuel' s i i out
            | None => None
            end
          else None
        else if negb (is_valid_char posix c true) then None
        else parse_loop fuel' s prev (i + 1) out
      else Some (prev, out)
  end.

(** [parse_pattern]: [None] when the function returns [false], and
    [out.pattern] when it returns [true]. *)
Definition parse_pattern (s : ustring) : option (list Pattern) :=
  let n := ulen s in
  match parse_loop (S (length s)) s 0 0 [] with
  | None => None
  | Some (prev, out) =>
      let out := if prev <? n then out ++ [new_FixedPattern (substr_from s prev)] else out in
      match out with
      | [] => None
      | FixedPattern s0 :: _ => if g_path_is_absolute s0 then None else Some out
      | _ => Some out
      end
  end.

(** ** [trim] and [parse_sidecars] *)

(** [while (start && isspace(s[i])) ++i], with the positions read so far
    in [reads].  The loop has no bound on [i]: it stops at the first
    character that is not a space, at the latest on the terminator at
    position [ulen s]. *)
Fixpoint trim_start (fuel : nat) (s : ustring) (i : N) (reads : list N) : N * list N :=
  match fuel with
  | O => (i, reads)
  | S fuel' =>
      if isspace (at_ s i) then trim_start fuel' s (i + 1) (reads ++ [i])
      else (i, reads ++ [i])
  end.

(** [while (end && n > 0 && isspace(s[n-1])) --n] *)
Fixpoint trim_end (fuel : nat) (s : ustring) (n : N) (reads : list N) : N * list N :=
  match fuel with
  | O => (n, reads)
  | S fuel' =>
      if 0 <? n then
        if isspace (at_ s (n - 1)) then trim_end fuel' s (n - 1) (reads ++ [n - 1])
        else (n, reads ++ [n - 1])
      else (n, reads)
  end.

(** [trim(s, start, end)]: the result and the positions of [s] it read,
    in order. *)
Definition trim_run (s : ustring) (start end_ : bool) : ustring * list N :=
  let '(i, reads) := if start then trim_start (S (length s)) s 0 [] else (0, []) in
  let '(n, reads) := if end_ then trim_end (S (length s)) s (ulen s) reads
                     else (ulen s, reads) in
  (substr s i (size_sub n i), reads).

Definition trim (s : ustring) : ustring := fst (trim_run s true true).
Definition trim_reads (s : ustring) : list N := snd (trim_run s true true).

Definition empty (s : ustring) : bool :=
  match s with [] => true | _ => false end.

(** The [for] loop of [parse_sidecars]; the result is [prev] and
    [out.sidecars] at the exit. *)
Fixpoint sidecars_loop (fuel : nat) (s : ustring) (prev i : N) (out : list ustring)
    : N * list ustring :=
  match fuel with
  | O => (prev, out)
  | S fuel' =>
      if i <? ulen s then
        if is_ch (at_ s i) ";" then
          let e := trim (substr s prev (i - prev)) in
          let out := if negb (empty e) then out ++ [e] else out in
          let i := i + 1 in
          let prev := i in
          sidecars_loop fuel' s prev (i + 1) out
        else sidecars_loop fuel' s prev (i + 1) out
      else (prev, out)
  end.

(** [parse_sidecars]: the returned [bool] and [out.sidecars]. *)
Definition parse_sidecars (s : ustring) : bool * list ustring :=
  let '(prev, out) := sidecars_loop (S (length s)) s 0 0 [] in
  let out :=
    if prev <? ulen s then
      let e := trim (substr_from s prev) in
      if negb (empty e) then out ++ [e] else out
    else out in
  (true, out).

(** ** [get_new_name] *)

Definition set_progressive_number (params : Params) (idx : Z) : Params :=
  {| basedir := basedir params; pattern := pattern params;
     sidecars := sidecars params; name_norm := name_norm params;
     ext_norm := ext_norm params; allow_whitespace := allow_whitespace params;
     on_existing := on_existing params; progressive_number := idx |}.

(** The loop over [params.pattern] that appends each rendering to [name]. *)
Definition render_step (fd : FramesMetaData) (acc : ustring * Z) (p : Pattern) : ustring * Z :=
  let '(s, idx') := render p fd (snd acc) in (fst acc ++ s, idx').

Definition render_all (ps : list Pattern) (fd : FramesMetaData) (idx : Z) : ustring * Z :=
  fold_left (render_step fd) ps ([], idx).

(** The body of the two character loops. *)
Definition norm_char (allow_ws : bool) (norm : Normalization) (c : gunichar) : gunichar :=
  let c := if negb allow_ws && isspace c then UNDERSCORE else c in
  match norm with
  | UPPERCASE => toupper c
  | LOWERCASE => tolower c
  | OFF => c
  end.

(** The split of the concatenated name into what the first loop and the
    second loop run over. *)
Definition split_ext (name : ustring) : ustring * ustring :=
  let ext := getExtension name in
  if negb (empty ext) then (removeExtension name, ch "." :: ext) else (name, ext).

(** [ret] before the base directory is put in front. *)
Definition normalized_name (params : Params) (name : ustring) : ustring :=
  let '(name, ext) := split_ext name in
  map (norm_char (allow_whitespace params) (name_norm params)) name ++
  map (norm_char (allow_whitespace params) (ext_norm params)) ext.

(** [get_new_name]: the new name, and [params] with the counter as the
    patterns left it. *)
Definition get_new_name (params : Params) (fd : FramesMetaData) : ustring * Params :=
  let '(name, idx) := render_all (pattern params) fd (progressive_number params) in
  let ret := normalized_name params name in
  let ret :=
    if negb (empty (basedir params)) && negb (ueqb (basedir params) (u "."))
    then build_filename (basedir params) ret else ret in
  (ret, set_progressive_number params idx).

(** ** [get_targets] *)

Section Targets.

(** [Glib::file_test(path, Glib::FILE_TEST_EXISTS)] *)
Variable file_exists : ustring -> bool.
(** [options.getParamFile] *)
Variable getParamFile : ustring -> ustring.

(** [for (int i = 1; ; ++i)]: the first name [bn_i ext] whose path does
    not exist.  The loop has no bound; [None] stands for the fuel
    running out. *)
Fixpoint probe (fuel : nat) (dir bn ext : ustring) (i : Z) : option (ustring * ustring) :=
  match fuel with
  | O => None
  | S fuel' =>
      let nn := bn ++ u "_" ++ to_string i ++ ext in
      let newpath := build_filename dir nn in
      if negb (file_exists newpath) then Some (newpath, nn)
      else probe fuel' dir bn ext (int_wrap (i + 1))
  end.

(** The lambda [ok]. *)
Definition ok (out : list (ustring * ustring)) (name : ustring) : bool :=
  if negb (file_exists name) then false
  else negb (existsb (fun p => ueqb (fst p) name) out).

Definition sidecar_names (fn newpath base_fn base_newpath s : ustring) : ustring * ustring :=
  if is_ch (at_ s 0) "+" then
    (fn ++ u "." ++ substr_from s 1, newpath ++ u "." ++ substr_from s 1)
  else (base_fn ++ u "." ++ s, base_newpath ++ u "." ++ s).

(** From [out.push_back(std::make_pair(fn, newpath))] to the end. *)
Definition push_targets (params : Params) (fn newpath : ustring) : list (ustring * ustring) :=
  let out := [(fn, newpath)] in
  let pf := getParamFile fn in
  let out := if file_exists pf then out ++ [(pf, getParamFile newpath)] else out in
  if negb (match sidecars params with [] => true | _ => false end) then
    let base_fn := removeExtension fn in
    let base_newpath := removeExtension newpath in
    fold_left
      (fun out s =>
         let '(orig_sidename, new_sidename) :=
           sidecar_names fn newpath base_fn base_newpath s in
         if ok out orig_sidename then out ++ [(orig_sidename, new_sidename)] else out)
      (sidecars params) out
  else out.

(** [get_targets]: [out] and [params] after the call; [None] when the
    probing loop is still running after [fuel] turns. *)
Definition get_targets (fuel : nat) (params : Params) (fd : FramesMetaData)
    : option (list (ustring * ustring) * Params) :=
  let fn := getFileName fd in
  let dir := path_get_dirname fn in
  let '(newname, params) := get_new_name params fd in
  let newpath :=
    if g_path_is_absolute newname then newname else build_filename dir newname in
  if file_exists newpath then
    match on_existing params with
    | RENAME =>
        let bn := removeExtension newname in
        let ext := getExtension newname in
        let ext := if negb (empty ext) then ch "." :: ext else ext in
        match probe fuel dir bn ext 1 with
        | Some (newpath, _) => Some (push_targets params fn newpath, params)
        | None => None
        end
    | SKIP => Some ([], params)
    end
  else Some (push_targets params fn newpath, params).

End Targets.

(** ** The inspector image cache *)

Section Inspector.

(** A decoded preview surface ([Cairo::ImageSurface]) and the three
    channels of a histogram ([std::array<LUTu, 3>]). *)
Variable Surface : Type.
Variable Histogram : Type.
(** The histogram of a buffer whose decoder was never run. *)
Variable empty_histogram : Histogram.

(** *** [rtengine::Cache] *)

(** Modelled from the spec: the class [rtengine::Cache] ([cache.h]) that
    [InspectorArea::cache_] instantiates is not part of the sources at
    hand.  Following the data model of the specification it is a
    capacity and a mapping from path to entry kept in recency order,
    most recently used first. *)
Record Cache (V : Type) := {
  store_size : N;
  lru_list : list (ustring * V)
}.
Arguments store_size {V} _.
Arguments lru_list {V} _.

(** Modelled from the spec: the constructor, an empty cache of the given
    capacity. *)
Definition new_Cache {V : Type} (size : N) : Cache V :=
  {| store_size := size; lru_list := [] |}.

(** Modelled from the spec: the entry stored under a key. *)
Fixpoint lru_find {V : Type} (key : ustring) (l : list (ustring * V)) : option V :=
  match l with
  | [] => None
  | (k, v) :: l' => if ueqb k key then Some v else lru_find key l'
  end.

(** Modelled from the spec: the mapping without the entry of a key. *)
Fixpoint lru_remove {V : Type} (key : ustring) (l : list (ustring * V)) : list (ustring * V) :=
  match l with
  | [] => []
  | (k, v) :: l' => if ueqb k key then l' else (k, v) :: lru_remove key l'
  end.

(** Modelled from the spec: [Cache::get], "if present, promotes the entry
    to most-recently-used and returns it"; an absent key leaves the cache
    as it is. *)
Definition Cache_get {V : Type} (c : Cache V) (key : ustring) : option V * Cache V :=
  match lru_find key (lru_list c) with
  | Some v =>
      (Some v, {| store_size := store_size c;
                  lru_list := (key, v) :: lru_remove key (lru_list c) |})
  | None => (None, c)
  end.

(** Modelled from the spec: the eviction before an insertion, which
    "evicts the least-recently-used entry first, repeating until there is
    room for exactly one more". *)
Fixpoint evict_for_one {V : Type} (fuel : nat) (size : N) (l : list (ustring * V))
    : list (ustring * V) :=
  match fuel with
  | O => l
  | S fuel' =>
      if size <=? N.of_nat (length l) then evict_for_one fuel' size (removelast l) else l
  end.

(** Modelled from the spec: [Cache::set], "insertion of an already-present
    key refreshes its recency without duplicating storage"; a new key is
    inserted "under LRU discipline". *)
Definition Cache_set {V : Type} (c : Cache V) (key : ustring) (value : V) : Cache V :=
  match lru_find key (lru_list c) with
  | Some _ =>
      {| store_size := store_size c;
         lru_list := (key, value) :: lru_remove key (lru_list c) |}
  | None =>
      {| store_size := store_size c;
         lru_list := (key, value) ::
                     evict_for_one (length (lru_list c)) (store_size c) (lru_list c) |}
  end.

(** Modelled from the spec: [Cache::clear], "clears every entry
    unconditionally". *)
Definition Cache_clear {V : Type} (c : Cache V) : Cache V :=
  {| store_size := store_size c; lru_list := [] |}.

(** *** [InspectorBuffer] *)

Record InspectorBuffer := {
  imgBuffer : option Surface;
  imgPath : ustring;
  histogram : Histogram
}.

(** What the outside answers while an image is loaded: the two
    [Glib::file_test] checks, [rtengine::PreviewImage] (given path,
    extension, width and height; the two option flags it also takes are
    part of the environment), the window of the widget and the zoom
    option. *)
Record DecodeEnv := {
  test_exists : ustring -> bool;
  test_is_dir : ustring -> bool;
  PreviewImage_getImage : ustring -> ustring -> Z -> Z -> option Surface;
  PreviewImage_getHistogram : ustring -> ustring -> Z -> Z -> Histogram;
  get_window : option (Z * Z);
  thumbnail_inspector_zoom_fit : bool
}.

(** The constructor [InspectorBuffer::InspectorBuffer]. *)
Definition new_InspectorBuffer (env : DecodeEnv) (imagePath : ustring)
    (width height : Z) : InspectorBuffer :=
  if negb (empty imagePath) && test_exists env imagePath
     && negb (test_is_dir env imagePath) then
    let ext := getExtension imagePath in
    if ueqb ext [] then
      {| imgBuffer := None; imgPath := []; histogram := empty_histogram |}
    else
      let hist := PreviewImage_getHistogram env imagePath ext width height in
      match PreviewImage_getImage env imagePath ext width height with
      | Some imageSurface =>
          {| imgBuffer := Some imageSurface; imgPath := imagePath; histogram := hist |}
      | None => {| imgBuffer := None; imgPath := []; histogram := hist |}
      end
  else {| imgBuffer := None; imgPath := []; histogram := empty_histogram |}.

(** *** [InspectorArea] *)

(** The members of [InspectorArea] the cache operations touch. *)
Record InspectorArea := {
  cache_ : Cache InspectorBuffer;
  cur_image_ : option InspectorBuffer
}.

(** The constructor: [cache_(std::max(options.maxInspectorBuffers, 1))],
    [cur_image_(nullptr)]. *)
Definition new_InspectorArea (maxInspectorBuffers : Z) : InspectorArea :=
  {| cache_ := new_Cache (Z.to_N (Z.max maxInspectorBuffers 1));
     cur_image_ := None |}.

(** The size asked of the decoder: that of the window when there is one
    and the image is to fit it, otherwise [-1, -1]. *)
Definition request_size (env : DecodeEnv) : Z * Z :=
  match get_window env with
  | Some (w, h) => if thumbnail_inspector_zoom_fit env then (w, h) else ((-1)%Z, (-1)%Z)
  | None => ((-1)%Z, (-1)%Z)
  end.

(** [InspectorArea::doCacheImage]: the result and the cache after the
    call. *)
Definition doCacheImage (env : DecodeEnv) (c : Cache InspectorBuffer)
    (fullPath : ustring) : option InspectorBuffer * Cache InspectorBuffer :=
  match Cache_get c fullPath with
  | (Some res, c) => (Some res, c)
  | (None, c) =>
      let '(width, height) := request_size env in
      let res := new_InspectorBuffer env fullPath width height in
      if empty (imgPath res) then (None, c)
      else (Some res, Cache_set c fullPath res)
  end.

(** [InspectorArea::preloadImage] *)
Definition preloadImage (env : DecodeEnv) (a : InspectorArea) (fullPath : ustring)
    : InspectorArea :=
  {| cache_ := snd (doCacheImage env (cache_ a) fullPath);
     cur_image_ := cur_image_ a |}.

(** [InspectorArea::doSwitchImage], as far as the cache and the current
    image go. *)
Definition doSwitchImage (env : DecodeEnv) (a : InspectorArea) (fullPath : ustring)
    : InspectorArea :=
  if empty fullPath then {| cache_ := cache_ a; cur_image_ := None |}
  else
    let '(res, c) := doCacheImage env (cache_ a) fullPath in
    {| cache_ := c; cur_image_ := res |}.

(** [InspectorArea::deleteBuffers] *)
Definition deleteBuffers (a : InspectorArea) : InspectorArea :=
  {| cache_ := Cache_clear (cache_ a); cur_image_ := None |}.

(** The operations of the cache as its users see them. *)
Inductive CacheOp :=
| Get (env : DecodeEnv) (path : ustring)
| Preload (env : DecodeEnv) (path : ustring)
| InvalidateAll.

Definition step (a : InspectorArea) (op : CacheOp) : InspectorArea :=
  match op with
  | Get env path => doSwitchImage env a path
  | Preload env path => preloadImage env a path
  | InvalidateAll => deleteBuffers a
  end.

Definition run (ops : list CacheOp) (a : InspectorArea) : InspectorArea :=
  fold_left step ops a.

(** The ways a decode fails. *)
Definition decode_fails (env : DecodeEnv) (path : ustring) : Prop :=
  path = []
  \/ test_exists env path = false
  \/ test_is_dir env path = true
  \/ getExtension path = []
  \/ PreviewImage_getImage env path (getExtension path)
       (fst (request_size env)) (snd (request_size env)) = None.

Definition cache_size (a : InspectorArea) : N := N.of_nat (length (lru_list (cache_ a))).
Definition cache_capacity (a : InspectorArea) : N := store_size (cache_ a).
Definition cache_keys (a : InspectorArea) : list ustring := map fst (lru_list (cache_ a)).

End Inspector.

Arguments store_size {V} _.
Arguments lru_list {V} _.
Arguments imgBuffer {Surface Histogram} _.
Arguments imgPath {Surface Histogram} _.
Arguments histogram {Surface Histogram} _.
Arguments test_exists {Surface Histogram} _ _.
Arguments test_is_dir {Surface Histogram} _ _.
Arguments PreviewImage_getImage {Surface Histogram} _ _ _ _ _.
Arguments PreviewImage_getHistogram {Surface Histogram} _ _ _ _ _.
Arguments get_window {Surface Histogram} _.
Arguments thumbnail_inspector_zoom_fit {Surface Histogram} _.
Arguments cache_ {Surface Histogram} _.
Arguments cur_image_ {Surface Histogram} _.
Arguments new_InspectorArea {Surface Histogram} _.
Arguments request_size {Surface Histogram} _.
Arguments doCacheImage {Surface Histogram} _ _ _ _.
Arguments preloadImage {Surface Histogram} _ _ _ _.
Arguments doSwitchImage {Surface Histogram} _ _ _ _.
Arguments deleteBuffers {Surface Histogram} _.
Arguments new_InspectorBuffer {Surface Histogram} _ _ _ _ _.
Arguments decode_fails {Surface Histogram} _ _.
Arguments Get {Surface Histogram} _ _.
Arguments Preload {Surface Histogram} _ _.
Arguments InvalidateAll {Surface Histogram}.
Arguments step {Surface Histogram} _ _ _.
Arguments run {Surface Histogram} _ _ _.
Arguments cache_size {Surface Histogram} _.
Arguments cache_capacity {Surface Histogram} _.
Arguments cache_keys {Surface Histogram} _.

(** ** Vocabulary of the properties *)

(** Number of raw path separators in a string. *)
Definition sep_count (s : ustring) : nat := length (filter is_sep s).

(** The text a pattern element contributes as a literal segment. *)
Definition literal_of (p : Pattern) : ustring :=
  match p with
  | FixedPattern s_ => s_
  | _ => []
  end.

Definition literal_text (ps : list Pattern) : ustring := flat_map literal_of ps.

(** The number a string of decimal digits stands for. *)
Definition decimal_value (s : ustring) : N :=
  fold_left (fun acc c => acc * 10 + (c - ch "0")) s 0.

(** A string that fits in the address space. *)
Definition fits (s : ustring) : Prop := ulen s < size_modulus.

(** What [make_valid] puts in the place of a character. *)
Definition substitute (win32 : bool) (allow_sep : bool) (c : gunichar) : gunichar :=
  if is_valid_char win32 c allow_sep then c
  else if c =? 47 then DIVISION_SLASH else UNDERSCORE.


(** ** Sample data *)

(** A file taken with a camera whose model name holds a slash. *)
Definition sample_fd (fn : ustring) : FramesMetaData :=
  {| getFileName := fn;
     strftime_DateTime := fun _ => u "2020";
     getMake := u "Canon";
     getModel := u "EOS/5D";
     getLens := u "EF 24-70";
     getRating := 3%Z;
     getISOSpeed := 100%Z;
     apertureToString_FNumber := u "2.8";
     tostr_FocalLen := u "50";
     expcompToString_ExpComp := u "+0.33";
     shutterToString_ShutterSpeed := u "1/250";
     regex_fetch_number := fun _ => [];
     exiv2_findKey := fun _ => None |}.

Definition sample_params (bd : ustring) (pat : list Pattern) (sc : list ustring)
    (oe : OnExistingAction) (start : Z) : Params :=
  {| basedir := bd; pattern := pat; sidecars := sc;
     name_norm := OFF; ext_norm := OFF; allow_whitespace := true;
     on_existing := oe; progressive_number := start |}.

(** A file system given by the list of the paths that exist. *)
Definition files (l : list ustring) (p : ustring) : bool := existsb (ueqb p) l.

(** A parameter-file convention for the examples: the name with [.arp]
    appended. *)
Definition sample_param_file (p : ustring) : ustring := p ++ u ".arp".

(** A character that the [switch] of [parse_pattern] has a case for. *)
Definition is_directive (c : gunichar) : bool :=
  match frames_directive c with
  | Some _ => true
  | None => is_ch c "n" || is_ch c "T"
  end.

(** The first element of a pattern is a literal segment that starts with
    a separator. *)
Definition head_absolute (out : list Pattern) : bool :=
  match out with
  | FixedPattern s_ :: _ => g_path_is_absolute s_
  | _ => false
  end.

(** ** The plan of targets in the words of the specification *)

Section PlanSpec.

Variable file_exists : ustring -> bool.
Variable getParamFile : ustring -> ustring.

(** "if the suffix string begins with [+], the sidecar path is
    [sourcePath + "." + suffix-without-plus]; otherwise it is
    [stem(sourcePath) + "." + suffix]" *)
Definition sidecar_path (path : ustring) (suffix : ustring) : ustring :=
  match suffix with
  | c :: rest => if is_ch c "+" then path ++ u "." ++ rest
                 else removeExtension path ++ u "." ++ suffix
  | [] => removeExtension path ++ u "." ++ suffix
  end.

(** "A sidecar is included only if it exists on disk and is not already
    present in the output list": [seen] are the sources listed so far. *)
Fixpoint plan_sidecars (fn newpath : ustring) (seen : list ustring) (suffixes : list ustring)
    : list (ustring * ustring) :=
  match suffixes with
  | [] => []
  | s :: rest =>
      let src := sidecar_path fn s in
      if file_exists src && negb (existsb (ueqb src) seen) then
        (src, sidecar_path newpath s) :: plan_sidecars fn newpath (seen ++ [src]) rest
      else plan_sidecars fn newpath seen rest
  end.

(** "Always includes the primary file first.  Then includes, if present,
    the sidecar with the application's parameter-file convention." *)
Definition plan_head (fn newpath : ustring) : list (ustring * ustring) :=
  (fn, newpath) ::
  (if file_exists (getParamFile fn) then [(getParamFile fn, getParamFile newpath)] else []).

Definition plan_targets (fn newpath : ustring) (suffixes : list ustring)
    : list (ustring * ustring) :=
  plan_head fn newpath ++
  plan_sidecars fn newpath (map fst (plan_head fn newpath)) suffixes.

(** The name probed at turn [i] of the renaming loop and its path. *)
Definition probe_name (newname : ustring) (i : Z) : ustring :=
  removeExtension newname ++ u "_" ++ to_string i ++
  (if empty (getExtension newname) then [] else ch "." :: getExtension newname).

End PlanSpec.

(** Sample file systems. *)
Definition sample_disk : ustring -> bool :=
  files [u "img.cr2"; u "img.xmp"; u "img.cr2.arp"; u "./out/img_001.cr2"].

Definition sample_disk_absolute : ustring -> bool :=
  files [u "/photos/img.cr2"; u "/photos/img.xmp"; u "/out/img.cr2"].

Definition name_ext_pattern : list Pattern :=
  [FramesDataPattern FileName; FixedPattern (u "."); FramesDataPattern FileExt].

Definition numbered_pattern : list Pattern :=
  [FramesDataPattern FileName; FixedPattern (u "_"); ProgressivePattern 3;
   FixedPattern (u "."); FramesDataPattern FileExt].

(** A decoder for the examples: surfaces and histograms are numbers, every
    path but [missing.jpg] exists, none is a directory, and a decode gives
    the length of the path as its surface. *)
Definition sample_env : DecodeEnv N N :=
  {| test_exists := fun p => negb (ueqb p (u "missing.jpg"));
     test_is_dir := fun _ => false;
     PreviewImage_getImage := fun p _ _ _ => Some (ulen p);
     PreviewImage_getHistogram := fun _ _ _ _ => 0;
     get_window := None;
     thumbnail_inspector_zoom_fit := false |}.

Definition path_A : ustring := u "A.jpg".
Definition path_B : ustring := u "B.jpg".
Definition path_C : ustring := u "C.jpg".

(** ** The extension in the words of the specification *)

(** The characters before the first one that satisfies [p]. *)
Fixpoint take_until (p : gunichar -> bool) (s : ustring) : ustring :=
  match s with
  | c :: s' => if p c then [] else c :: take_until p s'
  | [] => []
  end.

(** The text after the last character that satisfies [p]; the whole text
    when there is none. *)
Definition after_last (p : gunichar -> bool) (s : ustring) : ustring :=
  rev (take_until p (rev s)).

(** "the final path segment" *)
Definition last_segment (name : ustring) : ustring := after_last is_sep name.

(** "the last dot is strictly after the last whitespace" *)
Definition extension_recognized (segment : ustring) : bool :=
  existsb is_dot segment && negb (existsb is_blank (after_last is_dot segment)).

(** "the text after the last dot of the final path segment ... otherwise
    the extension is empty" *)
Definition extension_of (name : ustring) : ustring :=
  if extension_recognized (last_segment name)
  then after_last is_dot (last_segment name) else [].

(** * Further vocabulary *)

(** The characters of a string are all valid. *)
Definition all_valid (win32 : bool) (allow_sep : bool) (s : ustring) : bool :=
  forallb (fun c => is_valid_char win32 c allow_sep) s.

(** A string that is empty or has no space at either end. *)
Definition trimmed (s : ustring) : Prop :=
  s = [] \/ (isspace (hd 0 s) = false /\ isspace (last s 0) = false).

(** The elements of a pattern that draw a sequence number. *)
Definition is_progressive (p : Pattern) : bool :=
  match p with
  | ProgressivePattern _ => true
  | _ => false
  end.

Definition progressive_count (ps : list Pattern) : nat :=
  length (filter is_progressive ps).

Definition is_fixed (p : Pattern) : bool :=
  match p with
  | FixedPattern _ => true
  | _ => false
  end.

(** What holds of each element that [parse_pattern] emits. *)
Definition element_ok (p : Pattern) : Prop :=
  match p with
  | FixedPattern s_ => s_ <> [] /\ ~ In (ch "%") s_
  | ProgressivePattern pad_ => pad_ <= 9
  | TagPattern tag_ => ~ In (ch "]") tag_
  | FramesDataPattern _ => True
  end.

(** No two literal segments follow each other. *)
Fixpoint no_adjacent_fixed (ps : list Pattern) : Prop :=
  match ps with
  | p :: ((q :: _) as rest) => (is_fixed p && is_fixed q = false) /\ no_adjacent_fixed rest
  | _ => True
  end.

Definition is_lower (c : gunichar) : bool := (97 <=? c) && (c <=? 122).
Definition is_upper (c : gunichar) : bool := (65 <=? c) && (c <=? 90).

(** [e] is a piece of [s] with no space at either end and not empty. *)
Definition entry_ok (s e : ustring) : Prop :=
  e <> []
  /\ isspace (hd 0 e) = false
  /\ isspace (last e 0) = false
  /\ exists before after, s = before ++ e ++ after.

(** The last element of a pattern under construction is not a literal
    segment. *)
Definition ends_unfixed (out : list Pattern) : Prop :=
  match rev out with
  | p :: _ => is_fixed p = false
  | [] => True
  end.

(** * [filecatalog_rename.cc]: running over the selected files *)

(** [run_with_progress]: the idle callback handles one entry per turn of
    the main loop, in the order of [args], while the dialog is open;
    [turns] is the number of turns the user leaves it before cancelling.
    After the last entry the callback closes the dialog itself, so more
    turns than entries change nothing.  [func] is given the state it
    works on explicitly. *)
Definition run_with_progress {E St : Type} (turns : nat) (args : list E)
    (func : St -> E -> St) (st : St) : St :=
  fold_left func (firstn turns args) st.

(** ** [FileCatalog::deleteRequested] *)

(** The calls [deleteRequested] makes on the rest of the program. *)
Inductive DeleteCall :=
| removeFromBatchQueue (tbe : list ustring)
| fileBrowser_delEntry (fname : ustring)
| cacheMgr_deleteEntry (fname : ustring)
| refreshProgressBar
| session_remove (names : list ustring)
| redrawAll
| error_dialog.

Record DeleteState := {
  del_fs : ustring -> bool;           (* the file system *)
  del_calls : list DeleteCall;        (* the calls made so far, in order *)
  previewsLoaded : Z;
  session_rem : list ustring;
  renaming_sidecars : ustring         (* [options.renaming.sidecars] *)
}.

Section Delete.

Variable getParamFile : ustring -> ustring.

(** Whether the operating system lets a path be removed, given the
    file system at the time of the call: [::g_remove] can fail (no
    permission, a directory that is not empty, ...). *)
Variable removable : (ustring -> bool) -> ustring -> bool.

(** [::g_remove(path)] on the file system as the set of the paths that
    exist: the file system after the call, and whether the call returned
    0.  A removal that succeeds takes its path out of the set and leaves
    every other path alone; a removal that fails, or the removal of a path
    that does not exist, changes nothing. *)
Definition g_remove (p : ustring) (fs : ustring -> bool) : (ustring -> bool) * bool :=
  if fs p && removable fs p then (fun q => fs q && negb (ueqb q p), true)
  else (fs, false).

(** The name of the sidecar of [fname] for the suffix [s]. *)
Definition delete_sidename (fname base_fn s : ustring) : ustring :=
  if is_ch (at_ s 0) "+" then fname ++ u "." ++ substr_from s 1
  else base_fn ++ u "." ++ s.

(** The removals the lambda [func] asks for one entry: the file, its
    parameter file, and each configured sidecar that exists when its turn
    comes.  The code does not look at the result of any of them. *)
Definition delete_files (sidecars : list ustring) (fname : ustring)
    (fs : ustring -> bool) : ustring -> bool :=
  let fs := fst (g_remove fname fs) in
  let fs := fst (g_remove (getParamFile fname) fs) in
  if negb (match sidecars with [] => true | _ => false end) then
    let base_fn := removeExtension fname in
    fold_left
      (fun (fs : ustring -> bool) (s : ustring) =>
         let sidename := delete_sidename fname base_fn s in
         if fs sidename then fst (g_remove sidename fs) else fs)
      sidecars fs
  else fs.

(** The lambda [func] of [deleteRequested]; an entry is given by its
    [filename]. *)
Definition delete_func (is_session : bool) (sidecars : list ustring)
    (st : DeleteState) (fname : ustring) : DeleteState :=
  {| del_fs := delete_files sidecars fname (del_fs st);
     del_calls := del_calls st ++ [fileBrowser_delEntry fname; cacheMgr_deleteEntry fname];
     previewsLoaded := int_wrap (previewsLoaded st - 1);
     session_rem := if is_session then session_rem st ++ [fname] else session_rem st;
     renaming_sidecars := renaming_sidecars st |}.

Definition add_call (c : DeleteCall) (st : DeleteState) : DeleteState :=
  {| del_fs := del_fs st; del_calls := del_calls st ++ [c];
     previewsLoaded := previewsLoaded st; session_rem := session_rem st;
     renaming_sidecars := renaming_sidecars st |}.

(** [deleteRequested]: [response_yes] is the answer to the dialog,
    [sidecars_text] the text of its entry when it closes, [is_session]
    the answer of [art::session::check], and [turns] the turns of the
    progress dialog. *)
Definition deleteRequested (response_yes : bool) (sidecars_text : ustring)
    (is_session : bool) (turns : nat) (tbe : list ustring) (st : DeleteState)
    : DeleteState :=
  match tbe with
  | [] => st
  | _ =>
      if response_yes then
        let st := add_call (removeFromBatchQueue tbe) st in
        let '(parsed, sidecars) := parse_sidecars sidecars_text in
        if parsed then
          let st := {| del_fs := del_fs st; del_calls := del_calls st;
                       previewsLoaded := previewsLoaded st; session_rem := [];
                       renaming_sidecars := sidecars_text |} in
          let st := run_with_progress turns tbe (delete_func is_session sidecars) st in
          let st := add_call refreshProgressBar st in
          if is_session then add_call (session_remove (session_rem st)) st
          else add_call redrawAll st
        else add_call error_dialog st
      else st
  end.

End Delete.

(** A state to delete from: the sample disk, nothing called yet. *)
Definition sample_delete_state : DeleteState :=
  {| del_fs := sample_disk; del_calls := []; previewsLoaded := 3;
     session_rem := []; renaming_sidecars := [] |}.

(** An operating system that refuses to remove [img.xmp] and lets every
    other path go. *)
Definition sample_removable (fs : ustring -> bool) (p : ustring) : bool :=
  negb (ueqb p (u "img.xmp")).

(** ** [FileCatalog::copyMoveRequested] *)

(** How [g_rename] ends: done, failed with [errno == EXDEV], or failed
    otherwise. *)
Inductive RenameResult := RenameOk | RenameEXDEV | RenameError.

Section CopyMove.

(** The file system and what the operating system does on it. *)
Variable World : Type.
Variable file_exists : World -> ustring -> bool.
Variable getParamFile : ustring -> ustring.
(** [g_mkdir_with_parents(dir, 0755) == 0] *)
Variable g_mkdir_with_parents : World -> ustring -> World * bool.
Variable g_rename : World -> ustring -> ustring -> World * RenameResult.
(** [Gio::File::copy]; [false] when it throws [Glib::Error]. *)
Variable Gio_copy : World -> ustring -> ustring -> World * bool.
(** [g_remove(path) == 0] *)
Variable g_remove_path : World -> ustring -> World * bool.
(** [e->thumbnail->getMD5()]; an entry is given by its metadata. *)
Variable getMD5 : FramesMetaData -> ustring.

(** The lambda [doit]. *)
Definition doit (move : bool) (w : World) (s d : ustring) : World * bool :=
  if move then
    match g_rename w s d with
    | (w, RenameOk) => (w, true)
    | (w, RenameEXDEV) =>
        match Gio_copy w s d with
        | (w, true) => g_remove_path w s
        | (w, false) => (w, false)
        end
    | (w, RenameError) => (w, false)
    end
  else Gio_copy w s d.

(** [g_mkdir_with_parents(destdir, 0755) == 0 && doit(p.first, p.second)]
    in the file system [w]: whether the pair was transferred. *)
Definition transfer_ok (move : bool) (w : World) (p : ustring * ustring) : bool :=
  let '(w, made) := g_mkdir_with_parents w (path_get_dirname (snd p)) in
  if made then snd (doit move w (fst p) (snd p)) else false.

(** What the lambda [func] works on: the file system, [params], the
    calls of [cacheMgr->renameEntry] (old name, MD5, new name), the two
    session lists and the pairs reported as errors. *)
Record CopyMoveState := {
  world : World;
  cm_params : Params;
  cache_renames : list (ustring * ustring * ustring);
  session_add : list ustring;
  cm_session_rem : list ustring;
  cm_errors : list (ustring * ustring)
}.

(** The body of [for (auto &p : torename)]; the flag is [first]. *)
Definition transfer_step (move is_session : bool) (e : FramesMetaData)
    (acc : CopyMoveState * bool) (p : ustring * ustring) : CopyMoveState * bool :=
  let '(st, first) := acc in
  let destdir := path_get_dirname (snd p) in
  let '(w, made) := g_mkdir_with_parents (world st) destdir in
  let '(w, done) := if made then doit move w (fst p) (snd p) else (w, false) in
  let st :=
    if done then
      if first && move then
        {| world := w; cm_params := cm_params st;
           cache_renames := cache_renames st ++ [(fst p, getMD5 e, snd p)];
           session_add := if is_session then session_add st ++ [snd p] else session_add st;
           cm_session_rem :=
             if is_session then cm_session_rem st ++ [fst p] else cm_session_rem st;
           cm_errors := cm_errors st |}
      else
        {| world := w; cm_params := cm_params st; cache_renames := cache_renames st;
           session_add := session_add st; cm_session_rem := cm_session_rem st;
           cm_errors := cm_errors st |}
    else
      {| world := w; cm_params := cm_params st; cache_renames := cache_renames st;
         session_add := session_add st; cm_session_rem := cm_session_rem st;
         cm_errors := cm_errors st ++ [p] |} in
  (st, false).

(** The lambda [func]; [None] when the probing loop of [get_targets] is
    still running after [fuel] turns. *)
Definition copy_move_func (move is_session : bool) (fuel : nat)
    (st : CopyMoveState) (e : FramesMetaData) : option CopyMoveState :=
  match get_targets (file_exists (world st)) getParamFile fuel (cm_params st) e with
  | Some (torename, params) =>
      let st := {| world := world st; cm_params := params;
                   cache_renames := cache_renames st; session_add := session_add st;
                   cm_session_rem := cm_session_rem st; cm_errors := cm_errors st |} in
      Some (fst (fold_left (transfer_step move is_session e) torename (st, true)))
  | None => None
  end.

(** [run_with_progress(args, func, ...)] as [copyMoveRequested] calls
    it. *)
Definition copy_move_batch (move is_session : bool) (fuel turns : nat)
    (args : list FramesMetaData) (st : CopyMoveState) : option CopyMoveState :=
  run_with_progress turns args
    (fun o e => match o with
                | Some st => copy_move_func move is_session fuel st e
                | None => None
                end)
    (Some st).

End CopyMove.

Arguments world {World} _.
Arguments cm_params {World} _.
Arguments cache_renames {World} _.
Arguments session_add {World} _.
Arguments cm_session_rem {World} _.
Arguments cm_errors {World} _.

(** A file system that nothing changes, for the examples: a fixed set of
    paths, every operation reporting success. *)
Definition still_state (params : Params) : CopyMoveState unit :=
  {| world := tt; cm_params := params; cache_renames := []; session_add := [];
     cm_session_rem := []; cm_errors := [] |}.

Definition still_func (move is_session : bool) (disk : ustring -> bool)
    (st : CopyMoveState unit) (e : FramesMetaData) : option (CopyMoveState unit) :=
  copy_move_func unit (fun _ => disk) sample_param_file
    (fun w _ => (w, true)) (fun w _ _ => (w, RenameOk)) (fun w _ _ => (w, true))
    (fun w _ => (w, true)) (fun _ => u "md5") move is_session 10 st e.

(** The same with an operating system on which [g_rename] fails. *)
Definition stuck_func (move is_session : bool) (disk : ustring -> bool)
    (st : CopyMoveState unit) (e : FramesMetaData) : option (CopyMoveState unit) :=
  copy_move_func unit (fun _ => disk) sample_param_file
    (fun w _ => (w, true)) (fun w _ _ => (w, RenameError)) (fun w _ _ => (w, true))
    (fun w _ => (w, true)) (fun _ => u "md5") move is_session 10 st e.

Definition still_batch (move is_session : bool) (disk : ustring -> bool) (turns : nat)
    (args : list FramesMetaData) (st : CopyMoveState unit) : option (CopyMoveState unit) :=
  copy_move_batch unit (fun _ => disk) sample_param_file
    (fun w _ => (w, true)) (fun w _ _ => (w, RenameOk)) (fun w _ _ => (w, true))
    (fun w _ => (w, true)) (fun _ => u "md5") move is_session 10 turns args st.

(** * [inspector.cc]: [Inspector::switchImage] *)

(** The fields of a [FileBrowserEntry] that the inspector reads. *)
Record FileBrowserEntry := {
  filtered : bool;
  filename : ustring
}.

(** How a piece of code with unchecked reads ends: with a value, with a
    read [entries[i]] outside the vector, or with the fuel of a loop used
    up. *)
Inductive outcome (A : Type) :=
| Done (a : A)
| OutOfBounds
| OutOfFuel.
Arguments Done {A} a.
Arguments OutOfBounds {A}.
Arguments OutOfFuel {A}.

(** [entries.size()] and [entries[i]] *)
Definition entries_size (entries : list FileBrowserEntry) : N :=
  N.of_nat (length entries).

Definition entry_at (entries : list FileBrowserEntry) (i : N) : option FileBrowserEntry :=
  nth_error entries (N.to_nat i).

(** [!entries[i]->filtered && entries[i]->filename == fullPath] *)
Definition entry_matches (e : FileBrowserEntry) (fullPath : ustring) : bool :=
  negb (filtered e) && ueqb (filename e) fullPath.

(** The [while (ilo > 0 || ihi < entries.size())] loop; the result is
    [j], which stays [entries.size()] when the loop runs to its end. *)
Fixpoint search_loop (fuel : nat) (entries : list FileBrowserEntry) (fullPath : ustring)
    (ilo ihi : N) : outcome N :=
  match fuel with
  | O => OutOfFuel
  | S fuel' =>
      if (0 <? ilo) || (ihi <? entries_size entries) then
        let below :=
          if 0 <? ilo then
            match entry_at entries (ilo - 1) with
            | Some e =>
                if entry_matches e fullPath then Done (true, ilo - 1)
                else Done (false, ilo - 1)
            | None => OutOfBounds
            end
          else Done (false, ilo) in
        match below with
        | Done (true, j) => Done j
        | Done (false, ilo) =>
            if ihi <? entries_size entries then
              match entry_at entries ihi with
              | Some e =>
                  if entry_matches e fullPath then Done ihi
                  else search_loop fuel' entries fullPath ilo (ihi + 1)
              | None => OutOfBounds
              end
            else search_loop fuel' entries fullPath ilo ihi
        | OutOfBounds => OutOfBounds
        | OutOfFuel => OutOfFuel
        end
      else Done (entries_size entries)
  end.

(** From [size_t j = entries.size()] to the end of the [while] loop:
    the search starts at the index of the image shown before, or at the
    last entry when there are fewer now. *)
Definition find_entry (entries : list FileBrowserEntry) (cur_idx : N) (fullPath : ustring)
    : outcome N :=
  let j := entries_size entries in
  let ilo := N.min cur_idx (size_sub j 1) in
  let ihi := ilo in
  search_loop (S (length entries)) entries fullPath ilo ihi.

(** [for (size_t i = j; i > 0; --i)]: the name of the nearest entry
    below [i] that is not filtered; [prev] stays empty without one. *)
Fixpoint prev_loop (entries : list FileBrowserEntry) (i : nat) : outcome ustring :=
  match i with
  | O => Done []
  | S i' =>
      match nth_error entries i' with
      | Some e => if negb (filtered e) then Done (filename e) else prev_loop entries i'
      | None => OutOfBounds
      end
  end.

(** [for (size_t i = j + 1; i < entries.size(); ++i)] *)
Fixpoint next_loop (fuel : nat) (entries : list FileBrowserEntry) (i : N) : outcome ustring :=
  match fuel with
  | O => OutOfFuel
  | S fuel' =>
      if i <? entries_size entries then
        match entry_at entries i with
        | Some e =>
            if negb (filtered e) then Done (filename e)
            else next_loop fuel' entries (i + 1)
        | None => OutOfBounds
        end
      else Done []
  end.

(** What [Inspector::switchImage] leaves for the active pane: the path
    shown, the index of its entry, and the paths that the idle callback
    it registers will preload, in the order of the calls. *)
Record SwitchResult := {
  shown_path : ustring;          (* [cur_image_[active_]] *)
  shown_idx : N;                 (* [cur_image_idx_[active_]] *)
  preloads : list ustring
}.

(** [Inspector::switchImage], past the [isActive()] test, as far as the
    index and the preloads go. *)
Definition Inspector_switchImage (maxInspectorBuffers : Z)
    (entries : list FileBrowserEntry) (cur_idx : N) (fullPath : ustring)
    : outcome SwitchResult :=
  match find_entry entries cur_idx fullPath with
  | Done j =>
      if j <? entries_size entries then
        match (if (2 <? maxInspectorBuffers)%Z then prev_loop entries (N.to_nat j)
               else Done []) with
        | Done prev =>
            match (if (1 <? maxInspectorBuffers)%Z
                   then next_loop (length entries) entries (j + 1)
                   else Done []) with
            | Done next =>
                Done {| shown_path := fullPath; shown_idx := j;
                        preloads := (if negb (empty next) then [next] else []) ++
                                    (if negb (empty prev) then [prev] else []) |}
            | OutOfBounds => OutOfBounds
            | OutOfFuel => OutOfFuel
            end
        | OutOfBounds => OutOfBounds
        | OutOfFuel => OutOfFuel
        end
      else Done {| shown_path := fullPath; shown_idx := cur_idx; preloads := [] |}
  | OutOfBounds => OutOfBounds
  | OutOfFuel => OutOfFuel
  end.

(** The entry at index [k] is the one looked for. *)
Definition match_at (entries : list FileBrowserEntry) (fullPath : ustring) (k : N) : bool :=
  match entry_at entries k with
  | Some e => entry_matches e fullPath
  | None => false
  end.

(** The turn at which the search looks at index [k] when it starts at
    [start]: it goes outward from the start, the index below first. *)
Definition search_rank (start k : N) : N :=
  if k <? start then 2 * (start - k) - 1 else 2 * (k - start) + 2.

(** The index where the search starts. *)
Definition search_start (entries : list FileBrowserEntry) (cur_idx : N) : N :=
  N.min cur_idx (size_sub (entries_size entries) 1).

(** The names of the entries that are shown. *)
Definition unfiltered_names (entries : list FileBrowserEntry) : list ustring :=
  map filename (filter (fun e => negb (filtered e)) entries).

(** The nearest entry below index [j], and above it, that is shown. *)
Definition nearest_below (entries : list FileBrowserEntry) (j : N) : option FileBrowserEntry :=
  find (fun e => negb (filtered e)) (rev (firstn (N.to_nat j) entries)).

Definition nearest_above (entries : list FileBrowserEntry) (j : N) : option FileBrowserEntry :=
  find (fun e => negb (filtered e)) (skipn (S (N.to_nat j)) entries).

(** The preload asked for an entry, if any: none without an entry, and
    none for an entry whose name is empty. *)
Definition preload_of (o : option FileBrowserEntry) : list ustring :=
  match o with
  | Some e => if empty (filename e) then [] else [filename e]
  | None => []
  end.

(** The entries of a sample browser: the second one is filtered out. *)
Definition sample_entries : list FileBrowserEntry :=
  [ {| filtered := false; filename := u "a.jpg" |};
    {| filtered := true; filename := u "b.jpg" |};
    {| filtered := false; filename := u "c.jpg" |};
    {| filtered := false; filename := u "d.jpg" |} ].

(** * [InspectorArea::on_draw]: the displayed area *)

(** One axis of the computation: the size of the window ([availableSize]),
    the size of the image ([imW] or [imH]) and the coordinate of [center]
    give the offset into the image ([topLeft]), the position in the
    window ([dest]) and the extent drawn ([dw] or [dh]).  The values are
    [int]s. *)
Definition draw_axis (availableSize im center : Z) : Z * Z * Z :=
  let '(topLeft, dest) :=
    if (im <? availableSize)%Z then
      (0%Z, int_wrap (Z.quot (int_wrap (availableSize - im)) 2))
    else
      let topLeft := int_wrap (center + Z.quot availableSize 2) in
      let topLeft := Z.min topLeft im in
      let topLeft := int_wrap (topLeft - availableSize) in
      let topLeft := Z.max topLeft 0 in
      (topLeft, 0%Z) in
  let dw := Z.min (int_wrap (availableSize - dest)) im in
  (topLeft, dest, dw).

(** * [Inspector]: the toolbar *)

(** ** The five display-mode buttons *)

Inductive ModeButton := jpg_ | rawlinear_ | rawfilm_ | rawshadow_ | rawclip_.

(** The enumerators of [rtengine::Settings] that the toolbar writes. *)
Inductive ThumbnailInspectorMode := JPEG | RAW.
Inductive ThumbnailInspectorRawCurve := LINEAR | FILM | SHADOW_BOOST | RAW_CLIPPING.

(** The state of the buttons ([get_active]), the two settings, and the
    number of times the panes were flushed and their image loaded again. *)
Record ModeState := {
  jpg_active : bool;
  rawlinear_active : bool;
  rawfilm_active : bool;
  rawshadow_active : bool;
  rawclip_active : bool;
  thumbnail_inspector_mode : ThumbnailInspectorMode;
  thumbnail_inspector_raw_curve : ThumbnailInspectorRawCurve;
  mode_reloads : nat
}.

Definition mode_get_active (st : ModeState) (b : ModeButton) : bool :=
  match b with
  | jpg_ => jpg_active st
  | rawlinear_ => rawlinear_active st
  | rawfilm_ => rawfilm_active st
  | rawshadow_ => rawshadow_active st
  | rawclip_ => rawclip_active st
  end.

(** [b->set_active(v)] while the handlers of the five buttons are
    blocked: only the state of the button changes. *)
Definition mode_set_active (st : ModeState) (b : ModeButton) (v : bool) : ModeState :=
  {| jpg_active := match b with jpg_ => v | _ => jpg_active st end;
     rawlinear_active := match b with rawlinear_ => v | _ => rawlinear_active st end;
     rawfilm_active := match b with rawfilm_ => v | _ => rawfilm_active st end;
     rawshadow_active := match b with rawshadow_ => v | _ => rawshadow_active st end;
     rawclip_active := match b with rawclip_ => v | _ => rawclip_active st end;
     thumbnail_inspector_mode := thumbnail_inspector_mode st;
     thumbnail_inspector_raw_curve := thumbnail_inspector_raw_curve st;
     mode_reloads := mode_reloads st |}.

Definition set_mode (st : ModeState) (m : ThumbnailInspectorMode)
    (c : option ThumbnailInspectorRawCurve) : ModeState :=
  {| jpg_active := jpg_active st; rawlinear_active := rawlinear_active st;
     rawfilm_active := rawfilm_active st; rawshadow_active := rawshadow_active st;
     rawclip_active := rawclip_active st;
     thumbnail_inspector_mode := m;
     thumbnail_inspector_raw_curve :=
       match c with Some c => c | None => thumbnail_inspector_raw_curve st end;
     mode_reloads := mode_reloads st |}.

(** [Inspector::mode_toggled(b)] *)
Definition mode_toggled (st : ModeState) (b : ModeButton) : ModeState :=
  if negb (mode_get_active st b) then mode_set_active st b true
  else
    let st := mode_set_active st jpg_ false in
    let st := mode_set_active st rawlinear_ false in
    let st := mode_set_active st rawfilm_ false in
    let st := mode_set_active st rawshadow_ false in
    let st := mode_set_active st rawclip_ false in
    let st := mode_set_active st b true in
    let st :=
      if jpg_active st then set_mode st JPEG None
      else if rawlinear_active st then set_mode st RAW (Some LINEAR)
      else if rawfilm_active st then set_mode st RAW (Some FILM)
      else if rawshadow_active st then set_mode st RAW (Some SHADOW_BOOST)
      else if rawclip_active st then set_mode st RAW (Some RAW_CLIPPING)
      else st in
    {| jpg_active := jpg_active st; rawlinear_active := rawlinear_active st;
       rawfilm_active := rawfilm_active st; rawshadow_active := rawshadow_active st;
       rawclip_active := rawclip_active st;
       thumbnail_inspector_mode := thumbnail_inspector_mode st;
       thumbnail_inspector_raw_curve := thumbnail_inspector_raw_curve st;
       mode_reloads := S (mode_reloads st) |}.

(** What reaches the handler.  A click on a button flips it and emits
    [toggled], which runs [mode_toggled] for that button;
    [setDisplayMode] (the keys j, r, f, s, w) calls [set_active(true)],
    which does nothing on a button that is active already and otherwise
    activates it and emits [toggled]. *)
Inductive ModeEvent :=
| ModeClick (b : ModeButton)
| SetDisplayMode (b : ModeButton).

Definition mode_event (st : ModeState) (ev : ModeEvent) : ModeState :=
  match ev with
  | ModeClick b => mode_toggled (mode_set_active st b (negb (mode_get_active st b))) b
  | SetDisplayMode b =>
      if mode_get_active st b then st
      else mode_toggled (mode_set_active st b true) b
  end.

Definition ModeButton_eqb (a b : ModeButton) : bool :=
  match a, b with
  | jpg_, jpg_ | rawlinear_, rawlinear_ | rawfilm_, rawfilm_
  | rawshadow_, rawshadow_ | rawclip_, rawclip_ => true
  | _, _ => false
  end.

(** The settings say mode [b]. *)
Definition settings_say (st : ModeState) (b : ModeButton) : Prop :=
  match b with
  | jpg_ => thumbnail_inspector_mode st = JPEG
  | rawlinear_ =>
      thumbnail_inspector_mode st = RAW /\ thumbnail_inspector_raw_curve st = LINEAR
  | rawfilm_ =>
      thumbnail_inspector_mode st = RAW /\ thumbnail_inspector_raw_curve st = FILM
  | rawshadow_ =>
      thumbnail_inspector_mode st = RAW /\ thumbnail_inspector_raw_curve st = SHADOW_BOOST
  | rawclip_ =>
      thumbnail_inspector_mode st = RAW /\ thumbnail_inspector_raw_curve st = RAW_CLIPPING
  end.

(** Button [b] and no other is active, and the settings say [b]. *)
Definition mode_is (st : ModeState) (b : ModeButton) : Prop :=
  (forall b', mode_get_active st b' = ModeButton_eqb b' b) /\ settings_say st b.

(** The button an event is about. *)
Definition mode_target (ev : ModeEvent) : ModeButton :=
  match ev with ModeClick b | SetDisplayMode b => b end.

(** ** The two zoom buttons and the temporary 1:1 view *)

Inductive ZoomButton := zoomfit_ | zoom11_.

Record ZoomState := {
  zoomfit_active : bool;
  zoom11_active : bool;
  zoom_fit_option : bool;        (* [options.thumbnail_inspector_zoom_fit] *)
  temp_zoom_11_ : bool;
  zoom_reloads : nat
}.

Definition zoom_get_active (st : ZoomState) (b : ZoomButton) : bool :=
  match b with zoomfit_ => zoomfit_active st | zoom11_ => zoom11_active st end.

Definition zoom_set_active (st : ZoomState) (b : ZoomButton) (v : bool) : ZoomState :=
  {| zoomfit_active := match b with zoomfit_ => v | _ => zoomfit_active st end;
     zoom11_active := match b with zoom11_ => v | _ => zoom11_active st end;
     zoom_fit_option := zoom_fit_option st;
     temp_zoom_11_ := temp_zoom_11_ st;
     zoom_reloads := zoom_reloads st |}.

(** [Inspector::do_toggle_zoom(b, pos)] *)
Definition do_toggle_zoom (st : ZoomState) (b : ZoomButton) : ZoomState :=
  if negb (zoom_get_active st b) then zoom_set_active st b true
  else
    let st := zoom_set_active st zoomfit_ false in
    let st := zoom_set_active st zoom11_ false in
    let st := zoom_set_active st b true in
    {| zoomfit_active := zoomfit_active st; zoom11_active := zoom11_active st;
       zoom_fit_option := zoomfit_active st;
       temp_zoom_11_ := temp_zoom_11_ st;
       zoom_reloads := S (zoom_reloads st) |}.

Definition set_temp_zoom (st : ZoomState) (v : bool) : ZoomState :=
  {| zoomfit_active := zoomfit_active st; zoom11_active := zoom11_active st;
     zoom_fit_option := zoom_fit_option st; temp_zoom_11_ := v;
     zoom_reloads := zoom_reloads st |}.

(** [Inspector::on_pressed]: the handler of [zoom11_] is blocked around
    [set_active], so only the explicit call of [do_toggle_zoom] runs. *)
Definition on_pressed (st : ZoomState) : ZoomState :=
  if zoom_fit_option st then
    let st := set_temp_zoom st true in
    let st := zoom_set_active st zoom11_ true in
    do_toggle_zoom st zoom11_
  else st.

(** [Inspector::on_released] *)
Definition on_released (st : ZoomState) : ZoomState :=
  if temp_zoom_11_ st then
    let st := set_temp_zoom st false in
    let st := zoom_set_active st zoomfit_ true in
    do_toggle_zoom st zoomfit_
  else st.

(** A click on a zoom button ([zoom_toggled]) and [setZoomFit] (the
    keys x and z). *)
Inductive ZoomEvent :=
| ZoomClick (b : ZoomButton)
| SetZoomFit (yes : bool)
| Pressed
| Released.

Definition zoom_event (st : ZoomState) (ev : ZoomEvent) : ZoomState :=
  match ev with
  | ZoomClick b => do_toggle_zoom (zoom_set_active st b (negb (zoom_get_active st b))) b
  | SetZoomFit yes =>
      let b := if yes then zoomfit_ else zoom11_ in
      if zoom_get_active st b then st
      else do_toggle_zoom (zoom_set_active st b true) b
  | Pressed => on_pressed st
  | Released => on_released st
  end.

(** Exactly one zoom button is active and the option says which. *)
Definition zoom_consistent (st : ZoomState) : Prop :=
  zoom11_active st = negb (zoomfit_active st) /\ zoom_fit_option st = zoomfit_active st.

(** ** The split view and the active pane *)

(** [active_], [num_active_], the state of the split button and the
    highlight of the two panes. *)
Record SplitState := {
  split_active : bool;
  active_ : N;
  num_active_ : N;
  highlight0 : bool;
  highlight1 : bool
}.

Definition setHighlight (st : SplitState) (i : N) (v : bool) : SplitState :=
  {| split_active := split_active st; active_ := active_ st;
     num_active_ := num_active_ st;
     highlight0 := if i =? 0 then v else highlight0 st;
     highlight1 := if i =? 1 then v else highlight1 st |}.

Definition set_active_ (st : SplitState) (i : N) : SplitState :=
  {| split_active := split_active st; active_ := i; num_active_ := num_active_ st;
     highlight0 := highlight0 st; highlight1 := highlight1 st |}.

(** The constructor [Inspector::Inspector]. *)
Definition new_Inspector : SplitState :=
  {| split_active := false; active_ := 0; num_active_ := 1;
     highlight0 := false; highlight1 := false |}.

(** [Inspector::split_toggled], with the button already in its new
    state. *)
Definition split_toggled (st : SplitState) : SplitState :=
  if split_active st then
    {| split_active := split_active st; active_ := 1; num_active_ := 2;
       highlight0 := false; highlight1 := true |}
  else
    {| split_active := split_active st; active_ := 0; num_active_ := 1;
       highlight0 := false; highlight1 := false |}.

(** [Inspector::onGrabFocus(evt, i)] *)
Definition onGrabFocus (st : SplitState) (button : Z) (i : N) : SplitState :=
  if (button =? 1)%Z then
    let st := setHighlight st (active_ st) false in
    let st := setHighlight st i true in
    set_active_ st i
  else st.

(** The [GDK_KEY_Tab] case of [handleShortcutKey]. *)
Definition key_Tab (st : SplitState) : SplitState :=
  if split_active st then
    let st := setHighlight st (active_ st) false in
    let st := set_active_ st (size_sub 1 (active_ st)) in
    setHighlight st (active_ st) true
  else st.

Inductive SplitEvent :=
| SplitClick                       (* a click on [split_], or the key y *)
| GrabFocus (button : Z) (i : N)   (* a button press on pane [i] *)
| KeyTab.

(** A press can only land on a pane that is shown: pane 1 is in the box
    only while the view is split. *)
Definition split_event (st : SplitState) (ev : SplitEvent) : option SplitState :=
  match ev with
  | SplitClick =>
      Some (split_toggled
              {| split_active := negb (split_active st); active_ := active_ st;
                 num_active_ := num_active_ st;
                 highlight0 := highlight0 st; highlight1 := highlight1 st |})
  | GrabFocus button i =>
      if i <? num_active_ st then Some (onGrabFocus st button i) else None
  | KeyTab => Some (key_Tab st)
  end.

Fixpoint split_run (evs : list SplitEvent) (st : SplitState) : option SplitState :=
  match evs with
  | [] => Some st
  | ev :: evs' =>
      match split_event st ev with
      | Some st' => split_run evs' st'
      | None => None
      end
  end.

Definition highlight_of (st : SplitState) (i : N) : bool :=
  if i =? 0 then highlight0 st else highlight1 st.

(** The active pane is one of the panes shown, the number of panes
    shown follows the split button, and the other pane is not
    highlighted. *)
Definition split_inv (st : SplitState) : Prop :=
  active_ st < num_active_ st
  /\ num_active_ st = (if split_active st then 2 else 1)
  /\ highlight_of st (1 - active_ st) = false.

(** * [FastMetadata]: from the cache, or from the file when needed *)

(** The two flags of [CacheImageData] that [FastMetadata] tests. *)
Record CacheImageData := {
  timeValid : bool;
  exifValid : bool
}.

(** A call of [getDateTime], or of one of the getters that go through
    [f()]. *)
Inductive MetaQuery := QueryDateTime | QueryExif.

(** Where an answer comes from: the metadata read from the file
    ([fd_]) or the cache data ([cd_]). *)
Inductive MetaSource := FromFile | FromCache.

(** One call on a [FastMetadata] whose [fd_] is set or not ([loaded]):
    the source of the answer, whether [fd_] is set afterwards, and
    whether [FramesMetaData::fromFile] was called. *)
Definition meta_query (cd : CacheImageData) (loaded : bool) (q : MetaQuery)
    : MetaSource * bool * bool :=
  if loaded then (FromFile, true, false)
  else
    match q with
    | QueryDateTime =>
        if timeValid cd then (FromCache, false, false) else (FromFile, true, true)
    | QueryExif =>
        if negb (exifValid cd) then (FromFile, true, true) else (FromCache, false, false)
    end.

(** A series of calls on one object: the sources of the answers and the
    number of calls of [fromFile]. *)
Fixpoint meta_queries (cd : CacheImageData) (loaded : bool) (qs : list MetaQuery)
    : list MetaSource * nat :=
  match qs with
  | [] => ([], O)
  | q :: qs' =>
      let '(src, loaded', called) := meta_query cd loaded q in
      let '(srcs, n) := meta_queries cd loaded' qs' in
      (src :: srcs, if called then S n else n)
  end.

(** The cache data can answer the call. *)
Definition cache_answers (cd : CacheImageData) (q : MetaQuery) : bool :=
  match q with
  | QueryDateTime => timeValid cd
  | QueryExif => exifValid cd
  end.

(** The calls before the first one that the cache data cannot answer. *)
Fixpoint cached_prefix (cd : CacheImageData) (qs : list MetaQuery) : nat :=
  match qs with
  | q :: qs' => if cache_answers cd q then S (cached_prefix cd qs') else O
  | [] => O
  end.

(** * [InspectorArea::switchImage]: the delay *)

(** [active_], [next_image_path_], whether [delayconn_] is connected,
    and the paths that [doSwitchImage] has shown so far (the empty path
    clears the pane). *)
Record AreaState := {
  area_active : bool;
  next_image_path_ : ustring;
  delayconn_connected : bool;
  shown : list ustring
}.

(** [InspectorArea::doSwitchImage], as far as the path it takes goes. *)
Definition area_doSwitchImage (st : AreaState) : AreaState * bool :=
  ({| area_active := area_active st; next_image_path_ := next_image_path_ st;
      delayconn_connected := delayconn_connected st;
      shown := shown st ++ [next_image_path_ st] |}, true).

(** [InspectorArea::switchImage]; [inspectorDelay] is the option. *)
Definition area_switchImage (inspectorDelay : Z) (st : AreaState) (fullPath : ustring)
    : AreaState :=
  if negb (area_active st) then st
  else
    let st := {| area_active := area_active st; next_image_path_ := fullPath;
                 delayconn_connected := false; shown := shown st |} in
    if (inspectorDelay =? 0)%Z then fst (area_doSwitchImage st)
    else {| area_active := area_active st; next_image_path_ := next_image_path_ st;
            delayconn_connected := true; shown := shown st |}.

(** The timeout of [delayconn_] comes due: a connected handler runs, and
    stays connected when it returns [true]. *)
Definition area_timeout (st : AreaState) : AreaState :=
  if delayconn_connected st then
    let '(st, again) := area_doSwitchImage st in
    {| area_active := area_active st; next_image_path_ := next_image_path_ st;
       delayconn_connected := again; shown := shown st |}
  else st.

Inductive AreaEvent :=
| SwitchImage (fullPath : ustring)
| Timeout.

Definition area_event (inspectorDelay : Z) (st : AreaState) (ev : AreaEvent) : AreaState :=
  match ev with
  | SwitchImage fullPath => area_switchImage inspectorDelay st fullPath
  | Timeout => area_timeout st
  end.

(** * Texts that the scanner of [parse_pattern] runs through *)

(** The [for] loop of [parse_pattern] reaches the end of [pre] without
    hitting a [return false]: every directive in [pre] is known and
    complete. *)
Definition scans (pre : ustring) : Prop :=
  exists r, parse_loop (S (length pre)) pre 0 0 [] = Some r.

(** The value a computed element looks up: the result of its function,
    or for a tag element the value of its key, when the key has one of the
    three known prefixes and is present. *)
Definition tag_value (fd : FramesMetaData) (tag : ustring) : option ustring :=
  if starts_with (u "Exif.") tag || starts_with (u "Iptc.") tag
     || starts_with (u "Xmp.") tag
  then exiv2_findKey fd tag else None.
(** * Properties *)

(** ** Basic facts *)

Lemma ueqb_eq (a b : ustring) : ueqb a b = true <-> a = b.
Proof.
  unfold ueqb. destruct (list_eq_dec N.eq_dec a b); split; congruence.
Qed.

Lemma ueqb_neq (a b : ustring) : ueqb a b = false <-> a <> b.
Proof.
  unfold ueqb. destruct (list_eq_dec N.eq_dec a b); split; congruence.
Qed.

Lemma ueqb_refl (a : ustring) : ueqb a a = true.
Proof. now apply ueqb_eq. Qed.

Example basename_ex :
  map path_get_basename [u "/a/img.cr2"; u "img.cr2"; u "a/b//"; u "//"; u ""]
  = [u "img.cr2"; u "img.cr2"; u "b"; u "/"; u "."].
Proof. vm_compute. reflexivity. Qed.

Example dirname_ex :
  map path_get_dirname [u "/a/img.cr2"; u "img.cr2"; u "a//b"; u "/a"; u "//a"; u "a/"]
  = [u "/a"; u "."; u "a"; u "/"; u "/"; u "a"].
Proof. vm_compute. reflexivity. Qed.

Example build_filename_ex :
  [build_filename (u "out") (u "img.cr2"); build_filename (u "/photos") (u "/out/img_1.cr2");
   build_filename (u ".") (u "out/img.cr2"); build_filename (u "/") (u "x");
   build_filename (u "a/") (u "/"); build_filename (u "//") (u "//")]
  = [u "out/img.cr2"; u "/photos/out/img_1.cr2"; u "./out/img.cr2"; u "/x"; u "a/"; u "////"].
Proof. vm_compute. reflexivity. Qed.

Example extension_ex :
  map (fun f => (removeExtension f, getExtension f))
      [u "img.cr2"; u "/a.b/img"; u "a.tar.gz"; u "my file.x y"; u "x y.jpg"; u ""; u "img."]
  = [(u "img", u "cr2"); (u "/a.b/img", u ""); (u "a.tar", u "gz");
     (u "my file.x y", u ""); (u "x y", u "jpg"); (u "", u ""); (u "img", u "")].
Proof. vm_compute. reflexivity. Qed.

Example parse_pattern_ex :
  parse_pattern (u "a/%f_%n3.%e%T[Exif.Image.Make]-%%")
  = Some [FixedPattern (u "a/"); FramesDataPattern FileName; FixedPattern (u "_");
          ProgressivePattern 3; FixedPattern (u "."); FramesDataPattern FileExt;
          TagPattern (u "Exif.Image.Make"); FixedPattern (u "-");
          FramesDataPattern Percent].
Proof. vm_compute. reflexivity. Qed.

Example parse_pattern_fail_ex :
  map parse_pattern [u "%z"; u "abc%"; u "%T[Exif.Foo"; u "/abs/%f"; u ""; u "%Tx"]
  = [None; None; None; None; None; None].
Proof. vm_compute. reflexivity. Qed.

Example parse_sidecars_ex :
  map parse_sidecars [u "xmp;+thumb"; u " xmp ; ; +thumb ;"; u ""; u "   "; u "a b"]
  = [(true, [u "xmp"; u "+thumb"]); (true, [u "xmp"; u "+thumb"]); (true, []);
     (true, []); (true, [u "a b"])].
Proof. vm_compute. reflexivity. Qed.

Lemma takeN_firstn (len : N) (s : ustring) : takeN len s = firstn (N.to_nat len) s.
Proof.
  revert len. induction s as [|c s IH]; intros len; simpl.
  - now rewrite firstn_nil.
  - destruct (N.eqb_spec len 0) as [->|Hne]; [reflexivity|].
    replace (N.to_nat len) with (S (N.to_nat (len - 1))) by lia.
    simpl. now rewrite IH.
Qed.

Lemma dropN_skipn (pos : N) (s : ustring) : dropN pos s = skipn (N.to_nat pos) s.
Proof.
  revert pos. induction s as [|c s IH]; intros pos; simpl.
  - now rewrite skipn_nil.
  - destruct (N.eqb_spec pos 0) as [->|Hne]; [reflexivity|].
    replace (N.to_nat pos) with (S (N.to_nat (pos - 1))) by lia.
    simpl. now rewrite IH.
Qed.

Lemma at_nth (s : ustring) (i : N) : at_ s i = nth (N.to_nat i) s 0.
Proof.
  unfold at_. rewrite dropN_skipn.
  revert s. induction (N.to_nat i) as [|k IH]; intros [|c s]; simpl; auto.
Qed.

Lemma at_terminator (s : ustring) (i : N) : ulen s <= i -> at_ s i = 0.
Proof.
  intros H. rewrite at_nth. apply nth_overflow. unfold ulen in H. lia.
Qed.

Lemma substr_firstn_skipn (s : ustring) (pos len : N) :
  len <> npos ->
  substr s pos len = firstn (N.to_nat len) (skipn (N.to_nat pos) s).
Proof.
  intros H. unfold substr. destruct (N.eqb_spec len npos); [contradiction|].
  now rewrite takeN_firstn, dropN_skipn.
Qed.

Lemma substr_from_skipn (s : ustring) (pos : N) :
  substr_from s pos = skipn (N.to_nat pos) s.
Proof. unfold substr_from, substr. rewrite N.eqb_refl. apply dropN_skipn. Qed.

(** ** Separators in an evaluated name *)

Lemma sep_count_app (a b : ustring) : sep_count (a ++ b) = (sep_count a + sep_count b)%nat.
Proof. unfold sep_count. now rewrite filter_app, length_app. Qed.

Lemma sep_count_skipn (k : nat) (s : ustring) : (sep_count (skipn k s) <= sep_count s)%nat.
Proof.
  rewrite <- (firstn_skipn k s) at 2. rewrite sep_count_app. lia.
Qed.

Lemma sep_count_firstn (k : nat) (s : ustring) : (sep_count (firstn k s) <= sep_count s)%nat.
Proof.
  rewrite <- (firstn_skipn k s) at 2. rewrite sep_count_app. lia.
Qed.

Lemma sep_count_split (a b : nat) (s : ustring) :
  (a <= b)%nat -> (sep_count (firstn a s) + sep_count (skipn b s) <= sep_count s)%nat.
Proof.
  intros Hab. rewrite <- (firstn_skipn a s) at 3. rewrite sep_count_app.
  replace b with ((b - a) + a)%nat by lia. rewrite <- skipn_skipn.
  pose proof (sep_count_skipn (b - a) (skipn a s)). lia.
Qed.

Lemma make_valid_map (win32 : bool) (s : ustring) (allow_sep : bool) :
  make_valid win32 s allow_sep = map (substitute win32 allow_sep) s.
Proof.
  induction s as [|c s IH]; simpl; [reflexivity|].
  rewrite IH. unfold substitute. now destruct (is_valid_char win32 c allow_sep).
Qed.

Lemma separator_invalid (win32 : bool) (c : gunichar) :
  G_IS_DIR_SEPARATOR win32 c = true -> is_valid_char win32 c false = false.
Proof. unfold is_valid_char. now intros ->. Qed.

Lemma substitute_not_separator (win32 : bool) (c : gunichar) :
  G_IS_DIR_SEPARATOR win32 (substitute win32 false c) = false.
Proof.
  unfold substitute.
  destruct (is_valid_char win32 c false) eqn:Hv.
  - destruct (G_IS_DIR_SEPARATOR win32 c) eqn:Hs; [|reflexivity].
    apply separator_invalid in Hs. congruence.
  - destruct (c =? 47), win32; reflexivity.
Qed.

Lemma make_valid_sep_count (s : ustring) : sep_count (make_valid posix s false) = 0%nat.
Proof.
  rewrite make_valid_map. unfold sep_count.
  induction s as [|c s IH]; simpl; [reflexivity|].
  pose proof (substitute_not_separator posix c) as H.
  unfold G_IS_DIR_SEPARATOR, posix in H. unfold is_sep, DIR_SEPARATOR.
  unfold posix. now rewrite H.
Qed.

Lemma make_valid_keep (s : ustring) : make_valid posix s true = s.
Proof.
  induction s as [|c s IH]; simpl; [reflexivity|]. rewrite IH. f_equal.
  unfold is_valid_char, G_IS_DIR_SEPARATOR, posix.
  destruct (c =? 47) eqn:E; simpl; [reflexivity|]. reflexivity.
Qed.

Lemma sep_count_zero (s : ustring) :
  Forall (fun c => is_sep c = false) s -> sep_count s = 0%nat.
Proof.
  unfold sep_count. induction 1 as [|c s Hc _ IH]; simpl; [reflexivity|].
  now rewrite Hc.
Qed.

Lemma digits_aux_no_sep (fuel : nat) (n : N) (acc : ustring) :
  Forall (fun c => is_sep c = false) acc ->
  Forall (fun c => is_sep c = false) (digits_aux fuel n acc).
Proof.
  revert n acc. induction fuel as [|fuel IH]; intros n acc Hacc; simpl; [assumption|].
  assert (Hd : is_sep (48 + n mod 10) = false).
  { unfold is_sep, DIR_SEPARATOR. apply N.eqb_neq. generalize (n mod 10). intros m. lia. }
  destruct (n / 10 =? 0); [now constructor|].
  apply IH. now constructor.
Qed.

Lemma to_string_sep_count (z : Z) : sep_count (to_string z) = 0%nat.
Proof.
  apply sep_count_zero. unfold to_string, digits.
  destruct (z <? 0)%Z; [constructor; [reflexivity|]|]; now apply digits_aux_no_sep.
Qed.

Lemma zeros_sep_count (k : N) : sep_count (zeros k) = 0%nat.
Proof.
  apply sep_count_zero. unfold zeros. apply Forall_forall.
  intros c Hc. apply repeat_spec in Hc. now subst c.
Qed.

(** Each element renders its literal text and nothing else that holds a
    separator. *)
Lemma render_sep_count (p : Pattern) (fd : FramesMetaData) (idx : Z) :
  sep_count (fst (render p fd idx)) = sep_count (literal_of p).
Proof.
  destruct p as [s_|pad_|func_|tag_]; simpl.
  - reflexivity.
  - destruct (ulen (to_string idx) <? pad_); simpl;
      [rewrite sep_count_app, zeros_sep_count|]; now rewrite to_string_sep_count.
  - apply make_valid_sep_count.
  - destruct (_ || _); [|reflexivity].
    destruct (exiv2_findKey fd tag_); [apply make_valid_sep_count|reflexivity].
Qed.

Lemma render_all_acc (ps : list Pattern) (fd : FramesMetaData) (acc : ustring) (idx : Z) :
  fold_left (render_step fd) ps (acc, idx)
  = (acc ++ fst (render_all ps fd idx), snd (render_all ps fd idx)).
Proof.
  unfold render_all. revert acc idx.
  induction ps as [|p ps IH]; intros acc idx; cbn [fold_left].
  - now rewrite app_nil_r.
  - unfold render_step at 2 4 6. cbn [fst snd].
    destruct (render p fd idx) as [s idx1] eqn:Hr.
    rewrite (IH (acc ++ s) idx1), (IH ([] ++ s) idx1). cbn [fst snd app].
    now rewrite app_assoc.
Qed.

Lemma render_all_nil (fd : FramesMetaData) (idx : Z) : render_all [] fd idx = ([], idx).
Proof. reflexivity. Qed.

Lemma render_all_cons (p : Pattern) (ps : list Pattern) (fd : FramesMetaData) (idx : Z) :
  render_all (p :: ps) fd idx
  = (fst (render p fd idx) ++ fst (render_all ps fd (snd (render p fd idx))),
     snd (render_all ps fd (snd (render p fd idx)))).
Proof.
  unfold render_all at 1. cbn [fold_left]. unfold render_step at 2. cbn [fst snd].
  destruct (render p fd idx) as [s idx1]. cbn [app fst snd].
  now rewrite render_all_acc.
Qed.

Lemma render_all_sep_count (ps : list Pattern) (fd : FramesMetaData) (idx : Z) :
  sep_count (fst (render_all ps fd idx)) = sep_count (literal_text ps).
Proof.
  revert idx. induction ps as [|p ps IH]; intros idx; [reflexivity|].
  rewrite render_all_cons. simpl.
  now rewrite !sep_count_app, render_sep_count, IH.
Qed.

Ltac case_N :=
  repeat match goal with
    | |- context [?a =? ?b] => destruct (N.eqb_spec a b)
    | |- context [?a <=? ?b] => destruct (N.leb_spec a b)
    | |- context [?a <? ?b] => destruct (N.ltb_spec a b)
    end.

Lemma norm_char_sep (allow_ws : bool) (norm : Normalization) (c : gunichar) :
  is_sep (norm_char allow_ws norm c) = is_sep c.
Proof.
  unfold norm_char, toupper, tolower, isspace, is_sep, DIR_SEPARATOR, UNDERSCORE.
  destruct (c =? 47) eqn:E0, (c =? 32) eqn:E1, (9 <=? c) eqn:E2, (c <=? 13) eqn:E3;
    destruct allow_ws, norm; cbn [negb andb orb];
    rewrite ?N.eqb_eq, ?N.eqb_neq, ?N.leb_le, ?N.leb_gt in *; try lia;
    case_N; cbn [negb andb orb]; case_N; try reflexivity; lia.
Qed.

Lemma map_norm_char_sep_count (allow_ws : bool) (norm : Normalization) (s : ustring) :
  sep_count (map (norm_char allow_ws norm) s) = sep_count s.
Proof.
  unfold sep_count. induction s as [|c s IH]; simpl; [reflexivity|].
  rewrite norm_char_sep. destruct (is_sep c); simpl; now rewrite IH.
Qed.

(** ** Where the extension is cut *)

Lemma size_sub_exact (a b : N) : b <= a -> a < size_modulus -> size_sub a b = a - b.
Proof.
  intros Hba Ha. unfold size_sub.
  rewrite (N.mod_small b) by lia.
  replace (a + size_modulus - b) with (a - b + 1 * size_modulus) by lia.
  rewrite N.Div0.mod_add. apply N.mod_small. lia.
Qed.

Lemma size_add_exact (a b : N) : a + b < size_modulus -> size_add a b = a + b.
Proof. intros H. unfold size_add. now apply N.mod_small. Qed.

Lemma lstrip_sep_length (s : ustring) : (length (lstrip_sep s) <= length s)%nat.
Proof.
  induction s as [|c s IH]; simpl; [lia|]. destruct (is_sep c); simpl; lia.
Qed.

Lemma rstrip_sep_length (s : ustring) : (length (rstrip_sep s) <= length s)%nat.
Proof.
  unfold rstrip_sep. rewrite length_rev.
  pose proof (lstrip_sep_length (rev s)) as H. now rewrite length_rev in H.
Qed.

Lemma upto_sep_length (s : ustring) : (length (upto_sep s) <= length s)%nat.
Proof.
  induction s as [|c s IH]; simpl; [lia|]. destruct (is_sep c); simpl; lia.
Qed.

Lemma basename_length (s : ustring) :
  s <> [] -> (length (path_get_basename s) <= length s)%nat.
Proof.
  intros Hs. unfold path_get_basename.
  destruct s as [|c s]; [congruence|].
  pose proof (rstrip_sep_length (c :: s)) as Hr.
  destruct (rstrip_sep (c :: s)) as [|d t] eqn:Ht; [simpl; lia|].
  rewrite length_rev.
  pose proof (upto_sep_length (rev (d :: t))) as Hu.
  rewrite length_rev in Hu. lia.
Qed.

Lemma find_last_of_from_bound (p : gunichar -> bool) (s : ustring) (i found : N) :
  find_last_of_from p s i found = found \/
  (i <= find_last_of_from p s i found < i + ulen s).
Proof.
  revert i found. induction s as [|c s IH]; intros i found; simpl; [now left|].
  unfold ulen in *. simpl length.
  destruct (IH (i + 1) (if p c then i else found)) as [H|H].
  - rewrite H. destruct (p c); [right; lia|now left].
  - right. lia.
Qed.

Lemma find_last_of_bound (p : gunichar -> bool) (s : ustring) :
  find_last_of p s = npos \/ find_last_of p s < ulen s.
Proof.
  unfold find_last_of. destruct (find_last_of_from_bound p s 0 npos) as [H|H];
    [now left|right; lia].
Qed.

(** The position of the cut: when the base name has an extension, this
    many characters of the name are kept and the next one is dropped. *)
Lemma extension_cut (name : ustring) :
  fits name -> name <> [] -> has_extension (path_get_basename name) = true ->
  let bname := path_get_basename name in
  let k := ulen name - (ulen bname - find_last_of is_dot bname) in
  k < ulen name /\
  removeExtension name = firstn (N.to_nat k) name /\
  getExtension name = skipn (S (N.to_nat k)) name.
Proof.
  intros Hfit Hne Hext. cbv zeta.
  set (bname := path_get_basename name) in *.
  set (k := ulen name - (ulen bname - find_last_of is_dot bname)).
  assert (Hb : ulen bname <= ulen name).
  { pose proof (basename_length name Hne). unfold ulen, bname. lia. }
  assert (Hdot : find_last_of is_dot bname < ulen bname).
  { unfold has_extension in Hext.
    destruct (find_last_of_bound is_dot bname) as [H|H]; [|assumption].
    rewrite H, N.eqb_refl in Hext. discriminate. }
  unfold fits in Hfit.
  assert (Hinner : size_sub (ulen bname) (find_last_of is_dot bname)
                   = ulen bname - find_last_of is_dot bname)
    by (apply size_sub_exact; lia).
  assert (Hk : size_sub (ulen name) (ulen bname - find_last_of is_dot bname) = k)
    by (apply size_sub_exact; lia).
  split; [unfold k; lia|].
  unfold removeExtension, getExtension. fold bname. rewrite Hext, Hinner, Hk.
  split.
  - rewrite substr_firstn_skipn; [reflexivity|].
    unfold npos. unfold k. lia.
  - rewrite size_add_exact by (unfold k; lia).
    fold (substr_from name (k + 1)). rewrite substr_from_skipn.
    now replace (N.to_nat (k + 1)) with (S (N.to_nat k)) by lia.
Qed.

Lemma split_ext_sep_count (name : ustring) :
  fits name ->
  (sep_count (fst (split_ext name)) + sep_count (snd (split_ext name))
   <= sep_count name)%nat.
Proof.
  intros Hfit. unfold split_ext.
  destruct (getExtension name) as [|e ext] eqn:Hext; cbn [empty negb fst snd];
    [unfold sep_count; simpl; lia|].
  assert (Hne : name <> []) by (intros ->; discriminate).
  assert (Hhas : has_extension (path_get_basename name) = true).
  { unfold getExtension in Hext. destruct (has_extension _); [reflexivity|discriminate]. }
  destruct (extension_cut name Hfit Hne Hhas) as (_ & Hrem & Hget).
  rewrite Hrem, <- Hext, Hget.
  change (sep_count (ch "." :: ?x)) with (sep_count x).
  apply sep_count_split. lia.
Qed.

Lemma normalized_name_sep_count (params : Params) (name : ustring) :
  fits name -> (sep_count (normalized_name params name) <= sep_count name)%nat.
Proof.
  intros Hfit. unfold normalized_name.
  pose proof (split_ext_sep_count name Hfit) as H.
  destruct (split_ext name) as [stem ext]. simpl in H.
  now rewrite sep_count_app, !map_norm_char_sep_count.
Qed.


Example make_valid_model_ex :
  fst (render (FramesDataPattern Model) (sample_fd (u "img.cr2")) 1)
  = u "EOS" ++ [8725] ++ u "5D".
Proof. vm_compute. reflexivity. Qed.

Example make_valid_win32_ex :
  make_valid true [ch "a"; ch "/"; ch "b"; 92; ch "c"; ch "<"; ch "d"] false
  = [ch "a"; 8725; ch "b"; ch "_"; ch "c"; ch "_"; ch "d"].
Proof. vm_compute. reflexivity. Qed.

(** ** Patterns that do not compile *)

Lemma ulen_app (a b : ustring) : ulen (a ++ b) = ulen a + ulen b.
Proof. unfold ulen. rewrite length_app. lia. Qed.

Lemma at_app_l (pre rest : ustring) (i : N) :
  i < ulen pre -> at_ (pre ++ rest) i = at_ pre i.
Proof.
  intros H. rewrite !at_nth. apply app_nth1. unfold ulen in H. lia.
Qed.

Lemma at_app_r (pre rest : ustring) (j : N) :
  at_ (pre ++ rest) (ulen pre + j) = at_ rest j.
Proof.
  rewrite !at_nth. unfold ulen.
  replace (N.to_nat (N.of_nat (length pre) + j)) with (length pre + N.to_nat j)%nat by lia.
  apply app_nth2_plus.
Qed.

Lemma at_in (s : ustring) (i : N) : i < ulen s -> In (at_ s i) s.
Proof.
  intros H. rewrite at_nth. apply nth_In. unfold ulen in H. lia.
Qed.

Lemma is_valid_char_posix_sep (c : gunichar) : is_valid_char posix c true = true.
Proof.
  unfold is_valid_char, G_IS_DIR_SEPARATOR, posix.
  destruct (c =? 47); reflexivity.
Qed.

Lemma parse_loop_S (fuel : nat) (s : ustring) (prev i : N) (out : list Pattern) :
  parse_loop (S fuel) s prev i out =
  if i <? ulen s then
    if is_ch (at_ s i) "%" then
      if i + 1 <? ulen s then
        match parse_directive s (ulen s) (i + 2) (at_ s (i + 2 - 1))
                (if negb (prev =? i)
                 then out ++ [new_FixedPattern (substr s prev (i - prev))] else out) with
        | Some (i', out') => parse_loop fuel s i' i' out'
        | None => None
        end
      else None
    else if negb (is_valid_char posix (at_ s i) true) then None
    else parse_loop fuel s prev (i + 1) out
  else Some (prev, out).
Proof. reflexivity. Qed.

(** Over a literal run the scanner only moves forward. *)
Lemma parse_loop_literal (pre rest : ustring) :
  ~ In (ch "%") pre ->
  forall (k fuel : nat) (i prev : N) (out : list Pattern),
    (N.to_nat i + k = length pre)%nat -> rest <> [] ->
    parse_loop (k + fuel) (pre ++ rest) prev i out
    = parse_loop fuel (pre ++ rest) prev (ulen pre) out.
Proof.
  intros Hpre. induction k as [|k IH]; intros fuel i prev out Hi Hrest.
  - simpl. f_equal. unfold ulen. lia.
  - change (S k + fuel)%nat with (S (k + fuel)). rewrite parse_loop_S.
    assert (Hlt : i < ulen pre) by (unfold ulen; lia).
    assert (Hn : (i <? ulen (pre ++ rest)) = true)
      by (apply N.ltb_lt; rewrite ulen_app; lia).
    rewrite Hn, at_app_l by assumption.
    assert (Hc : is_ch (at_ pre i) "%" = false).
    { unfold is_ch. apply N.eqb_neq. intros E. apply Hpre.
      rewrite <- E. now apply at_in. }
    rewrite Hc, is_valid_char_posix_sep. cbn [negb].
    apply IH; [lia|assumption].
Qed.

Lemma parse_pattern_literal_prefix (pre rest : ustring) :
  ~ In (ch "%") pre -> rest <> [] ->
  parse_loop (S (length (pre ++ rest))) (pre ++ rest) 0 0 []
  = parse_loop (S (length rest)) (pre ++ rest) 0 (ulen pre) [].
Proof.
  intros Hpre Hrest.
  replace (S (length (pre ++ rest))) with (length pre + S (length rest))%nat
    by (rewrite length_app; lia).
  apply parse_loop_literal; [assumption|simpl; lia|assumption].
Qed.

Lemma at_sigil (pre rest : ustring) (c : gunichar) :
  at_ (pre ++ c :: rest) (ulen pre) = c.
Proof.
  replace (ulen pre) with (ulen pre + 0) by lia. now rewrite at_app_r.
Qed.

Lemma at_after_sigil (pre rest : ustring) (c d : gunichar) :
  at_ (pre ++ c :: d :: rest) (ulen pre + 2 - 1) = d.
Proof.
  replace (ulen pre + 2 - 1) with (ulen pre + 1) by lia. now rewrite at_app_r.
Qed.

Lemma unknown_directive_fails (pre post : ustring) (c : gunichar) :
  ~ In (ch "%") pre -> is_directive c = false ->
  parse_pattern (pre ++ ch "%" :: c :: post) = None.
Proof.
  intros Hpre Hc. unfold parse_pattern.
  rewrite parse_pattern_literal_prefix by (assumption || discriminate).
  rewrite parse_loop_S.
  assert (Hn : ulen (pre ++ ch "%" :: c :: post) = ulen pre + 2 + ulen post).
  { rewrite ulen_app. unfold ulen. simpl length. lia. }
  rewrite Hn, at_sigil, at_after_sigil.
  replace (ulen pre <? ulen pre + 2 + ulen post) with true by (symmetry; apply N.ltb_lt; lia).
  replace (ulen pre + 1 <? ulen pre + 2 + ulen post) with true
    by (symmetry; apply N.ltb_lt; lia).
  change (is_ch (ch "%") "%") with true. cbv iota.
  unfold is_directive in Hc. unfold parse_directive.
  destruct (frames_directive c); [discriminate|].
  apply orb_false_iff in Hc. destruct Hc as [-> ->]. reflexivity.
Qed.

Lemma trailing_sigil_fails (pre : ustring) :
  ~ In (ch "%") pre -> parse_pattern (pre ++ [ch "%"]) = None.
Proof.
  intros Hpre. unfold parse_pattern.
  rewrite parse_pattern_literal_prefix by (assumption || discriminate).
  rewrite parse_loop_S.
  assert (Hn : ulen (pre ++ [ch "%"]) = ulen pre + 1).
  { rewrite ulen_app. reflexivity. }
  rewrite Hn, at_sigil.
  replace (ulen pre <? ulen pre + 1) with true by (symmetry; apply N.ltb_lt; lia).
  rewrite N.ltb_irrefl. reflexivity.
Qed.

Lemma scan_bracket_none (rest : ustring) (j : N) :
  ~ In (ch "]") rest -> scan_bracket rest j = j + ulen rest.
Proof.
  revert j. induction rest as [|c rest IH]; intros j Hno; simpl.
  - unfold ulen. simpl. lia.
  - assert (Hc : is_ch c "]" = false).
    { unfold is_ch. apply N.eqb_neq. intros E. apply Hno. left. now symmetry. }
    rewrite Hc, IH by (intros Hin; apply Hno; now right).
    unfold ulen. simpl length. lia.
Qed.

Lemma dropN_app (pre rest : ustring) : dropN (ulen pre) (pre ++ rest) = rest.
Proof.
  rewrite dropN_skipn. unfold ulen. rewrite Nat2N.id.
  rewrite skipn_app, skipn_all, Nat.sub_diag. reflexivity.
Qed.

Lemma unterminated_tag_fails (pre key : ustring) :
  ~ In (ch "%") pre -> ~ In (ch "]") key ->
  parse_pattern (pre ++ u "%T[" ++ key) = None.
Proof.
  intros Hpre Hkey. unfold parse_pattern.
  rewrite parse_pattern_literal_prefix by (assumption || discriminate).
  rewrite parse_loop_S.
  change (u "%T[" ++ key) with (ch "%" :: ch "T" :: ch "[" :: key).
  assert (Hn : ulen (pre ++ ch "%" :: ch "T" :: ch "[" :: key) = ulen pre + 3 + ulen key).
  { rewrite ulen_app. unfold ulen. simpl length. lia. }
  rewrite Hn, at_sigil, at_after_sigil.
  replace (ulen pre <? ulen pre + 3 + ulen key) with true by (symmetry; apply N.ltb_lt; lia).
  replace (ulen pre + 1 <? ulen pre + 3 + ulen key) with true
    by (symmetry; apply N.ltb_lt; lia).
  change (is_ch (ch "%") "%") with true. cbv iota.
  unfold parse_directive.
  change (is_ch (ch "T") "n") with false. change (is_ch (ch "T") "T") with true. cbv iota.
  replace (ulen pre + 2 <? ulen pre + 3 + ulen key) with true
    by (symmetry; apply N.ltb_lt; lia).
  assert (Hat : at_ (pre ++ ch "%" :: ch "T" :: ch "[" :: key) (ulen pre + 2) = ch "[")
    by now rewrite at_app_r.
  rewrite Hat. change (is_ch (ch "[") "[") with true. cbn [andb].
  assert (Hdrop : dropN (ulen pre + 2 + 1) (pre ++ ch "%" :: ch "T" :: ch "[" :: key) = key).
  { replace (pre ++ ch "%" :: ch "T" :: ch "[" :: key)
      with ((pre ++ [ch "%"; ch "T"; ch "["]) ++ key) by now rewrite <- app_assoc.
    replace (ulen pre + 2 + 1) with (ulen (pre ++ [ch "%"; ch "T"; ch "["]))
      by (rewrite ulen_app; unfold ulen; simpl length; lia).
    apply dropN_app. }
  rewrite Hdrop, scan_bracket_none by assumption.
  replace (ulen pre + 2 + 1 + ulen key <? ulen pre + 3 + ulen key) with false
    by (symmetry; apply N.ltb_ge; lia).
  reflexivity.
Qed.

Lemma head_absolute_app (out tl : list Pattern) :
  head_absolute out = true -> head_absolute (out ++ tl) = true.
Proof. destruct out as [|[s_| | |] out]; simpl; congruence. Qed.

Lemma parse_directive_appends (s : ustring) (n i : N) (c : gunichar)
    (out : list Pattern) (i' : N) (out' : list Pattern) :
  parse_directive s n i c out = Some (i', out') -> exists p, out' = out ++ [p].
Proof.
  unfold parse_directive. intros H.
  destruct (is_ch c "n").
  - destruct (_ && _); injection H as _ <-; eauto.
  - destruct (is_ch c "T").
    + destruct (_ && _); [|discriminate].
      destruct (_ <? n); [|discriminate]. injection H as _ <-; eauto.
    + destruct (frames_directive c); [|discriminate]. injection H as _ <-; eauto.
Qed.

Lemma substr_absolute (rest : ustring) (len : N) :
  1 <= len ->
  g_path_is_absolute (make_valid posix (substr (DIR_SEPARATOR :: rest) 0 len) true) = true.
Proof.
  intros H. rewrite make_valid_keep. unfold substr.
  destruct (len =? npos); simpl; [reflexivity|].
  destruct (N.eqb_spec len 0); [lia|reflexivity].
Qed.

(** Once the text starts with a separator, the first element the scanner
    emits is an absolute literal, and it stays first. *)
Lemma parse_loop_absolute (rest : ustring) (fuel : nat) :
  forall (prev i : N) (out : list Pattern) (prev' : N) (out' : list Pattern),
    (out = [] /\ prev = 0 /\ 1 <= i) \/ head_absolute out = true ->
    parse_loop fuel (DIR_SEPARATOR :: rest) prev i out = Some (prev', out') ->
    (out' = [] /\ prev' = 0) \/ head_absolute out' = true.
Proof.
  induction fuel as [|fuel IH]; intros prev i out prev' out' Hinv H.
  - simpl in H. injection H as <- <-. destruct Hinv as [(-> & -> & _)|Hh]; auto.
  - rewrite parse_loop_S in H.
    destruct (i <? _).
    2:{ injection H as <- <-. destruct Hinv as [(-> & -> & _)|Hh]; auto. }
    destruct (is_ch _ "%").
    + destruct (i + 1 <? _); [|discriminate].
      match type of H with
      | match parse_directive ?s ?n ?j ?c ?o with _ => _ end = _ =>
          assert (Ho : head_absolute o = true);
          [|destruct (parse_directive s n j c o) as [[i2 out2]|] eqn:Hd; [|discriminate]]
      end.
      * destruct Hinv as [(-> & -> & Hi)|Hh].
        -- destruct (N.eqb_spec 0 i); [lia|]. cbn [negb app head_absolute new_FixedPattern].
           apply substr_absolute. lia.
        -- destruct (negb _); [now apply head_absolute_app|assumption].
      * apply parse_directive_appends in Hd. destruct Hd as [p ->].
        eapply IH; [|exact H]. right. now apply head_absolute_app.
    + destruct (negb _); [discriminate|].
      eapply IH; [|exact H].
      destruct Hinv as [(-> & -> & Hi)|Hh]; [left; repeat split; lia|now right].
Qed.

Lemma absolute_prefix_fails (rest : ustring) :
  parse_pattern (DIR_SEPARATOR :: rest) = None.
Proof.
  unfold parse_pattern.
  rewrite parse_loop_S.
  change (at_ (DIR_SEPARATOR :: rest) 0) with DIR_SEPARATOR.
  change (is_ch DIR_SEPARATOR "%") with false.
  rewrite is_valid_char_posix_sep.
  replace (0 <? ulen (DIR_SEPARATOR :: rest)) with true
    by (symmetry; apply N.ltb_lt; unfold ulen; simpl length; lia).
  cbn [negb].
  destruct (parse_loop _ _ 0 (0 + 1) []) as [[prev out]|] eqn:Hl; [|reflexivity].
  apply parse_loop_absolute in Hl; [|left; repeat split; lia].
  destruct Hl as [(-> & ->)|Hh].
  - replace (0 <? ulen (DIR_SEPARATOR :: rest)) with true
      by (symmetry; apply N.ltb_lt; unfold ulen; simpl length; lia).
    cbn [app new_FixedPattern head_absolute]. unfold substr_from.
    rewrite substr_absolute; [reflexivity|unfold npos, size_modulus; simpl; lia].
  - assert (Hh' : head_absolute
                    (if prev <? ulen (DIR_SEPARATOR :: rest)
                     then out ++ [new_FixedPattern (substr_from (DIR_SEPARATOR :: rest) prev)]
                     else out) = true)
      by (destruct (prev <? _); [now apply head_absolute_app|assumption]).
    destruct (if prev <? _ then _ else _) as [|[s_| | |] tl]; try discriminate.
    simpl in Hh'. now rewrite Hh'.
Qed.

(** *** The fuel of the scanner is enough *)

Lemma scan_bracket_ge (rest : ustring) (j : N) : j <= scan_bracket rest j.
Proof.
  revert j. induction rest as [|c rest IH]; intros j; simpl; [lia|].
  destruct (is_ch c "]"); [lia|]. specialize (IH (j + 1)). lia.
Qed.

Lemma parse_directive_advances (s : ustring) (n i : N) (c : gunichar)
    (out : list Pattern) (i' : N) (out' : list Pattern) :
  parse_directive s n i c out = Some (i', out') -> i <= i'.
Proof.
  unfold parse_directive. intros H.
  destruct (is_ch c "n").
  - destruct (_ && _); injection H as <- _; lia.
  - destruct (is_ch c "T").
    + destruct (_ && _); [|discriminate].
      destruct (_ <? n); [|discriminate]. injection H as <- _.
      pose proof (scan_bracket_ge (dropN (i + 1) s) (i + 1)). lia.
    + destruct (frames_directive c); [|discriminate]. injection H as <- _. lia.
Qed.

(** One more turn changes nothing once the fuel covers the characters
    left: the [for] loop has ended by then. *)
Lemma parse_loop_fuel (s : ustring) (fuel : nat) :
  forall (prev i : N) (out : list Pattern),
    ulen s <= i + N.of_nat fuel ->
    parse_loop fuel s prev i out = parse_loop (S fuel) s prev i out.
Proof.
  induction fuel as [|fuel IH]; intros prev i out Hfuel.
  - rewrite parse_loop_S. simpl.
    destruct (N.ltb_spec i (ulen s)); [lia|reflexivity].
  - rewrite (parse_loop_S (S fuel)), (parse_loop_S fuel).
    destruct (i <? ulen s); [|reflexivity].
    destruct (is_ch _ "%").
    + destruct (i + 1 <? ulen s); [|reflexivity].
      destruct (parse_directive _ _ _ _ _) as [[i2 out2]|] eqn:Hd; [|reflexivity].
      apply parse_directive_advances in Hd. apply IH. lia.
    + destruct (negb _); [reflexivity|]. apply IH. lia.
Qed.

Lemma parse_loop_more_fuel (s : ustring) (k : nat) :
  parse_loop (S (length s) + k) s 0 0 [] = parse_loop (S (length s)) s 0 0 [].
Proof.
  induction k as [|k IH]; [now rewrite Nat.add_0_r|].
  rewrite Nat.add_succ_r, <- parse_loop_fuel; [exact IH|unfold ulen; lia].
Qed.


(** ** Decimal text *)

Lemma decimal_value_snoc (ds : ustring) (c : gunichar) :
  decimal_value (ds ++ [c]) = decimal_value ds * 10 + (c - ch "0").
Proof. unfold decimal_value. now rewrite fold_left_app. Qed.

Lemma digits_aux_value (fuel : nat) :
  forall (n : N) (acc : ustring),
    n < 2 ^ N.of_nat fuel ->
    exists ds, digits_aux (S fuel) n acc = ds ++ acc
               /\ decimal_value ds = n
               /\ Forall (fun c => isdigit c = true) ds.
Proof.
  induction fuel as [|fuel IH]; intros n acc Hn.
  - assert (n = 0) by (simpl in Hn; lia). subst n.
    exists [ch "0"]. repeat split. repeat constructor.
  - cbn [digits_aux]. destruct (N.eqb_spec (n / 10) 0) as [Hq|Hq].
    + exists [48 + n mod 10]. split; [reflexivity|]. split.
      * unfold decimal_value. cbn [fold_left]. change (ch "0") with 48.
        pose proof (N.div_mod n 10 ltac:(lia)) as Hdm. rewrite Hq in Hdm.
        generalize dependent (n mod 10). intros m Hdm. lia.
      * constructor; [|constructor]. unfold isdigit.
        pose proof (N.mod_lt n 10 ltac:(lia)) as Hm.
        generalize dependent (n mod 10). intros m Hm.
        apply andb_true_iff. split; apply N.leb_le; lia.
    + assert (Hlt : n / 10 < 2 ^ N.of_nat fuel).
      { apply N.Div0.div_lt_upper_bound.
        replace (N.of_nat (S fuel)) with (N.succ (N.of_nat fuel)) in Hn by lia.
        rewrite N.pow_succ_r' in Hn. lia. }
      destruct (IH (n / 10) ((48 + n mod 10) :: acc) Hlt) as (ds & Hds & Hval & Hdig).
      exists (ds ++ [48 + n mod 10]). split; [|split].
      * cbn [digits_aux] in Hds. rewrite <- app_assoc. exact Hds.
      * rewrite decimal_value_snoc, Hval. change (ch "0") with 48.
        pose proof (N.div_mod n 10 ltac:(lia)) as Hdm.
        generalize dependent (n mod 10). generalize dependent (n / 10).
        intros q _ _ _ m Hdm. lia.
      * apply Forall_app. split; [assumption|]. constructor; [|constructor].
        unfold isdigit. pose proof (N.mod_lt n 10 ltac:(lia)) as Hm.
        generalize dependent (n mod 10). intros m _ Hm.
        apply andb_true_iff. split; apply N.leb_le; lia.
Qed.

(** [digits n] is made of decimal digits and stands for [n]. *)
Lemma digits_value (n : N) :
  decimal_value (digits n) = n /\ Forall (fun c => isdigit c = true) (digits n).
Proof.
  unfold digits.
  destruct (digits_aux_value (N.to_nat (N.size n)) n []) as (ds & Hds & Hval & Hdig).
  - rewrite N2Nat.id. apply N.size_gt.
  - rewrite Hds, app_nil_r. now split.
Qed.

(** The text of a counter that is not negative stands for it. *)
Lemma to_string_value (z : Z) :
  (0 <= z)%Z -> decimal_value (to_string z) = Z.to_N z.
Proof.
  intros Hz. unfold to_string.
  destruct (Z.ltb_spec z 0); [lia|]. apply digits_value.
Qed.

(** ** The sequence number *)

Lemma int_wrap_in_range (z : Z) : (INT_MIN <= z <= INT_MAX)%Z -> int_wrap z = z.
Proof.
  unfold int_wrap, INT_MIN, INT_MAX. intros H.
  rewrite Z.mod_small by lia. lia.
Qed.

Lemma render_progressive (pad : N) (fd : FramesMetaData) (idx : Z) :
  render (ProgressivePattern pad) fd idx
  = (zeros (pad - ulen (to_string idx)) ++ to_string idx, int_wrap (idx + 1)).
Proof.
  simpl. destruct (N.ltb_spec (ulen (to_string idx)) pad) as [H|H]; [reflexivity|].
  replace (pad - ulen (to_string idx)) with 0 by lia. reflexivity.
Qed.

Lemma zeros_length (k : N) : ulen (zeros k) = k.
Proof. unfold ulen, zeros. rewrite repeat_length. lia. Qed.

Lemma render_progressive_iter (pad : N) (fd : FramesMetaData) (start : Z) (k : nat) :
  (INT_MIN <= start)%Z -> (start + Z.of_nat k <= INT_MAX)%Z ->
  Nat.iter k (fun i => snd (render (ProgressivePattern pad) fd i)) start
  = (start + Z.of_nat k)%Z.
Proof.
  intros Hlo. induction k as [|k IH]; intros Hhi.
  - simpl. lia.
  - rewrite Nat.iter_succ, IH by lia. rewrite render_progressive. cbn [snd].
    rewrite int_wrap_in_range by lia. lia.
Qed.

(** C6: ["%n2"] compiles to a sequence element of width 2; evaluated
    twice in a row from the start value 1, the counter being handed from
    the first evaluation to the second, it gives ["01"] then ["02"].  The
    width is the digit after [%n], 0 without one.  A rendering is the
    decimal text of the counter with zeros in front up to the width (none
    for width 0, or when the text is already that long), the first one
    being that of the configured start value, and each rendering leaves
    the counter one higher, so [k] renderings from [start] leave it at
    [start + k] (within the range of [int]). *)
Theorem progressive_sequence
    (pad : N) (fd : FramesMetaData) (start : Z) (k : nat)
    (Hlo : (INT_MIN <= start)%Z) (Hhi : (start + Z.of_nat k <= INT_MAX)%Z) :
  parse_pattern (u "%n2") = Some [ProgressivePattern 2]
  /\ (let p1 := sample_params [] [ProgressivePattern 2] [] SKIP 1 in
      let r1 := get_new_name p1 fd in
      let r2 := get_new_name (snd r1) fd in
      fst r1 = u "01" /\ fst r2 = u "02" /\ progressive_number (snd r2) = 3%Z)
  /\ (forall d, d < 10 ->
        parse_pattern (u "%n" ++ [ch "0" + d]) = Some [ProgressivePattern d])
  /\ parse_pattern (u "%n") = Some [ProgressivePattern 0]
  /\ fst (render (ProgressivePattern pad) fd start)
     = zeros (pad - ulen (to_string start)) ++ to_string start
  /\ ulen (fst (render (ProgressivePattern pad) fd start))
     = N.max pad (ulen (to_string start))
  /\ fst (render (ProgressivePattern 0) fd start) = to_string start
  /\ Nat.iter k (fun i => snd (render (ProgressivePattern pad) fd i)) start
     = (start + Z.of_nat k)%Z.
Proof.
  split; [vm_compute; reflexivity|].
  split; [vm_compute; auto|].
  split.
  { intros d Hd.
    assert (Hcases : d = 0 \/ d = 1 \/ d = 2 \/ d = 3 \/ d = 4 \/ d = 5 \/ d = 6
                     \/ d = 7 \/ d = 8 \/ d = 9) by lia.
    repeat (destruct Hcases as [->|Hcases]; [vm_compute; reflexivity|]).
    subst d. vm_compute. reflexivity. }
  split; [vm_compute; reflexivity|].
  rewrite !render_progressive. cbn [fst].
  split; [reflexivity|].
  split; [rewrite ulen_app, zeros_length; lia|].
  split; [reflexivity|].
  now apply render_progressive_iter.
Qed.

Lemma progressive_sequence_witness :
  Nat.iter 3 (fun i => snd (render (ProgressivePattern 2) (sample_fd (u "img.cr2")) i)) 1%Z
  = 4%Z.
Proof.
  apply (progressive_sequence 2 (sample_fd (u "img.cr2")) 1 3); vm_compute; discriminate.
Defined.

(** ** [trim]: the positions it reads *)

Lemma isspace_terminator : isspace 0 = false.
Proof. reflexivity. Qed.

Lemma trim_start_spec (s : ustring) (fuel : nat) :
  forall (i : N) (reads : list N),
    ulen s < i + N.of_nat fuel -> i <= ulen s ->
    let '(i', reads') := trim_start fuel s i reads in
    i <= i' <= ulen s
    /\ isspace (at_ s i') = false
    /\ (forall j, i <= j < i' -> isspace (at_ s j) = true)
    /\ (forall x, In x reads' <-> In x reads \/ i <= x <= i').
Proof.
  induction fuel as [|fuel IH]; intros i reads Hfuel Hi; [lia|].
  simpl. destruct (isspace (at_ s i)) eqn:Hsp.
  - assert (Hlt : i < ulen s).
    { destruct (N.ltb_spec i (ulen s)) as [H|H]; [assumption|].
      rewrite at_terminator in Hsp by assumption. discriminate. }
    specialize (IH (i + 1) (reads ++ [i])).
    destruct (trim_start fuel s (i + 1) (reads ++ [i])) as [i' reads'].
    destruct IH as (Hb & Hex & Hall & Hreads); [lia|lia|].
    split; [lia|]. split; [assumption|]. split.
    + intros j Hj. destruct (N.eq_dec j i) as [->|Hne]; [assumption|apply Hall; lia].
    + intros x. rewrite Hreads, in_app_iff. simpl. split.
      * intros [[H|[H|[]]]|H]; [now left|right; lia|right; lia].
      * intros [H|H]; [now left; left|].
        destruct (N.eq_dec x i) as [->|Hne]; [left; right; now left|right; lia].
  - split; [lia|]. split; [assumption|]. split; [intros j Hj; lia|].
    intros x. rewrite in_app_iff. simpl. split.
    + intros [H|[H|[]]]; [now left|right; lia].
    + intros [H|H]; [now left|right; left; lia].
Qed.

Lemma trim_end_spec (s : ustring) (fuel : nat) :
  forall (n : N) (reads : list N),
    n < N.of_nat fuel ->
    let '(n', reads') := trim_end fuel s n reads in
    n' <= n
    /\ (n' = 0 \/ isspace (at_ s (n' - 1)) = false)
    /\ (forall j, n' <= j < n -> isspace (at_ s j) = true)
    /\ (forall x, In x reads' <-> In x reads \/ (n' - 1 <= x < n)).
Proof.
  induction fuel as [|fuel IH]; intros n reads Hfuel; [lia|].
  simpl. destruct (N.ltb_spec 0 n) as [Hpos|Hzero].
  - destruct (isspace (at_ s (n - 1))) eqn:Hsp.
    + specialize (IH (n - 1) (reads ++ [n - 1])).
      destruct (trim_end fuel s (n - 1) (reads ++ [n - 1])) as [n' reads'].
      destruct IH as (Hb & Hex & Hall & Hreads); [lia|].
      split; [lia|]. split; [assumption|]. split.
      * intros j Hj. destruct (N.eq_dec j (n - 1)) as [->|Hne]; [assumption|apply Hall; lia].
      * intros x. rewrite Hreads, in_app_iff. simpl. split.
        -- intros [[H|[H|[]]]|H]; [now left|right; lia|right; lia].
        -- intros [H|H]; [now left; left|].
           destruct (N.eq_dec x (n - 1)) as [->|Hne]; [left; right; now left|right; lia].
    + split; [lia|]. split; [now right|]. split; [intros j Hj; lia|].
      intros x. rewrite in_app_iff. simpl. split.
      * intros [H|[H|[]]]; [now left|right; lia].
      * intros [H|H]; [now left|right; left; lia].
  - split; [lia|]. split; [left; lia|]. split; [intros j Hj; lia|].
    intros x. split; [now left|]. intros [H|H]; [assumption|lia].
Qed.

(** What [trim] reads and where its two loops stop. *)
Lemma trim_run_spec (s : ustring) :
  exists i n,
    trim s = substr s i (size_sub n i)
    /\ i <= ulen s /\ n <= ulen s
    /\ isspace (at_ s i) = false
    /\ (forall j, j < i -> isspace (at_ s j) = true)
    /\ (n = 0 \/ isspace (at_ s (n - 1)) = false)
    /\ (forall j, n <= j < ulen s -> isspace (at_ s j) = true)
    /\ (forall x, In x (trim_reads s) <-> x <= i \/ (n - 1 <= x < ulen s)).
Proof.
  unfold trim, trim_reads, trim_run.
  pose proof (trim_start_spec s (S (length s)) 0 []) as Hs.
  destruct (trim_start (S (length s)) s 0 []) as [i reads1].
  destruct Hs as (Hi & Hex1 & Hall1 & Hr1); [unfold ulen; lia|lia|].
  pose proof (trim_end_spec s (S (length s)) (ulen s) reads1) as He.
  destruct (trim_end (S (length s)) s (ulen s) reads1) as [n reads2].
  destruct He as (Hn & Hex2 & Hall2 & Hr2); [unfold ulen; lia|].
  exists i, n. cbn [fst snd].
  split; [reflexivity|]. split; [lia|]. split; [lia|]. split; [assumption|].
  split; [intros j Hj; apply Hall1; lia|]. split; [assumption|]. split; [assumption|].
  intros x. rewrite Hr2, Hr1. simpl. split.
  - intros [[[]|H]|H]; [left; lia|now right].
  - intros [H|H]; [left; right; lia|now right].
Qed.

Lemma all_space_at (s : ustring) :
  Forall (fun c => isspace c = true) s <-> (forall j, j < ulen s -> isspace (at_ s j) = true).
Proof.
  split.
  - intros H j Hj. rewrite Forall_forall in H. apply H. now apply at_in.
  - intros H. apply Forall_forall. intros c Hc.
    destruct (In_nth s c 0 Hc) as (k & Hk & Hnth).
    specialize (H (N.of_nat k)). rewrite at_nth, Nat2N.id, Hnth in H.
    apply H. unfold ulen. lia.
Qed.

(** C10 (as the code has it): [trim] never reads beyond the terminator.
    Every position it reads is at most the length of the string; the
    position equal to the length, where the NUL terminator sits (it reads
    as 0, which is not a space, and that ends the forward loop), is read
    exactly when the string has no character that is not a space, the
    empty string included; for any other string every position read is
    strictly below the length. *)
Theorem trim_reads_in_buffer (s : ustring) :
  Forall (fun x => x <= ulen s) (trim_reads s)
  /\ (In (ulen s) (trim_reads s) <-> Forall (fun c => isspace c = true) s)
  /\ isspace (at_ s (ulen s)) = false
  /\ (Forall (fun c => isspace c = true) s
      \/ Forall (fun x => x < ulen s) (trim_reads s)).
Proof.
  destruct (trim_run_spec s) as (i & n & _ & Hi & Hn & Hex1 & Hall1 & _ & _ & Hreads).
  assert (Hall : i = ulen s <-> Forall (fun c => isspace c = true) s).
  { rewrite all_space_at. split.
    - intros ->. exact Hall1.
    - intros H. destruct (N.eq_dec i (ulen s)) as [E|E]; [assumption|].
      rewrite H in Hex1 by lia. discriminate. }
  split; [|split; [|split]].
  - apply Forall_forall. intros x Hx. apply Hreads in Hx. lia.
  - rewrite Hreads, <- Hall. split; [intros [H|H]; lia|intros ->; left; lia].
  - now rewrite at_terminator by lia.
  - destruct (N.eq_dec i (ulen s)) as [E|E]; [left; now apply Hall|].
    right. apply Forall_forall. intros x Hx. apply Hreads in Hx. lia.
Qed.

Lemma trim_reads_in_buffer_witness :
  In (ulen (u "  ")) (trim_reads (u "  ")).
Proof.
  apply (trim_reads_in_buffer (u "  ")).
  repeat constructor.
Defined.

(** On the empty string and on a string of spaces [trim] reads the
    position equal to the length, which is not below the length. *)
Lemma trim_reads_terminator :
  trim_reads [] = [0]
  /\ ~ Forall (fun x => x < ulen []) (trim_reads [])
  /\ trim_reads (u "  ") = [0; 1; 2; 1; 0]
  /\ ~ Forall (fun x => x < ulen (u "  ")) (trim_reads (u "  ")).
Proof.
  split; [reflexivity|]. split.
  - intros H. inversion H as [|x l Hx Hl]. vm_compute in Hx. discriminate.
  - split; [reflexivity|].
    intros H. rewrite Forall_forall in H. specialize (H 2).
    assert (Hin : In 2 (trim_reads (u "  "))) by (vm_compute; auto).
    specialize (H Hin). vm_compute in H. discriminate.
Qed.

(** ** [parse_sidecars] *)

(** C9 (the code at the input where it departs): after a [';'] the loop
    steps over the next character without looking at it, so in ["a;;b"]
    the second [';'] is not taken as a separator and stays in an entry. *)
Theorem parse_sidecars_double_separator :
  parse_sidecars (u "a;;b") = (true, [u "a"; u ";b"])
  /\ In (ch ";") (u ";b")
  /\ parse_sidecars (u ";;") = (true, [u ";"]).
Proof.
  split; [vm_compute; reflexivity|]. split; [left; reflexivity|vm_compute; reflexivity].
Qed.

Lemma sidecars_loop_nonempty (s : ustring) (fuel : nat) :
  forall (prev i : N) (out : list ustring),
    Forall (fun e => e <> []) out ->
    Forall (fun e => e <> []) (snd (sidecars_loop fuel s prev i out)).
Proof.
  induction fuel as [|fuel IH]; intros prev i out Hout; simpl; [assumption|].
  destruct (i <? ulen s); [|assumption].
  destruct (is_ch (at_ s i) ";"); apply IH; [|assumption].
  destruct (trim _) eqn:Ht; simpl; [assumption|].
  apply Forall_app. split; [assumption|]. constructor; [discriminate|constructor].
Qed.

(** No entry [parse_sidecars] returns is empty. *)
Lemma parse_sidecars_nonempty (s : ustring) :
  Forall (fun e => e <> []) (snd (parse_sidecars s)).
Proof.
  unfold parse_sidecars.
  pose proof (sidecars_loop_nonempty s (S (length s)) 0 0 [] (Forall_nil _)) as H.
  destruct (sidecars_loop (S (length s)) s 0 0 []) as [prev out]. simpl in H. cbn [snd].
  destruct (prev <? ulen s); [|assumption].
  destruct (trim _) eqn:Ht; simpl; [assumption|].
  apply Forall_app. split; [assumption|]. constructor; [discriminate|constructor].
Qed.

Lemma sidecars_loop_fuel (s : ustring) (fuel : nat) :
  forall (prev i : N) (out : list ustring),
    ulen s <= i + N.of_nat fuel ->
    sidecars_loop fuel s prev i out = sidecars_loop (S fuel) s prev i out.
Proof.
  induction fuel as [|fuel IH]; intros prev i out Hfuel.
  - simpl. destruct (N.ltb_spec i (ulen s)); [lia|reflexivity].
  - change (sidecars_loop (S (S fuel)) s prev i out) with
      (if i <? ulen s then
         if is_ch (at_ s i) ";" then
           sidecars_loop (S fuel) s (i + 1) (i + 1 + 1)
             (if negb (empty (trim (substr s prev (i - prev))))
              then out ++ [trim (substr s prev (i - prev))] else out)
         else sidecars_loop (S fuel) s prev (i + 1) out
       else (prev, out)).
    change (sidecars_loop (S fuel) s prev i out) with
      (if i <? ulen s then
         if is_ch (at_ s i) ";" then
           sidecars_loop fuel s (i + 1) (i + 1 + 1)
             (if negb (empty (trim (substr s prev (i - prev))))
              then out ++ [trim (substr s prev (i - prev))] else out)
         else sidecars_loop fuel s prev (i + 1) out
       else (prev, out)).
    destruct (i <? ulen s); [|reflexivity].
    destruct (is_ch (at_ s i) ";"); apply IH; lia.
Qed.

(** ** The extension of a name that ends with a separator *)

(** C5 (the code at the input where it departs): the pattern ["%f.%e/"]
    compiles; for the file [img.cr2] the concatenated name is
    ["img.cr2/"], whose last segment is ["img.cr2"] with the text ["cr2"]
    after its last dot.  The cut is computed from the length of the base
    name, which leaves out the separator at the end, so the name is cut
    one place too far to the right: the stem keeps the dot, the extension
    is ["r2/"], a character is lost and the evaluated name is
    ["img..r2/"]. *)
Theorem extension_of_name_ending_in_separator :
  parse_pattern (u "%f.%e/")
  = Some [FramesDataPattern FileName; FixedPattern (u "."); FramesDataPattern FileExt;
          FixedPattern (u "/")]
  /\ fst (render_all [FramesDataPattern FileName; FixedPattern (u ".");
                     FramesDataPattern FileExt; FixedPattern (u "/")]
            (sample_fd (u "img.cr2")) 1) = u "img.cr2/"
  /\ path_get_basename (u "img.cr2/") = u "img.cr2"
  /\ getExtension (u "img.cr2/") = u "r2/"
  /\ removeExtension (u "img.cr2/") = u "img."
  /\ fst (get_new_name
            (sample_params [] [FramesDataPattern FileName; FixedPattern (u ".");
                               FramesDataPattern FileExt; FixedPattern (u "/")] [] SKIP 1)
            (sample_fd (u "img.cr2"))) = u "img..r2/".
Proof. repeat (split; [vm_compute; reflexivity|]). vm_compute. reflexivity. Qed.

(** ** The plan of targets *)

Section TargetsFacts.

Variable file_exists : ustring -> bool.
Variable getParamFile : ustring -> ustring.

Lemma sidecar_names_spec (fn newpath s : ustring) :
  sidecar_names fn newpath (removeExtension fn) (removeExtension newpath) s
  = (sidecar_path fn s, sidecar_path newpath s).
Proof.
  unfold sidecar_names, sidecar_path. destruct s as [|c rest]; [reflexivity|].
  change (at_ (c :: rest) 0) with c. rewrite substr_from_skipn.
  destruct (is_ch c "+"); reflexivity.
Qed.

Lemma ok_spec (out : list (ustring * ustring)) (name : ustring) :
  ok file_exists out name
  = file_exists name && negb (existsb (ueqb name) (map fst out)).
Proof.
  unfold ok. destruct (file_exists name); [|reflexivity]. cbn [negb andb].
  f_equal. induction out as [|[a b] out IH]; [reflexivity|]. simpl. rewrite IH.
  f_equal. unfold ueqb. destruct (list_eq_dec N.eq_dec a name),
    (list_eq_dec N.eq_dec name a); congruence.
Qed.

Lemma fold_sidecars_spec (fn newpath : ustring) (suffixes : list ustring) :
  forall out,
    fold_left
      (fun out s =>
         let '(orig_sidename, new_sidename) :=
           sidecar_names fn newpath (removeExtension fn) (removeExtension newpath) s in
         if ok file_exists out orig_sidename
         then out ++ [(orig_sidename, new_sidename)] else out)
      suffixes out
    = out ++ plan_sidecars file_exists fn newpath (map fst out) suffixes.
Proof.
  induction suffixes as [|s rest IH]; intros out; cbn [fold_left plan_sidecars].
  - now rewrite app_nil_r.
  - rewrite sidecar_names_spec, ok_spec, IH.
    destruct (_ && _); [|reflexivity].
    rewrite map_app, <- app_assoc. reflexivity.
Qed.

(** The code builds the list the specification describes. *)
Lemma push_targets_spec (params : Params) (fn newpath : ustring) :
  push_targets file_exists getParamFile params fn newpath
  = plan_targets file_exists getParamFile fn newpath (sidecars params).
Proof.
  unfold push_targets, plan_targets, plan_head.
  destruct (sidecars params) as [|s rest] eqn:Hs.
  - cbn [negb plan_sidecars]. rewrite app_nil_r.
    destruct (file_exists (getParamFile fn)); reflexivity.
  - cbn [negb]. rewrite fold_sidecars_spec.
    destruct (file_exists (getParamFile fn)); reflexivity.
Qed.

Lemma plan_sidecars_sources (fn newpath : ustring) (suffixes : list ustring) :
  forall seen,
    Forall (fun p => file_exists (fst p) = true /\ ~ In (fst p) seen)
      (plan_sidecars file_exists fn newpath seen suffixes)
    /\ NoDup (map fst (plan_sidecars file_exists fn newpath seen suffixes))
    /\ (forall s, In s suffixes -> file_exists (sidecar_path fn s) = true ->
          In (sidecar_path fn s)
            (seen ++ map fst (plan_sidecars file_exists fn newpath seen suffixes))).
Proof.
  induction suffixes as [|s rest IH]; intros seen; cbn [plan_sidecars].
  - split; [constructor|]. split; [constructor|]. intros s [].
  - destruct (file_exists (sidecar_path fn s)) eqn:He; cbn [andb].
    + destruct (existsb (ueqb (sidecar_path fn s)) seen) eqn:Hseen; cbn [negb].
      * destruct (IH seen) as (Hall & Hnd & Hcomplete).
        split; [assumption|]. split; [assumption|].
        intros s' [<-|Hin] Hex; [|now apply Hcomplete].
        apply in_or_app. left. apply existsb_exists in Hseen.
        destruct Hseen as (x & Hx & Heq). apply ueqb_eq in Heq. now subst x.
      * destruct (IH (seen ++ [sidecar_path fn s])) as (Hall & Hnd & Hcomplete).
        assert (Hnotin : ~ In (sidecar_path fn s) seen).
        { intros Hin. apply Bool.not_true_iff_false in Hseen. apply Hseen.
          apply existsb_exists. exists (sidecar_path fn s). split; [assumption|].
          apply ueqb_refl. }
        split; [|split].
        -- constructor; [now split|].
           eapply Forall_impl; [|exact Hall]. cbn beta.
           intros p [Hp1 Hp2]. split; [assumption|].
           intros Hin. apply Hp2. apply in_or_app. now left.
        -- cbn [map fst]. constructor; [|assumption].
           intros Hin. apply in_map_iff in Hin. destruct Hin as (p & Hp & Hin).
           rewrite Forall_forall in Hall. destruct (Hall p Hin) as [_ Hn].
           apply Hn. rewrite Hp. apply in_or_app. right. now left.
        -- intros s' [<-|Hin] Hex.
           ++ apply in_or_app. right. now left.
           ++ specialize (Hcomplete s' Hin Hex). cbn [map fst].
              rewrite <- app_assoc in Hcomplete. exact Hcomplete.
    + destruct (IH seen) as (Hall & Hnd & Hcomplete).
      split; [assumption|]. split; [assumption|].
      intros s' [<-|Hin] Hex; [congruence|now apply Hcomplete].
Qed.

(** What [get_targets] returns: nothing, or the plan for some new path. *)
Lemma get_targets_cases (fuel : nat) (params : Params) (fd : FramesMetaData)
    (out : list (ustring * ustring)) (params' : Params) :
  get_targets file_exists getParamFile fuel params fd = Some (out, params') ->
  out = [] \/
  exists newpath,
    out = plan_targets file_exists getParamFile (getFileName fd) newpath (sidecars params).
Proof.
  unfold get_targets. intros H.
  destruct (get_new_name params fd) as [newname params1] eqn:Hn.
  assert (Hsc : sidecars params1 = sidecars params).
  { unfold get_new_name in Hn. destruct (render_all _ _ _). injection Hn as _ <-. reflexivity. }
  destruct (file_exists _).
  - destruct (on_existing params1).
    + injection H as <- _. now left.
    + destruct (probe _ _ _ _ _ _) as [[newpath nn]|]; [|discriminate].
      injection H as <- _. right. exists newpath. now rewrite push_targets_spec, Hsc.
  - injection H as <- _. right. eexists. now rewrite push_targets_spec, Hsc.
Qed.

End TargetsFacts.


(** ** The conflict policy *)

Section ConflictFacts.

Variable file_exists : ustring -> bool.
Variable getParamFile : ustring -> ustring.

(** Under the skip policy an existing primary destination gives the empty
    list. *)
Lemma get_targets_skip (fuel : nat) (params : Params) (fd : FramesMetaData) :
  let newname := fst (get_new_name params fd) in
  let newpath := if g_path_is_absolute newname then newname
                 else build_filename (path_get_dirname (getFileName fd)) newname in
  file_exists newpath = true -> on_existing params = SKIP ->
  get_targets file_exists getParamFile fuel params fd
  = Some ([], snd (get_new_name params fd)).
Proof.
  cbv zeta. unfold get_targets. intros Hex Hskip.
  destruct (get_new_name params fd) as [newname params1] eqn:Hn. cbn [fst snd] in *.
  assert (Hoe : on_existing params1 = on_existing params).
  { unfold get_new_name in Hn. destruct (render_all _ _ _). injection Hn as _ <-. reflexivity. }
  now rewrite Hex, Hoe, Hskip.
Qed.

(** The probing loop returns the first numbered name whose path does not
    exist, given fuel for that many turns. *)
Lemma probe_first_free (dir bn ext : ustring) (k : Z) (fuel : nat) :
  forall i : Z,
    (1 <= i <= k)%Z -> (k <= INT_MAX)%Z ->
    (forall j, (i <= j < k)%Z ->
       file_exists (build_filename dir (bn ++ u "_" ++ to_string j ++ ext)) = true) ->
    file_exists (build_filename dir (bn ++ u "_" ++ to_string k ++ ext)) = false ->
    (Z.to_nat (k - i) < fuel)%nat ->
    probe file_exists fuel dir bn ext i
    = Some (build_filename dir (bn ++ u "_" ++ to_string k ++ ext),
            bn ++ u "_" ++ to_string k ++ ext).
Proof.
  induction fuel as [|fuel IH]; intros i Hi Hk Hbusy Hfree Hfuel; [lia|].
  cbn [probe]. destruct (Z.eq_dec i k) as [->|Hne].
  - now rewrite Hfree.
  - rewrite Hbusy by lia. cbn [negb].
    rewrite int_wrap_in_range by (unfold INT_MIN, INT_MAX in *; lia).
    apply IH; try assumption; try lia.
    intros j Hj. apply Hbusy. lia.
Qed.

End ConflictFacts.

(** C3 (the code at the input where it departs): with an absolute base
    directory the new name is absolute, and the primary destination is
    that name, [/out/img.cr2], which exists.  Under the rename policy the
    loop joins every numbered name to the directory of the source, as if
    the name were relative: it settles on [/photos/out/img_1.cr2] although
    [/out/img_1.cr2], in the destination directory, is unused, and the
    sidecar destination follows it there.  Under the skip policy the list
    is empty. *)
Theorem conflict_rename_absolute_name :
  fst (get_new_name (sample_params (u "/out") name_ext_pattern [u "xmp"] RENAME 1)
         (sample_fd (u "/photos/img.cr2"))) = u "/out/img.cr2"
  /\ sample_disk_absolute (u "/out/img.cr2") = true
  /\ sample_disk_absolute (u "/out/img_1.cr2") = false
  /\ option_map fst
       (get_targets sample_disk_absolute sample_param_file 10
          (sample_params (u "/out") name_ext_pattern [u "xmp"] RENAME 1)
          (sample_fd (u "/photos/img.cr2")))
     = Some [(u "/photos/img.cr2", u "/photos/out/img_1.cr2");
             (u "/photos/img.xmp", u "/photos/out/img_1.xmp")]
  /\ option_map fst
       (get_targets sample_disk_absolute sample_param_file 10
          (sample_params (u "/out") name_ext_pattern [u "xmp"] SKIP 1)
          (sample_fd (u "/photos/img.cr2")))
     = Some [].
Proof. repeat (split; [vm_compute; reflexivity|]). vm_compute. reflexivity. Qed.

(** With a relative base directory the same conflict is resolved next to
    the first destination. *)
Example conflict_rename_relative_name :
  option_map fst
    (get_targets sample_disk sample_param_file 10
       (sample_params (u "out") numbered_pattern [u "xmp"; u "+thumb"] RENAME 1)
       (sample_fd (u "img.cr2")))
  = Some [(u "img.cr2", u "./out/img_001_1.cr2");
          (u "img.cr2.arp", u "./out/img_001_1.cr2.arp");
          (u "img.xmp", u "./out/img_001_1.xmp")].
Proof. vm_compute. reflexivity. Qed.

(** ** The inspector image cache *)

Section InspectorFacts.

Variable Surface : Type.
Variable Histogram : Type.
Variable empty_histogram : Histogram.

Abbreviation Buffer := (InspectorBuffer Surface Histogram).

Lemma Cache_get_miss (V : Type) (c : Cache V) (key : ustring) :
  lru_find key (lru_list c) = None -> Cache_get c key = (None, c).
Proof. unfold Cache_get. now intros ->. Qed.

Lemma lru_remove_found (V : Type) (key : ustring) (l : list (ustring * V)) (v : V) :
  lru_find key l = Some v -> Permutation ((key, v) :: lru_remove key l) l.
Proof.
  induction l as [|[k w] l IH]; simpl; [discriminate|].
  destruct (ueqb k key) eqn:E.
  - intros H. injection H as <-. apply ueqb_eq in E. now subst k.
  - intros H. specialize (IH H).
    eapply perm_trans; [apply perm_swap|]. now apply perm_skip.
Qed.

Lemma Cache_get_permutation (V : Type) (c : Cache V) (key : ustring) :
  Permutation (lru_list (snd (Cache_get c key))) (lru_list c)
  /\ store_size (snd (Cache_get c key)) = store_size c.
Proof.
  unfold Cache_get. destruct (lru_find key (lru_list c)) eqn:E; simpl.
  - split; [now apply lru_remove_found|reflexivity].
  - split; [apply Permutation_refl|reflexivity].
Qed.

(** A failed decode leaves the path of the buffer empty. *)
Lemma failed_decode_no_path (env : DecodeEnv Surface Histogram) (path : ustring) :
  decode_fails env path ->
  imgPath (new_InspectorBuffer empty_histogram env path
             (fst (request_size env)) (snd (request_size env))) = [].
Proof.
  unfold decode_fails, new_InspectorBuffer.
  intros [-> | [H | [H | [H | H]]]].
  - reflexivity.
  - rewrite H. now rewrite andb_false_r.
  - rewrite H. now rewrite andb_false_r.
  - rewrite H. destruct (_ && _); reflexivity.
  - rewrite H. destruct (_ && _); [|reflexivity].
    destruct (ueqb _ _); reflexivity.
Qed.

Lemma doCacheImage_failed (env : DecodeEnv Surface Histogram)
    (c : Cache Buffer) (path : ustring) :
  decode_fails env path -> lru_find path (lru_list c) = None ->
  doCacheImage empty_histogram env c path = (None, c).
Proof.
  intros Hfail Hmiss. unfold doCacheImage. rewrite Cache_get_miss by assumption.
  pose proof (failed_decode_no_path env path Hfail) as Hp.
  destruct (request_size env) as [w h]. cbn [fst snd] in Hp. now rewrite Hp.
Qed.

Lemma doCacheImage_failed_keeps (env : DecodeEnv Surface Histogram)
    (c : Cache Buffer) (path : ustring) :
  decode_fails env path ->
  Permutation (lru_list (snd (doCacheImage empty_histogram env c path))) (lru_list c)
  /\ store_size (snd (doCacheImage empty_histogram env c path)) = store_size c.
Proof.
  intros Hfail. unfold doCacheImage.
  pose proof (Cache_get_permutation _ c path) as Hg.
  destruct (Cache_get c path) as [[res|] c1]; cbn [snd] in *; [assumption|].
  pose proof (failed_decode_no_path env path Hfail) as Hp.
  destruct (request_size env) as [w h]. cbn [fst snd] in Hp. rewrite Hp. exact Hg.
Qed.

End InspectorFacts.

(** C7: when the decode of a path fails (empty path, no such file, a
    directory, no extension, or no surface from the decoder) and the path
    is not in the cache, so that a decode is attempted, [doCacheImage]
    returns nothing and the cache is the one it was given; a preload
    leaves the inspector as it was and a switch to the path leaves the
    cache as it was with no current image.  Whether or not the path is in
    the cache, nothing is inserted: the entries after the call are those
    before it, and the capacity is the same. *)
Theorem failed_decode_leaves_cache
    (Surface Histogram : Type) (empty_histogram : Histogram)
    (env : DecodeEnv Surface Histogram)
    (a : InspectorArea Surface Histogram) (path : ustring)
    (Hfail : decode_fails env path)
    (Hmiss : lru_find path (lru_list (cache_ a)) = None) :
  doCacheImage empty_histogram env (cache_ a) path = (None, cache_ a)
  /\ preloadImage empty_histogram env a path = a
  /\ doSwitchImage empty_histogram env a path
     = {| cache_ := cache_ a; cur_image_ := None |}
  /\ (forall c : Cache (InspectorBuffer Surface Histogram),
        Permutation (lru_list (snd (doCacheImage empty_histogram env c path))) (lru_list c)
        /\ store_size (snd (doCacheImage empty_histogram env c path)) = store_size c).
Proof.
  pose proof (doCacheImage_failed _ _ empty_histogram env (cache_ a) path Hfail Hmiss) as H.
  split; [exact H|]. split; [|split].
  - unfold preloadImage. rewrite H. now destruct a.
  - unfold doSwitchImage. rewrite H. now destruct path.
  - intros c. now apply doCacheImage_failed_keeps.
Qed.

Lemma failed_decode_leaves_cache_witness :
  doCacheImage 0 sample_env
    (snd (doCacheImage 0 sample_env (new_Cache 2) (u "a.jpg"))) (u "missing.jpg")
  = (None, snd (doCacheImage 0 sample_env (new_Cache 2) (u "a.jpg"))).
Proof.
  apply (failed_decode_leaves_cache N N 0 sample_env
           {| cache_ := snd (doCacheImage 0 sample_env (new_Cache 2) (u "a.jpg"));
              cur_image_ := None |} (u "missing.jpg")).
  - right. left. vm_compute. reflexivity.
  - vm_compute. reflexivity.
Defined.

Section CacheBound.

Variable Surface : Type.
Variable Histogram : Type.
Variable empty_histogram : Histogram.

Lemma lru_remove_length (V : Type) (key : ustring) (l : list (ustring * V)) (v : V) :
  lru_find key l = Some v -> S (length (lru_remove key l)) = length l.
Proof.
  intros H. apply lru_remove_found in H. apply Permutation_length in H. exact H.
Qed.

Lemma removelast_length (V : Type) (l : list V) : length (removelast l) = pred (length l).
Proof.
  induction l as [|x l IH]; [reflexivity|].
  destruct l as [|y l]; [reflexivity|].
  change (removelast (x :: y :: l)) with (x :: removelast (y :: l)).
  simpl length in *. rewrite IH. reflexivity.
Qed.

(** After the eviction there is room for one more entry. *)
Lemma evict_for_one_room (V : Type) (size : N) (fuel : nat) :
  1 <= size ->
  forall l : list (ustring * V),
    (length l <= fuel)%nat ->
    N.of_nat (length (evict_for_one fuel size l)) < size.
Proof.
  intros Hsize. induction fuel as [|fuel IH]; intros l Hl; simpl.
  - destruct l; simpl in *; lia.
  - destruct (N.leb_spec size (N.of_nat (length l))) as [Hfull|Hroom]; [|assumption].
    apply IH. rewrite removelast_length. lia.
Qed.

Lemma evict_for_one_not_full (V : Type) (size : N) (fuel : nat) (l : list (ustring * V)) :
  N.of_nat (length l) < size -> evict_for_one fuel size l = l.
Proof.
  intros H. destruct fuel; [reflexivity|]. simpl.
  destruct (N.leb_spec size (N.of_nat (length l))); [lia|reflexivity].
Qed.

(** From a full cache exactly the least recently used entry goes. *)
Lemma evict_for_one_full (V : Type) (size : N) (l : list (ustring * V)) :
  1 <= size -> N.of_nat (length l) = size ->
  evict_for_one (length l) size l = removelast l.
Proof.
  intros Hsize Hfull. destruct l as [|x l]; [reflexivity|].
  change (length (x :: l)) with (S (length l)) at 1. cbn [evict_for_one].
  assert (E : (size <=? N.of_nat (length (x :: l))) = true) by (apply N.leb_le; lia).
  rewrite E. apply evict_for_one_not_full.
  rewrite removelast_length. simpl length in *. lia.
Qed.

Lemma Cache_get_size (V : Type) (c : Cache V) (key : ustring) :
  length (lru_list (snd (Cache_get c key))) = length (lru_list c)
  /\ store_size (snd (Cache_get c key)) = store_size c.
Proof.
  destruct (Cache_get_permutation V c key) as [Hp Hs].
  split; [now apply Permutation_length|assumption].
Qed.

Lemma Cache_set_size (V : Type) (c : Cache V) (key : ustring) (value : V) :
  1 <= store_size c ->
  N.of_nat (length (lru_list c)) <= store_size c ->
  N.of_nat (length (lru_list (Cache_set c key value))) <= store_size c
  /\ store_size (Cache_set c key value) = store_size c.
Proof.
  intros Hcap Hinv. unfold Cache_set.
  destruct (lru_find key (lru_list c)) eqn:E; cbn [lru_list store_size length].
  - apply lru_remove_length in E. split; [lia|reflexivity].
  - pose proof (evict_for_one_room V (store_size c) (length (lru_list c)) Hcap
                  (lru_list c) (le_n _)).
    split; [lia|reflexivity].
Qed.

Lemma doCacheImage_size (env : DecodeEnv Surface Histogram)
    (c : Cache (InspectorBuffer Surface Histogram)) (path : ustring) :
  1 <= store_size c ->
  N.of_nat (length (lru_list c)) <= store_size c ->
  N.of_nat (length (lru_list (snd (doCacheImage empty_histogram env c path))))
  <= store_size c
  /\ store_size (snd (doCacheImage empty_histogram env c path)) = store_size c.
Proof.
  intros Hcap Hinv. unfold doCacheImage.
  pose proof (Cache_get_size _ c path) as [Hlen Hsz].
  destruct (Cache_get c path) as [[res|] c1]; cbn [snd] in *.
  - rewrite Hlen. split; [assumption|assumption].
  - destruct (request_size env) as [w h].
    destruct (empty _); cbn [snd].
    + rewrite Hlen. split; assumption.
    + rewrite <- Hsz. apply Cache_set_size; rewrite ?Hsz, ?Hlen; assumption.
Qed.

Lemma step_bounded (a : InspectorArea Surface Histogram) (op : CacheOp Surface Histogram) :
  1 <= cache_capacity a -> cache_size a <= cache_capacity a ->
  cache_size (step empty_histogram a op) <= cache_capacity a
  /\ cache_capacity (step empty_histogram a op) = cache_capacity a.
Proof.
  unfold cache_size, cache_capacity. intros Hcap Hinv.
  destruct op as [env path|env path|]; cbn [step].
  - unfold doSwitchImage. destruct (empty path); cbn [cache_]; [now split|].
    pose proof (doCacheImage_size env (cache_ a) path Hcap Hinv) as H.
    destruct (doCacheImage empty_histogram env (cache_ a) path) as [res c].
    exact H.
  - unfold preloadImage. cbn [cache_]. now apply doCacheImage_size.
  - unfold deleteBuffers, Cache_clear. cbn [cache_ lru_list store_size length].
    split; [lia|reflexivity].
Qed.

Lemma run_bounded (ops : list (CacheOp Surface Histogram)) :
  forall a : InspectorArea Surface Histogram,
    1 <= cache_capacity a -> cache_size a <= cache_capacity a ->
    cache_size (run empty_histogram ops a) <= cache_capacity a
    /\ cache_capacity (run empty_histogram ops a) = cache_capacity a.
Proof.
  unfold run. induction ops as [|op ops IH]; intros a Hcap Hinv; cbn [fold_left].
  - now split.
  - destruct (step_bounded a op Hcap Hinv) as [Hs Hc].
    destruct (IH (step empty_histogram a op)) as [Hs' Hc']; [lia|lia|].
    split; [lia|congruence].
Qed.

End CacheBound.

(** C8: the capacity of the inspector cache is the configured number
    raised to 1 when it is lower, so at least 1; no sequence of Get,
    Preload and Invalidate-all changes it or brings the number of entries
    above it; an insertion into a full cache drops exactly the least
    recently used entry.  With capacity 2, the misses A, B, C leave C and
    B; with A used again before C they leave C and A. *)
Theorem cache_bounded
    (Surface Histogram : Type) (empty_histogram : Histogram)
    (configured : Z) (ops : list (CacheOp Surface Histogram)) :
  let a0 : InspectorArea Surface Histogram := new_InspectorArea configured in
  cache_capacity a0 = Z.to_N (Z.max configured 1)
  /\ 1 <= cache_capacity a0
  /\ cache_capacity (run empty_histogram ops a0) = cache_capacity a0
  /\ cache_size (run empty_histogram ops a0) <= cache_capacity a0
  /\ (forall (c : Cache (InspectorBuffer Surface Histogram)) key value,
        1 <= store_size c -> N.of_nat (length (lru_list c)) = store_size c ->
        lru_find key (lru_list c) = None ->
        lru_list (Cache_set c key value) = (key, value) :: removelast (lru_list c))
  /\ cache_keys (run 0 [Get sample_env path_A; Get sample_env path_B; Get sample_env path_C]
                   (new_InspectorArea 2)) = [path_C; path_B]
  /\ cache_keys (run 0 [Get sample_env path_A; Get sample_env path_B; Get sample_env path_A;
                        Get sample_env path_C]
                   (new_InspectorArea 2)) = [path_C; path_A].
Proof.
  cbv zeta.
  assert (Hcap : 1 <= cache_capacity (@new_InspectorArea Surface Histogram configured)).
  { unfold cache_capacity, new_InspectorArea, new_Cache. cbn [cache_ store_size]. lia. }
  assert (Hsize : cache_size (@new_InspectorArea Surface Histogram configured)
                  <= cache_capacity (@new_InspectorArea Surface Histogram configured)).
  { unfold cache_size, new_InspectorArea, new_Cache. cbn [cache_ lru_list length]. lia. }
  destruct (run_bounded Surface Histogram empty_histogram ops _ Hcap Hsize) as [Hs Hc].
  split; [reflexivity|]. split; [exact Hcap|]. split; [exact Hc|]. split; [exact Hs|].
  split; [|split; vm_compute; reflexivity].
  intros c key value H1 Hfull Hmiss. unfold Cache_set. rewrite Hmiss.
  cbn [lru_list]. now rewrite evict_for_one_full.
Qed.

Lemma cache_bounded_witness :
  lru_list (Cache_set (snd (doCacheImage 0 sample_env
                              (snd (doCacheImage 0 sample_env (new_Cache 2) path_A)) path_B))
              path_C (new_InspectorBuffer 0 sample_env path_C (-1) (-1)))
  = (path_C, new_InspectorBuffer 0 sample_env path_C (-1) (-1))
    :: removelast (lru_list (snd (doCacheImage 0 sample_env
                                   (snd (doCacheImage 0 sample_env (new_Cache 2) path_A))
                                   path_B))).
Proof.
  apply (cache_bounded N N 0 2 []); vm_compute; try reflexivity. discriminate.
Defined.

(** ** The extension of a name that does not end with a separator *)

Lemma take_until_split (p : gunichar -> bool) (s : ustring) :
  existsb p s = true ->
  exists d rest, s = take_until p s ++ d :: rest /\ p d = true.
Proof.
  induction s as [|c s IH]; simpl; [discriminate|].
  destruct (p c) eqn:E.
  - intros _. exists c, s. now split.
  - simpl. intros H. destruct (IH H) as (d & rest & Hs & Hd).
    exists d, rest. split; [now rewrite <- Hs|assumption].
Qed.

Lemma take_until_none (p : gunichar -> bool) (s : ustring) :
  existsb p s = false -> take_until p s = s.
Proof.
  induction s as [|c s IH]; simpl; [reflexivity|].
  destruct (p c); [discriminate|]. simpl. intros H. now rewrite IH.
Qed.

Lemma take_until_forall (p : gunichar -> bool) (s : ustring) :
  Forall (fun c => p c = false) (take_until p s).
Proof.
  induction s as [|c s IH]; simpl; [constructor|].
  destruct (p c) eqn:E; [constructor|now constructor].
Qed.

Lemma existsb_rev (p : gunichar -> bool) (s : ustring) : existsb p (rev s) = existsb p s.
Proof.
  induction s as [|c s IH]; [reflexivity|]. simpl.
  rewrite existsb_app, IH. simpl. rewrite orb_false_r. apply orb_comm.
Qed.

Lemma after_last_forall (p : gunichar -> bool) (s : ustring) :
  Forall (fun c => p c = false) (after_last p s).
Proof.
  unfold after_last. apply Forall_rev. apply take_until_forall.
Qed.

(** A text that has a [p] character is what comes before the last one,
    that character, and what comes after it. *)
Lemma after_last_split (p : gunichar -> bool) (s : ustring) :
  existsb p s = true ->
  exists before d, s = before ++ d :: after_last p s /\ p d = true.
Proof.
  intros H. rewrite <- existsb_rev in H.
  destruct (take_until_split p (rev s) H) as (d & rest & Hs & Hd).
  exists (rev rest), d. split; [|assumption].
  unfold after_last. rewrite <- (rev_involutive s), Hs at 1.
  rewrite rev_app_distr. simpl. now rewrite <- app_assoc.
Qed.

Lemma after_last_none (p : gunichar -> bool) (s : ustring) :
  existsb p s = false -> after_last p s = s.
Proof.
  intros H. unfold after_last. rewrite take_until_none by now rewrite existsb_rev.
  apply rev_involutive.
Qed.

Lemma forall_not_existsb (p : gunichar -> bool) (s : ustring) :
  Forall (fun c => p c = false) s <-> existsb p s = false.
Proof.
  induction s as [|c s IH]; simpl.
  - split; [reflexivity|constructor].
  - rewrite orb_false_iff, <- IH. split.
    + intros H. inversion H. now split.
    + intros [H1 H2]. now constructor.
Qed.

Lemma find_last_of_from_none (p : gunichar -> bool) (s : ustring) (i found : N) :
  existsb p s = false -> find_last_of_from p s i found = found.
Proof.
  revert i found. induction s as [|c s IH]; intros i found; simpl; [reflexivity|].
  destruct (p c); [discriminate|]. simpl. intros H. now apply IH.
Qed.

Lemma find_last_of_from_app (p : gunichar -> bool) (a b : ustring) (i found : N) :
  find_last_of_from p (a ++ b) i found
  = find_last_of_from p b (i + ulen a) (find_last_of_from p a i found).
Proof.
  revert i found. induction a as [|c a IH]; intros i found; simpl.
  - f_equal. unfold ulen. simpl. lia.
  - rewrite IH. f_equal. unfold ulen. simpl length. lia.
Qed.

Lemma find_last_of_last (p : gunichar -> bool) (before after : ustring) (d : gunichar) :
  p d = true -> existsb p after = false ->
  find_last_of p (before ++ d :: after) = ulen before.
Proof.
  intros Hd Hafter. unfold find_last_of.
  rewrite find_last_of_from_app. simpl. rewrite Hd.
  rewrite find_last_of_from_none by assumption. lia.
Qed.

Lemma upto_sep_take_until (s : ustring) : upto_sep s = take_until is_sep s.
Proof. induction s as [|c s IH]; simpl; [reflexivity|]. now rewrite IH. Qed.

Lemma basename_last_segment (name : ustring) :
  name <> [] -> is_sep (last name 0) = false ->
  path_get_basename name = last_segment name.
Proof.
  intros Hne Hlast. unfold path_get_basename, last_segment, after_last.
  destruct name as [|c name]; [congruence|].
  assert (Hr : rstrip_sep (c :: name) = c :: name).
  { unfold rstrip_sep.
    destruct (exists_last Hne) as (front & z & Hz). rewrite Hz in *.
    rewrite last_last in Hlast. rewrite rev_app_distr. simpl.
    rewrite Hlast. simpl. now rewrite rev_involutive. }
  rewrite Hr. now rewrite upto_sep_take_until.
Qed.

Lemma last_segment_suffix (name : ustring) :
  exists dir, name = dir ++ last_segment name.
Proof.
  unfold last_segment. destruct (existsb is_sep name) eqn:E.
  - destruct (after_last_split is_sep name E) as (before & d & Hs & _).
    exists (before ++ [d]). now rewrite <- app_assoc.
  - exists []. now rewrite after_last_none.
Qed.

Lemma is_dot_not_blank (c : gunichar) : is_dot c = true -> is_blank c = false.
Proof.
  unfold is_dot, is_blank. intros H. apply N.eqb_eq in H. now subst c.
Qed.

(** The test of the code on the base name is the one of the
    specification on the segment. *)
Lemma has_extension_recognized (seg : ustring) :
  ulen seg < size_modulus ->
  has_extension seg = extension_recognized seg.
Proof.
  intros Hfit. unfold has_extension, extension_recognized.
  destruct (existsb is_dot seg) eqn:Hdot.
  2:{ unfold find_last_of. rewrite find_last_of_from_none by assumption.
      now rewrite N.eqb_refl. }
  destruct (after_last_split is_dot seg Hdot) as (before & d & Hs & Hd).
  pose proof (after_last_forall is_dot seg) as Hafter.
  apply forall_not_existsb in Hafter.
  set (after := after_last is_dot seg) in *.
  assert (Hlen : ulen seg = ulen before + 1 + ulen after).
  { rewrite Hs at 1. rewrite ulen_app. unfold ulen. simpl length. lia. }
  assert (Hlastdot : find_last_of is_dot seg = ulen before).
  { rewrite Hs at 1. now apply find_last_of_last. }
  rewrite Hlastdot.
  assert (Hnp : (ulen before =? npos) = false).
  { apply N.eqb_neq. unfold npos. lia. }
  rewrite Hnp. cbn [negb andb].
  destruct (existsb is_blank after) eqn:Hws; cbn [negb].
  - destruct (after_last_split is_blank after Hws) as (a1 & w & Ha & Hw).
    pose proof (after_last_forall is_blank after) as Ha2.
    apply forall_not_existsb in Ha2.
    assert (Hpos : find_last_of is_blank seg = ulen before + 1 + ulen a1).
    { rewrite Hs at 1. rewrite Ha at 1.
      replace (before ++ d :: a1 ++ w :: after_last is_blank after)
        with ((before ++ d :: a1) ++ w :: after_last is_blank after)
        by (rewrite <- app_assoc; reflexivity).
      rewrite find_last_of_last by assumption.
      rewrite ulen_app. unfold ulen. simpl length. lia. }
    assert (Ha1 : ulen a1 < ulen after).
    { rewrite Ha at 1. rewrite ulen_app. unfold ulen. simpl length. lia. }
    rewrite Hpos.
    replace (ulen before + 1 + ulen a1 =? npos) with false
      by (symmetry; apply N.eqb_neq; unfold npos; lia).
    replace (ulen before + 1 + ulen a1 <? ulen before) with false
      by (symmetry; apply N.ltb_ge; lia).
    reflexivity.
  - assert (Hpos : find_last_of is_blank seg = find_last_of is_blank before).
    { rewrite Hs at 1. unfold find_last_of. rewrite find_last_of_from_app.
      simpl. rewrite (is_dot_not_blank d Hd).
      now rewrite find_last_of_from_none by assumption. }
    rewrite Hpos.
    destruct (find_last_of_bound is_blank before) as [H|H].
    + now rewrite H, N.eqb_refl.
    + apply N.ltb_lt in H. rewrite H. apply orb_true_r.
Qed.

Lemma firstn_exact (a b : ustring) : firstn (length a) (a ++ b) = a.
Proof. induction a as [|c a IH]; simpl; [reflexivity|now rewrite IH]. Qed.

Lemma skipn_exact (a b : ustring) : skipn (length a) (a ++ b) = b.
Proof. induction a as [|c a IH]; simpl; [reflexivity|assumption]. Qed.

(** For a name that does not end with a separator the code follows the
    specification: the extension is the text after the last dot of the
    last segment when no blank follows that dot, and then the name is the
    stem, a dot and the extension; otherwise the extension is empty and
    the name is left whole. *)
Lemma extension_matches_last_segment (name : ustring) :
  fits name -> is_sep (last name 0) = false ->
  getExtension name = extension_of name
  /\ (if extension_recognized (last_segment name)
      then name = removeExtension name ++ ch "." :: getExtension name
      else removeExtension name = name).
Proof.
  intros Hfit Hlast.
  destruct name as [|c0 name0] eqn:Hname; [split; reflexivity|].
  rewrite <- Hname in *.
  assert (Hne : name <> []) by (rewrite Hname; discriminate).
  pose proof (basename_last_segment name Hne Hlast) as Hb.
  destruct (last_segment_suffix name) as (dir & Hdir).
  set (seg := last_segment name) in *.
  assert (Hseg : ulen seg < size_modulus).
  { unfold fits in Hfit. rewrite Hdir, ulen_app in Hfit. lia. }
  pose proof (has_extension_recognized seg Hseg) as Hhas.
  unfold extension_of. fold seg.
  destruct (extension_recognized seg) eqn:Hrec.
  - rewrite <- Hb in Hhas.
    destruct (extension_cut name Hfit Hne Hhas) as (_ & Hrem & Hget).
    rewrite Hb in Hrem, Hget.
    assert (Hdot : existsb is_dot seg = true).
    { unfold extension_recognized in Hrec. now apply andb_true_iff in Hrec. }
    destruct (after_last_split is_dot seg Hdot) as (before & d & Hs & Hd).
    pose proof (after_last_forall is_dot seg) as Hafter.
    apply forall_not_existsb in Hafter.
    assert (Hlastdot : find_last_of is_dot seg = ulen before).
    { rewrite Hs at 1. now apply find_last_of_last. }
    assert (Hd46 : d = ch ".") by (unfold is_dot in Hd; now apply N.eqb_eq in Hd).
    assert (Hk : N.to_nat (ulen name - (ulen seg - find_last_of is_dot seg))
                 = length (dir ++ before)).
    { rewrite Hlastdot. rewrite Hdir at 1. rewrite Hs at 1 2.
      rewrite !ulen_app. unfold ulen. rewrite length_app. simpl length. lia. }
    rewrite Hk in Hrem, Hget.
    assert (Hsplit : name = (dir ++ before) ++ d :: after_last is_dot seg).
    { rewrite Hdir at 1. rewrite Hs at 1. now rewrite <- app_assoc. }
    rewrite Hsplit in Hrem at 2. rewrite firstn_exact in Hrem.
    assert (Hskip : skipn (S (length (dir ++ before)))
                      ((dir ++ before) ++ d :: after_last is_dot seg)
                    = after_last is_dot seg).
    { replace (S (length (dir ++ before))) with (length ((dir ++ before) ++ [d]))
        by (rewrite (length_app (dir ++ before)); simpl; lia).
      replace ((dir ++ before) ++ d :: after_last is_dot seg)
        with (((dir ++ before) ++ [d]) ++ after_last is_dot seg)
        by (rewrite <- app_assoc; reflexivity).
      apply skipn_exact. }
    rewrite Hsplit in Hget at 2. rewrite Hskip in Hget.
    split; [assumption|].
    rewrite Hrem, Hget, <- Hd46. exact Hsplit.
  - rewrite <- Hb in Hhas. unfold getExtension, removeExtension. rewrite Hhas. now split.
Qed.

(** Stem and extension are normalized each with its own setting and put
    back together around the dot. *)
Lemma normalized_name_split (params : Params) (name : ustring) :
  getExtension name <> [] ->
  normalized_name params name
  = map (norm_char (allow_whitespace params) (name_norm params)) (removeExtension name)
    ++ ch "." :: map (norm_char (allow_whitespace params) (ext_norm params)) (getExtension name).
Proof.
  intros Hext. unfold normalized_name, split_ext.
  destruct (getExtension name) as [|e ext]; [congruence|]. cbn [empty negb map].
  f_equal. f_equal. now destruct (allow_whitespace params), (ext_norm params).
Qed.

Lemma normalized_name_whole (params : Params) (name : ustring) :
  getExtension name = [] ->
  normalized_name params name
  = map (norm_char (allow_whitespace params) (name_norm params)) name.
Proof.
  intros Hext. unfold normalized_name, split_ext. rewrite Hext. cbn [empty negb map].
  apply app_nil_r.
Qed.

Section RenameFacts.

Variable file_exists : ustring -> bool.
Variable getParamFile : ustring -> ustring.

(** Under the rename policy, when the numbered names before [k] are taken
    and the one at [k] is free, the plan is made for that name: it is the
    primary destination, and the parameter file and the sidecars are
    named after it.  The numbered name is joined to the directory of the
    source. *)
Lemma get_targets_rename (fuel : nat) (params : Params) (fd : FramesMetaData) (k : Z) :
  let fn := getFileName fd in
  let dir := path_get_dirname fn in
  let newname := fst (get_new_name params fd) in
  let newpath := if g_path_is_absolute newname then newname
                 else build_filename dir newname in
  file_exists newpath = true -> on_existing params = RENAME ->
  (1 <= k <= INT_MAX)%Z ->
  (forall j, (1 <= j < k)%Z ->
     file_exists (build_filename dir (probe_name newname j)) = true) ->
  file_exists (build_filename dir (probe_name newname k)) = false ->
  (Z.to_nat k <= fuel)%nat ->
  get_targets file_exists getParamFile fuel params fd
  = Some (plan_targets file_exists getParamFile fn
            (build_filename dir (probe_name newname k)) (sidecars params),
          snd (get_new_name params fd)).
Proof.
  cbv zeta. unfold get_targets, probe_name. intros Hex Hren Hk Hbusy Hfree Hfuel.
  destruct (get_new_name params fd) as [newname params1] eqn:Hn. cbn [fst snd] in *.
  assert (Hp : on_existing params1 = on_existing params /\ sidecars params1 = sidecars params).
  { unfold get_new_name in Hn. destruct (render_all _ _ _). injection Hn as _ <-. now split. }
  destruct Hp as [Hoe Hsc]. rewrite Hex, Hoe, Hren.
  assert (Hext : (if negb (empty (getExtension newname))
                  then ch "." :: getExtension newname else getExtension newname)
                 = (if empty (getExtension newname) then []
                    else ch "." :: getExtension newname))
    by (destruct (getExtension newname); reflexivity).
  rewrite Hext.
  rewrite (probe_first_free file_exists _ _ _ k fuel 1); try assumption; try lia.
  now rewrite push_targets_spec, Hsc.
Qed.

End RenameFacts.

(** A literal segment that is absolute but does not open the pattern is
    accepted: only the first element is checked. *)
Example literal_after_field_compiles :
  parse_pattern (u "%f/abs")
  = Some [FramesDataPattern FileName; FixedPattern (u "/abs")].
Proof. vm_compute. reflexivity. Qed.

(** * Further properties of the rename engine *)

(** ** Sanitized text *)

Lemma substitute_valid (win32 allow_sep : bool) (c : gunichar) :
  is_valid_char win32 (substitute win32 allow_sep c) allow_sep = true.
Proof.
  unfold substitute. destruct (is_valid_char win32 c allow_sep) eqn:Hv; [assumption|].
  destruct (c =? 47), win32, allow_sep; reflexivity.
Qed.

Lemma substitute_fixed (win32 allow_sep : bool) (c : gunichar) :
  is_valid_char win32 c allow_sep = true -> substitute win32 allow_sep c = c.
Proof. unfold substitute. now intros ->. Qed.

(** X1: what [make_valid] returns is made of valid characters only, has
    the length of its input, and is left as it is by a second pass. *)
Theorem make_valid_is_valid (win32 allow_sep : bool) (s : ustring) :
  all_valid win32 allow_sep (make_valid win32 s allow_sep) = true
  /\ length (make_valid win32 s allow_sep) = length s
  /\ make_valid win32 (make_valid win32 s allow_sep) allow_sep
     = make_valid win32 s allow_sep.
Proof.
  rewrite !make_valid_map. unfold all_valid. split; [|split].
  - rewrite forallb_forall. intros c Hc. apply in_map_iff in Hc.
    destruct Hc as (d & <- & _). apply substitute_valid.
  - apply length_map.
  - rewrite map_map. apply map_ext.
    intros c. apply substitute_fixed, substitute_valid.
Qed.

(** ** [trim] *)

Lemma last_is_nth (s : ustring) : last s 0 = nth (length s - 1) s 0.
Proof.
  induction s as [|c s IH]; [reflexivity|].
  destruct s as [|d s]; [reflexivity|].
  change (last (c :: d :: s) 0) with (last (d :: s) 0). rewrite IH.
  simpl length. replace (S (S (length s)) - 1)%nat with (S (length s - 0)) by lia.
  simpl. now rewrite Nat.sub_0_r.
Qed.

Lemma forall_nth_range (P : gunichar -> Prop) (s : ustring) :
  (forall j, (j < length s)%nat -> P (nth j s 0)) -> Forall P s.
Proof.
  intros H. apply Forall_forall. intros c Hc.
  destruct (In_nth s c 0 Hc) as (k & Hk & <-). now apply H.
Qed.

Lemma hd_is_at (s : ustring) : hd 0 s = at_ s 0.
Proof. now destruct s. Qed.

Lemma last_is_at (s : ustring) : last s 0 = at_ s (ulen s - 1).
Proof.
  rewrite last_is_nth, at_nth. f_equal. unfold ulen. lia.
Qed.

Lemma substr_fits (s : ustring) (pos len : N) :
  fits s -> substr s pos len = firstn (N.to_nat len) (skipn (N.to_nat pos) s).
Proof.
  intros Hfit. unfold substr. rewrite dropN_skipn.
  destruct (N.eqb_spec len npos) as [->|Hne]; [|apply takeN_firstn].
  symmetry. apply firstn_all2. rewrite length_skipn.
  unfold fits, ulen, npos in *. lia.
Qed.

(** The two ends that [trim] finds, for a string that is not all
    spaces. *)
Lemma trim_bounds (s : ustring) :
  fits s -> ~ Forall (fun c => isspace c = true) s ->
  exists i n,
    i < n <= ulen s
    /\ trim s = firstn (N.to_nat (n - i)) (skipn (N.to_nat i) s)
    /\ isspace (at_ s i) = false
    /\ isspace (at_ s (n - 1)) = false
    /\ (forall j, j < i -> isspace (at_ s j) = true)
    /\ (forall j, n <= j < ulen s -> isspace (at_ s j) = true).
Proof.
  intros Hfit Hnot.
  destruct (trim_run_spec s) as (i & n & Htrim & Hi & Hn & Hex1 & Hall1 & Hex2 & Hall2 & _).
  assert (Hilt : i < ulen s).
  { destruct (N.eq_dec i (ulen s)) as [E|E]; [|lia].
    exfalso. apply Hnot. apply all_space_at. intros j Hj. apply Hall1. lia. }
  assert (Hin : i < n).
  { destruct (N.ltb_spec i n) as [H|H]; [assumption|].
    rewrite Hall2 in Hex1 by lia. discriminate. }
  exists i, n. split; [lia|]. split.
  - rewrite Htrim. unfold fits in Hfit.
    rewrite size_sub_exact by lia.
    now apply substr_fits.
  - split; [assumption|]. split; [|split; assumption].
    destruct Hex2 as [H|H]; [lia|assumption].
Qed.

Lemma trim_all_space (s : ustring) :
  Forall (fun c => isspace c = true) s -> trim s = [].
Proof.
  intros Hall.
  destruct (trim_run_spec s) as (i & n & Htrim & Hi & Hn & Hex1 & _).
  assert (E : i = ulen s).
  { destruct (N.eq_dec i (ulen s)) as [E|E]; [assumption|].
    rewrite all_space_at in Hall. rewrite Hall in Hex1 by lia. discriminate. }
  rewrite Htrim, E. unfold substr. rewrite dropN_skipn.
  unfold ulen. rewrite Nat2N.id, skipn_all.
  now destruct (_ =? npos).
Qed.

Lemma all_space_dec (s : ustring) :
  {Forall (fun c => isspace c = true) s} + {~ Forall (fun c => isspace c = true) s}.
Proof.
  apply Forall_dec. intros c. destruct (isspace c); [now left|right; discriminate].
Qed.

(** A string with no space at either end is left as it is. *)
Lemma trim_fixed (t : ustring) : fits t -> trimmed t -> trim t = t.
Proof.
  intros Hfit [->|[Hhd Hlast]]; [reflexivity|].
  destruct t as [|c0 t0] eqn:Ht; [reflexivity|]. rewrite <- Ht in *.
  assert (Hnot : ~ Forall (fun c => isspace c = true) t).
  { intros H. rewrite Ht in H, Hhd. inversion H as [|? ? Hc _]. simpl in Hhd. congruence. }
  destruct (trim_bounds t Hfit Hnot) as (i & n & Hin & Htrim & _ & _ & Hall1 & Hall2).
  rewrite hd_is_at in Hhd. rewrite last_is_at in Hlast.
  assert (Hlen : 0 < ulen t) by (rewrite Ht; unfold ulen; simpl; lia).
  assert (Hi : i = 0).
  { destruct (N.eq_dec i 0) as [E|E]; [assumption|].
    rewrite Hall1 in Hhd by lia. discriminate. }
  assert (Hn : n = ulen t).
  { destruct (N.eq_dec n (ulen t)) as [E|E]; [assumption|].
    rewrite Hall2 in Hlast by lia. discriminate. }
  rewrite Htrim, Hi, Hn. simpl skipn. rewrite N.sub_0_r.
  unfold ulen. rewrite Nat2N.id. apply firstn_all.
Qed.

(** What [trim] does, in full. *)
Lemma trim_split (s : ustring) (Hfit : fits s) :
  (exists lead trail,
     s = lead ++ trim s ++ trail
     /\ Forall (fun c => isspace c = true) lead
     /\ Forall (fun c => isspace c = true) trail)
  /\ trimmed (trim s)
  /\ trim (trim s) = trim s.
Proof.
  assert (Hmain :
    (exists lead trail,
       s = lead ++ trim s ++ trail
       /\ Forall (fun c => isspace c = true) lead
       /\ Forall (fun c => isspace c = true) trail)
    /\ trimmed (trim s)).
  { destruct (all_space_dec s) as [Hall|Hnot].
    - rewrite (trim_all_space s Hall). split; [|now left].
      exists s, []. rewrite app_nil_r. repeat split; [assumption|constructor].
    - destruct (trim_bounds s Hfit Hnot) as (i & n & Hin & Htrim & Hex1 & Hex2 & Hall1 & Hall2).
      assert (Hlen : (N.to_nat n <= length s)%nat) by (unfold ulen in Hin; lia).
      split.
      + exists (firstn (N.to_nat i) s), (skipn (N.to_nat n) s). split; [|split].
        * rewrite Htrim.
          rewrite <- (firstn_skipn (N.to_nat i) s) at 1. f_equal.
          rewrite <- (firstn_skipn (N.to_nat (n - i)) (skipn (N.to_nat i) s)) at 1.
          f_equal. rewrite skipn_skipn. f_equal. lia.
        * apply forall_nth_range. intros j Hj. rewrite length_firstn in Hj.
          rewrite nth_firstn. replace (j <? N.to_nat i)%nat with true
            by (symmetry; apply Nat.ltb_lt; lia).
          specialize (Hall1 (N.of_nat j)). rewrite at_nth, Nat2N.id in Hall1.
          apply Hall1. lia.
        * apply forall_nth_range. intros j Hj. rewrite length_skipn in Hj.
          rewrite nth_skipn.
          specialize (Hall2 (N.of_nat (N.to_nat n + j))).
          rewrite at_nth, Nat2N.id in Hall2. apply Hall2. unfold ulen. lia.
      + right. rewrite hd_is_at, last_is_at, Htrim.
        assert (Hl : length (firstn (N.to_nat (n - i)) (skipn (N.to_nat i) s))
                     = N.to_nat (n - i)).
        { rewrite length_firstn, length_skipn. unfold ulen in Hin. lia. }
        rewrite !at_nth. unfold ulen. rewrite Hl, !nth_firstn, !nth_skipn.
        replace (N.to_nat 0 <? N.to_nat (n - i))%nat with true
          by (symmetry; apply Nat.ltb_lt; lia).
        replace (N.to_nat (N.of_nat (N.to_nat (n - i)) - 1) <? N.to_nat (n - i))%nat
          with true by (symmetry; apply Nat.ltb_lt; lia).
        rewrite at_nth in Hex1, Hex2. split.
        * now replace (N.to_nat i + N.to_nat 0)%nat with (N.to_nat i) by lia.
        * now replace (N.to_nat i + N.to_nat (N.of_nat (N.to_nat (n - i)) - 1))%nat
            with (N.to_nat (n - 1)) by lia. }
  destruct Hmain as [Hsplit Htr]. split; [assumption|]. split; [assumption|].
  apply trim_fixed; [|assumption].
  destruct Hsplit as (lead & trail & Hs & _). unfold fits in *.
  rewrite Hs in Hfit. rewrite !ulen_app in Hfit. lia.
Qed.


(** X2: [trim] takes away the spaces at both ends and nothing else: the
    string is a run of spaces, the result, and a run of spaces; the result
    is empty or has no space at either end; trimming it again changes
    nothing. *)
Theorem trim_strips_both_ends (s : ustring) (Hfit : fits s) :
  (exists lead trail,
     s = lead ++ trim s ++ trail
     /\ Forall (fun c => isspace c = true) lead
     /\ Forall (fun c => isspace c = true) trail)
  /\ trimmed (trim s)
  /\ trim (trim s) = trim s.
Proof. exact (trim_split s Hfit). Qed.

Lemma trim_strips_both_ends_witness :
  trim (trim (u "  +thumb ")) = trim (u "  +thumb ").
Proof.
  apply (trim_strips_both_ends (u "  +thumb ")). vm_compute. reflexivity.
Defined.

(** ** [parse_sidecars]: what an entry looks like *)

Lemma substr_infix (s : ustring) (pos len : N) :
  fits s -> exists a b, s = a ++ substr s pos len ++ b.
Proof.
  intros Hfit. rewrite substr_fits by assumption.
  exists (firstn (N.to_nat pos) s),
         (skipn (N.to_nat len) (skipn (N.to_nat pos) s)).
  now rewrite firstn_skipn, firstn_skipn.
Qed.

Lemma trim_of_piece (s : ustring) (pos len : N) :
  fits s -> trim (substr s pos len) <> [] ->
  entry_ok s (trim (substr s pos len)).
Proof.
  intros Hfit Hne.
  destruct (substr_infix s pos len Hfit) as (a & b & Hs).
  assert (Hpiece : fits (substr s pos len)).
  { unfold fits in *. rewrite Hs, !ulen_app in Hfit. lia. }
  destruct (trim_split _ Hpiece) as ((lead & trail & Hp & _ & _) & Htr & _).
  split; [assumption|].
  destruct Htr as [E|[H1 H2]]; [congruence|].
  split; [assumption|]. split; [assumption|].
  exists (a ++ lead), (trail ++ b).
  rewrite Hs at 1. rewrite Hp at 1. now rewrite <- !app_assoc.
Qed.

Lemma sidecars_loop_entries (s : ustring) (Hfit : fits s) (fuel : nat) :
  forall (prev i : N) (out : list ustring),
    Forall (entry_ok s) out ->
    Forall (entry_ok s) (snd (sidecars_loop fuel s prev i out)).
Proof.
  induction fuel as [|fuel IH]; intros prev i out Hout; simpl; [assumption|].
  destruct (i <? ulen s); [|assumption].
  destruct (is_ch (at_ s i) ";"); apply IH; [|assumption].
  destruct (trim (substr s prev (i - prev))) eqn:Ht; simpl; [assumption|].
  apply Forall_app. split; [assumption|]. constructor; [|constructor].
  rewrite <- Ht. apply trim_of_piece; [assumption|]. now rewrite Ht.
Qed.

Lemma parse_sidecars_entries (s : ustring) :
  fits s -> Forall (entry_ok s) (snd (parse_sidecars s)).
Proof.
  intros Hfit. unfold parse_sidecars.
  pose proof (sidecars_loop_entries s Hfit (S (length s)) 0 0 [] (Forall_nil _)) as H.
  destruct (sidecars_loop (S (length s)) s 0 0 []) as [prev out]. cbn [snd] in *.
  destruct (prev <? ulen s); [|assumption].
  destruct (trim (substr_from s prev)) eqn:Ht; simpl; [assumption|].
  apply Forall_app. split; [assumption|]. constructor; [|constructor].
  rewrite <- Ht. apply trim_of_piece; [assumption|]. unfold substr_from in Ht. now rewrite Ht.
Qed.

(** X3: [parse_sidecars] always reports success, and every entry it
    returns is a piece of the text that is not empty and has no space at
    either end, so its first character, which [get_targets] tests for
    ['+'], is a character of the text. *)
Theorem parse_sidecars_entries_trimmed (s : ustring) (Hfit : fits s) :
  fst (parse_sidecars s) = true
  /\ Forall (entry_ok s) (snd (parse_sidecars s)).
Proof.
  split; [|now apply parse_sidecars_entries].
  unfold parse_sidecars. now destruct (sidecars_loop _ _ _ _ _).
Qed.

Lemma parse_sidecars_entries_trimmed_witness :
  Forall (entry_ok (u " xmp ; +thumb ;")) (snd (parse_sidecars (u " xmp ; +thumb ;"))).
Proof.
  apply (parse_sidecars_entries_trimmed (u " xmp ; +thumb ;")). vm_compute. reflexivity.
Defined.

(** ** What [parse_pattern] emits *)

Lemma parse_loop_scan (s : ustring) (k : nat) :
  forall (fuel : nat) (prev i : N) (out : list Pattern),
    (forall j, i <= j < i + N.of_nat k -> at_ s j <> ch "%") ->
    i + N.of_nat k <= ulen s ->
    parse_loop (k + fuel) s prev i out = parse_loop fuel s prev (i + N.of_nat k) out.
Proof.
  induction k as [|k IH]; intros fuel prev i out Hfree Hlen.
  - simpl. f_equal. lia.
  - change (S k + fuel)%nat with (S (k + fuel)). rewrite parse_loop_S.
    replace (i <? ulen s) with true by (symmetry; apply N.ltb_lt; lia).
    assert (Hc : is_ch (at_ s i) "%" = false).
    { unfold is_ch. apply N.eqb_neq. apply Hfree. lia. }
    rewrite Hc, is_valid_char_posix_sep. cbn [negb].
    rewrite IH; [f_equal; lia| |lia].
    intros j Hj. apply Hfree. lia.
Qed.

Lemma at_no_sigil (s : ustring) (j : N) : ~ In (ch "%") s -> at_ s j <> ch "%".
Proof.
  intros Hno E. destruct (N.ltb_spec j (ulen s)) as [H|H].
  - apply Hno. rewrite <- E. now apply at_in.
  - rewrite at_terminator in E by assumption. discriminate.
Qed.

Lemma literal_compiles_lemma (s : ustring) :
  s <> [] -> ~ In (ch "%") s -> g_path_is_absolute s = false ->
  parse_pattern s = Some [FixedPattern s].
Proof.
  intros Hne Hno Habs. unfold parse_pattern.
  replace (S (length s)) with (length s + 1)%nat by lia.
  rewrite (parse_loop_scan s (length s) 1 0 0 []);
    [|intros j _; now apply at_no_sigil|unfold ulen; lia].
  rewrite parse_loop_S. fold (ulen s). rewrite N.add_0_l, N.ltb_irrefl.
  replace (0 <? ulen s) with true
    by (symmetry; apply N.ltb_lt; destruct s; [congruence|unfold ulen; simpl; lia]).
  cbn [app]. unfold new_FixedPattern, substr_from, substr. rewrite N.eqb_refl.
  assert (Hd : dropN 0 s = s) by now destruct s.
  rewrite Hd, make_valid_keep, Habs. reflexivity.
Qed.

(** X4: a text with no sigil, not empty and not starting with a
    separator, compiles to the one literal segment that is the text
    itself, and that segment renders as the text whatever the file and the
    counter. *)
Theorem literal_compiles (s : ustring) (fd : FramesMetaData) (idx : Z)
    (Hne : s <> []) (Hno : ~ In (ch "%") s) (Hrel : g_path_is_absolute s = false) :
  parse_pattern s = Some [FixedPattern s]
  /\ render_all [FixedPattern s] fd idx = (s, idx).
Proof.
  split; [now apply literal_compiles_lemma|reflexivity].
Qed.

Lemma literal_compiles_witness :
  parse_pattern (u "holiday/img") = Some [FixedPattern (u "holiday/img")].
Proof.
  apply (literal_compiles (u "holiday/img") (sample_fd (u "a.cr2")) 1).
  - discriminate.
  - vm_compute. intros H. repeat (destruct H as [H|H]; [discriminate|]). exact H.
  - reflexivity.
Defined.

Lemma in_substr (s : ustring) (pos len : N) (c : gunichar) :
  fits s -> In c (substr s pos len) ->
  exists j, pos <= j < pos + len /\ j < ulen s /\ at_ s j = c.
Proof.
  intros Hfit Hin. rewrite substr_fits in Hin by assumption.
  destruct (In_nth _ c 0 Hin) as (k & Hk & Hnth).
  rewrite length_firstn, length_skipn in Hk.
  rewrite nth_firstn in Hnth.
  replace (k <? N.to_nat len)%nat with true in Hnth by (symmetry; apply Nat.ltb_lt; lia).
  rewrite nth_skipn in Hnth.
  exists (pos + N.of_nat k). split; [lia|]. split; [unfold ulen; lia|].
  rewrite at_nth. now replace (N.to_nat (pos + N.of_nat k)) with (N.to_nat pos + k)%nat by lia.
Qed.

Lemma substr_nonempty (s : ustring) (pos len : N) :
  fits s -> pos < ulen s -> 0 < len -> substr s pos len <> [].
Proof.
  intros Hfit Hpos Hlen E. apply (f_equal (@length N)) in E.
  rewrite substr_fits in E by assumption.
  rewrite length_firstn, length_skipn in E. unfold ulen in Hpos. simpl in E. lia.
Qed.

Lemma scan_bracket_prefix (rest : ustring) (j0 : N) :
  ~ In (ch "]") (firstn (N.to_nat (scan_bracket rest j0 - j0)) rest).
Proof.
  revert j0. induction rest as [|c rest IH]; intros j0; simpl.
  - rewrite firstn_nil. intros [].
  - destruct (is_ch c "]") eqn:E.
    + rewrite N.sub_diag. simpl. intros [].
    + pose proof (scan_bracket_ge rest (j0 + 1)) as Hge.
      replace (N.to_nat (scan_bracket rest (j0 + 1) - j0))
        with (S (N.to_nat (scan_bracket rest (j0 + 1) - (j0 + 1)))) by lia.
      simpl. intros [H|H].
      * unfold is_ch in E. apply N.eqb_neq in E. apply E. exact H.
      * now apply (IH (j0 + 1)).
Qed.

Lemma no_adjacent_fixed_snoc (out : list Pattern) (p : Pattern) :
  no_adjacent_fixed out -> ends_unfixed out \/ is_fixed p = false ->
  no_adjacent_fixed (out ++ [p]).
Proof.
  induction out as [|a out IH]; intros Hno Hend; [exact I|].
  destruct out as [|b out].
  - simpl. split; [|exact I].
    destruct Hend as [H|H]; [unfold ends_unfixed in H; simpl in H; now rewrite H|].
    rewrite H. apply andb_false_r.
  - destruct Hno as [Hab Hrest]. cbn [app]. split; [assumption|].
    apply IH; [assumption|].
    destruct Hend as [H|H]; [left|now right].
    unfold ends_unfixed in *. cbn [rev] in *.
    destruct (rev out ++ [b]) eqn:E; [destruct (rev out); discriminate|].
    cbn [app] in H. exact H.
Qed.

Lemma ends_unfixed_snoc (out : list Pattern) (p : Pattern) :
  is_fixed p = false -> ends_unfixed (out ++ [p]).
Proof. intros H. unfold ends_unfixed. now rewrite rev_app_distr. Qed.

Lemma isdigit_value (c : gunichar) : isdigit c = true -> c - ch "0" <= 9.
Proof.
  unfold isdigit. change (ch "0") with 48. intros H. apply andb_true_iff in H.
  destruct H as [H1 H2]. apply N.leb_le in H1, H2. lia.
Qed.

(** What one directive adds to the pattern. *)
Lemma parse_directive_element (s : ustring) (i : N) (c : gunichar)
    (out : list Pattern) (i' : N) (out' : list Pattern) :
  fits s -> i <= ulen s ->
  parse_directive s (ulen s) i c out = Some (i', out') ->
  i <= i' <= ulen s
  /\ exists p, out' = out ++ [p] /\ is_fixed p = false /\ element_ok p.
Proof.
  intros Hfit Hi. unfold parse_directive. intros H.
  destruct (is_ch c "n").
  - destruct (i <? ulen s) eqn:Hlt; cbn [andb] in H.
    + apply N.ltb_lt in Hlt. destruct (isdigit (at_ s i)) eqn:Hd.
      * injection H as <- <-. split; [lia|].
        eexists. split; [reflexivity|]. split; [reflexivity|].
        now apply isdigit_value.
      * injection H as <- <-. split; [lia|].
        eexists. split; [reflexivity|]. split; [reflexivity|]. simpl. lia.
    + injection H as <- <-. split; [lia|].
      eexists. split; [reflexivity|]. split; [reflexivity|]. simpl. lia.
  - destruct (is_ch c "T").
    + destruct (_ && _); [|discriminate].
      destruct (N.ltb_spec (scan_bracket (dropN (i + 1) s) (i + 1)) (ulen s)) as [Hj|Hj];
        [|discriminate].
      injection H as <- <-.
      pose proof (scan_bracket_ge (dropN (i + 1) s) (i + 1)) as Hge.
      split; [lia|].
      eexists. split; [reflexivity|]. split; [reflexivity|].
      cbn [element_ok]. rewrite substr_fits by assumption.
      pose proof (scan_bracket_prefix (dropN (i + 1) s) (i + 1)) as Hp.
      rewrite dropN_skipn in *.
      now replace (scan_bracket (skipn (N.to_nat (i + 1)) s) (i + 1) - i - 1)
        with (scan_bracket (skipn (N.to_nat (i + 1)) s) (i + 1) - (i + 1)) by lia.
    + destruct (frames_directive c); [|discriminate]. injection H as <- <-.
      split; [lia|]. eexists. split; [reflexivity|]. split; [reflexivity|exact I].
Qed.

(** The literal segment pushed for the characters from [prev] up to
    [i]. *)
Lemma literal_segment_ok (s : ustring) (prev len : N) :
  fits s -> prev < ulen s -> 0 < len ->
  (forall j, prev <= j < prev + len -> j < ulen s -> at_ s j <> ch "%") ->
  element_ok (new_FixedPattern (substr s prev len)).
Proof.
  intros Hfit Hprev Hlen Hfree. unfold new_FixedPattern. rewrite make_valid_keep.
  split; [now apply substr_nonempty|].
  intros Hin. destruct (in_substr s prev len _ Hfit Hin) as (j & Hj & Hjn & Hat).
  now apply (Hfree j).
Qed.

Lemma parse_loop_elements (s : ustring) (Hfit : fits s) (fuel : nat) :
  forall (prev i : N) (out : list Pattern) (prev' : N) (out' : list Pattern),
    prev <= i <= ulen s ->
    (forall j, prev <= j < i -> at_ s j <> ch "%") ->
    Forall element_ok out -> no_adjacent_fixed out -> ends_unfixed out ->
    ulen s <= i + N.of_nat fuel ->
    parse_loop fuel s prev i out = Some (prev', out') ->
    prev' <= ulen s
    /\ (forall j, prev' <= j < ulen s -> at_ s j <> ch "%")
    /\ Forall element_ok out' /\ no_adjacent_fixed out' /\ ends_unfixed out'.
Proof.
  induction fuel as [|fuel IH];
    intros prev i out prev' out' Hpi Hfree Hok Hno Hend Hfuel H.
  - simpl in H. injection H as <- <-. split; [lia|].
    split; [intros j Hj; apply Hfree; lia|now repeat split].
  - rewrite parse_loop_S in H.
    destruct (N.ltb_spec i (ulen s)) as [Hlt|Hge].
    2:{ injection H as <- <-. split; [lia|].
        split; [intros j Hj; apply Hfree; lia|now repeat split]. }
    destruct (is_ch (at_ s i) "%") eqn:Hc.
    + destruct (N.ltb_spec (i + 1) (ulen s)) as [Hlt2|_]; [|discriminate].
      set (out1 := if negb (prev =? i)
                   then out ++ [new_FixedPattern (substr s prev (i - prev))] else out) in *.
      assert (Hout1 : Forall element_ok out1 /\ no_adjacent_fixed out1).
      { unfold out1. destruct (N.eqb_spec prev i) as [E|E]; cbn [negb]; [now split|].
        split.
        - apply Forall_app. split; [assumption|]. constructor; [|constructor].
          apply literal_segment_ok; [assumption|lia|lia|].
          intros j Hj _. apply Hfree. lia.
        - apply no_adjacent_fixed_snoc; [assumption|now left]. }
      destruct Hout1 as [Hok1 Hno1].
      destruct (parse_directive s (ulen s) (i + 2) (at_ s (i + 2 - 1)) out1)
        as [[i2 out2]|] eqn:Hd; [|discriminate].
      apply parse_directive_element in Hd; [|assumption|lia].
      destruct Hd as (Hi2 & p & -> & Hp & Hpok).
      apply (IH i2 i2 (out1 ++ [p]) prev' out'); try assumption; try lia.
      * apply Forall_app. split; [assumption|]. now constructor.
      * apply no_adjacent_fixed_snoc; [assumption|now right].
      * now apply ends_unfixed_snoc.
    + destruct (negb _); [discriminate|].
      apply (IH prev (i + 1) out prev' out'); try assumption; try lia.
      intros j Hj. destruct (N.eq_dec j i) as [->|Hne].
      * unfold is_ch in Hc. now apply N.eqb_neq in Hc.
      * apply Hfree. lia.
Qed.

Lemma parse_pattern_elements (s : ustring) (pat : list Pattern) :
  fits s -> parse_pattern s = Some pat ->
  pat <> [] /\ Forall element_ok pat /\ no_adjacent_fixed pat
  /\ head_absolute pat = false.
Proof.
  intros Hfit. unfold parse_pattern.
  destruct (parse_loop (S (length s)) s 0 0 []) as [[prev out]|] eqn:Hl; [|discriminate].
  apply (parse_loop_elements s Hfit) in Hl;
    [|lia|intros j Hj; lia|constructor|exact I|exact I|unfold ulen; lia].
  destruct Hl as (Hprev & Hfree & Hok & Hno & Hend).
  set (out1 := if prev <? ulen s
               then out ++ [new_FixedPattern (substr_from s prev)] else out).
  assert (Hout1 : Forall element_ok out1 /\ no_adjacent_fixed out1).
  { unfold out1. destruct (N.ltb_spec prev (ulen s)) as [Hlt|Hge]; [|now split]. split.
    - apply Forall_app. split; [assumption|]. constructor; [|constructor].
      unfold substr_from. apply literal_segment_ok; [assumption|assumption| |].
      + unfold npos, size_modulus. simpl. lia.
      + intros j Hj Hjn. apply Hfree. lia.
    - apply no_adjacent_fixed_snoc; [assumption|now left]. }
  destruct Hout1 as [Hok1 Hno1]. intros H.
  destruct out1 as [|p tl] eqn:E; [discriminate|].
  assert (Habs : head_absolute (p :: tl) = false /\ pat = p :: tl).
  { destruct p as [s0| | |]; cbn [head_absolute];
      try (injection H as <-; now split).
    destruct (g_path_is_absolute s0); [discriminate|]. injection H as <-. now split. }
  destruct Habs as [Habs ->]. repeat split; try assumption. discriminate.
Qed.

(** X5: a pattern that compiled is not empty and does not start with an
    absolute literal; each of its literal segments is not empty and holds
    no sigil, no two literal segments follow each other, every sequence
    element has a width of at most 9, and no tag key holds a closing
    bracket. *)
Theorem compiled_pattern_well_formed (s : ustring) (pat : list Pattern)
    (Hfit : fits s) (Hcompiled : parse_pattern s = Some pat) :
  pat <> []
  /\ Forall element_ok pat
  /\ no_adjacent_fixed pat
  /\ head_absolute pat = false.
Proof. exact (parse_pattern_elements s pat Hfit Hcompiled). Qed.

Lemma compiled_pattern_well_formed_witness :
  Forall element_ok
    [FixedPattern (u "a/"); FramesDataPattern FileName; FixedPattern (u "_");
     ProgressivePattern 3; TagPattern (u "Exif.Image.Make")].
Proof.
  apply (compiled_pattern_well_formed (u "a/%f_%n3%T[Exif.Image.Make]")).
  - vm_compute. reflexivity.
  - vm_compute. reflexivity.
Defined.

(** ** The counter across an evaluation *)

Lemma render_counter (p : Pattern) (fd : FramesMetaData) (idx : Z) :
  snd (render p fd idx) = if is_progressive p then int_wrap (idx + 1) else idx.
Proof.
  destruct p as [s_|pad_|func_|tag_]; simpl; try reflexivity.
  - now destruct (_ <? pad_).
  - destruct (_ || _); [|reflexivity]. now destruct (exiv2_findKey fd tag_).
Qed.

Lemma render_all_counter (ps : list Pattern) (fd : FramesMetaData) :
  forall idx : Z,
    (INT_MIN <= idx)%Z -> (idx + Z.of_nat (progressive_count ps) <= INT_MAX)%Z ->
    snd (render_all ps fd idx) = (idx + Z.of_nat (progressive_count ps))%Z.
Proof.
  unfold progressive_count.
  induction ps as [|p ps IH]; intros idx Hlo Hhi; [simpl; lia|].
  rewrite render_all_cons. cbn [snd filter]. rewrite render_counter.
  cbn [filter] in Hhi.
  destruct (is_progressive p); cbn [length] in *; rewrite ?Nat2Z.inj_succ in *.
  - rewrite int_wrap_in_range by lia. rewrite IH by lia. lia.
  - now apply IH.
Qed.

(** X6: evaluating a pattern moves the counter forward by the number of
    sequence elements in it, however the file and the other elements
    render, and changes nothing else in the parameters (within the range
    of [int]); a pattern with no sequence element leaves it alone. *)
Theorem evaluation_advances_counter (params : Params) (fd : FramesMetaData)
    (Hlo : (INT_MIN <= progressive_number params)%Z)
    (Hhi : (progressive_number params + Z.of_nat (progressive_count (pattern params))
            <= INT_MAX)%Z) :
  snd (get_new_name params fd)
  = set_progressive_number params
      (progressive_number params + Z.of_nat (progressive_count (pattern params))).
Proof.
  unfold get_new_name.
  pose proof (render_all_counter (pattern params) fd (progressive_number params) Hlo Hhi) as H.
  destruct (render_all (pattern params) fd (progressive_number params)) as [name idx].
  cbn [snd] in *. now rewrite H.
Qed.

Lemma evaluation_advances_counter_witness :
  snd (get_new_name (sample_params [] numbered_pattern [] SKIP 7) (sample_fd (u "img.cr2")))
  = set_progressive_number (sample_params [] numbered_pattern [] SKIP 7) (7 + 1).
Proof.
  refine (evaluation_advances_counter (sample_params [] numbered_pattern [] SKIP 7)
            (sample_fd (u "img.cr2")) _ _); vm_compute; discriminate.
Defined.

(** ** The policies on characters *)

Ltac solve_chars :=
  repeat match goal with
    | |- context [if ?b then _ else _] => destruct b eqn:?
    end;
  rewrite ?orb_false_iff, ?orb_true_iff, ?andb_false_iff, ?andb_true_iff,
    ?negb_true_iff, ?negb_false_iff,
    ?N.eqb_eq, ?N.eqb_neq, ?N.leb_le, ?N.leb_gt in *;
  try discriminate; lia.

Lemma norm_char_no_space (norm : Normalization) (c : gunichar) :
  isspace (norm_char false norm c) = false.
Proof.
  unfold norm_char, toupper, tolower, UNDERSCORE. cbn [negb andb].
  destruct norm; unfold isspace; solve_chars.
Qed.

Lemma norm_char_upper (allow_ws : bool) (c : gunichar) :
  is_lower (norm_char allow_ws UPPERCASE c) = false.
Proof.
  unfold norm_char, toupper, is_lower. solve_chars.
Qed.

Lemma norm_char_lower (allow_ws : bool) (c : gunichar) :
  is_upper (norm_char allow_ws LOWERCASE c) = false.
Proof.
  unfold norm_char, tolower, is_upper. solve_chars.
Qed.

Lemma forall_map (P : gunichar -> Prop) (f : gunichar -> gunichar) (s : ustring) :
  (forall c, P (f c)) -> Forall P (map f s).
Proof. intros H. induction s; simpl; constructor; auto. Qed.

Lemma normalized_name_forall (P : gunichar -> Prop) (params : Params) (name : ustring) :
  (forall c, P (norm_char (allow_whitespace params) (name_norm params) c)) ->
  (forall c, P (norm_char (allow_whitespace params) (ext_norm params) c)) ->
  Forall P (normalized_name params name).
Proof.
  intros H1 H2. unfold normalized_name. destruct (split_ext name) as [stem ext].
  apply Forall_app. split; now apply forall_map.
Qed.

Lemma get_new_name_no_basedir (params : Params) (fd : FramesMetaData) :
  basedir params = [] \/ basedir params = u "." ->
  fst (get_new_name params fd)
  = normalized_name params
      (fst (render_all (pattern params) fd (progressive_number params))).
Proof.
  intros Hb. unfold get_new_name.
  destruct (render_all (pattern params) fd (progressive_number params)) as [name idx].
  cbn [fst]. destruct Hb as [-> | ->]; reflexivity.
Qed.

(** X7: when whitespace is not allowed, the evaluated name holds no
    whitespace character, whatever the pattern and the metadata put into
    it; with no base directory that is the whole new name. *)
Theorem no_whitespace_when_disallowed (params : Params) (fd : FramesMetaData)
    (name : ustring) (Hws : allow_whitespace params = false)
    (Hbase : basedir params = [] \/ basedir params = u ".") :
  Forall (fun c => isspace c = false) (normalized_name params name)
  /\ Forall (fun c => isspace c = false) (fst (get_new_name params fd)).
Proof.
  assert (H : forall n, Forall (fun c => isspace c = false) (normalized_name params n)).
  { intros n. apply normalized_name_forall; intros c; rewrite Hws; apply norm_char_no_space. }
  split; [apply H|]. rewrite get_new_name_no_basedir by assumption. apply H.
Qed.

Lemma no_whitespace_when_disallowed_witness :
  Forall (fun c => isspace c = false)
    (fst (get_new_name
            {| basedir := []; pattern := [FramesDataPattern Lens; FixedPattern (u " x.jpg")];
               sidecars := []; name_norm := OFF; ext_norm := OFF;
               allow_whitespace := false; on_existing := SKIP; progressive_number := 1 |}
            (sample_fd (u "img.cr2")))).
Proof.
  apply (no_whitespace_when_disallowed _ (sample_fd (u "img.cr2")) []); [reflexivity|now left].
Defined.

(** X8: with both settings on upper case the evaluated name holds no
    lower-case letter, and with both on lower case no upper-case letter
    (ASCII letters, as [toupper] and [tolower] see them). *)
Theorem case_policy_enforced (params : Params) (name : ustring) :
  (name_norm params = UPPERCASE -> ext_norm params = UPPERCASE ->
   Forall (fun c => is_lower c = false) (normalized_name params name))
  /\ (name_norm params = LOWERCASE -> ext_norm params = LOWERCASE ->
      Forall (fun c => is_upper c = false) (normalized_name params name)).
Proof.
  split; intros H1 H2; apply normalized_name_forall; intros c; rewrite ?H1, ?H2;
    (apply norm_char_upper || apply norm_char_lower).
Qed.

Lemma case_policy_enforced_witness :
  Forall (fun c => is_lower c = false)
    (normalized_name
       {| basedir := []; pattern := []; sidecars := []; name_norm := UPPERCASE;
          ext_norm := UPPERCASE; allow_whitespace := true; on_existing := SKIP;
          progressive_number := 1 |}
       (u "My Image.cr2")).
Proof.
  apply case_policy_enforced; reflexivity.
Defined.

(** ** Extension and stem *)

Lemma take_until_app (p : gunichar -> bool) (x y : ustring) :
  existsb p x = false -> take_until p (x ++ y) = x ++ take_until p y.
Proof.
  induction x as [|c x IH]; simpl; [reflexivity|].
  intros H. apply orb_false_iff in H. destruct H as [-> H]. now rewrite IH.
Qed.

Lemma existsb_rev_eq (p : gunichar -> bool) (x : ustring) :
  existsb p (rev x) = existsb p x.
Proof.
  induction x as [|c x IH]; simpl; [reflexivity|].
  rewrite existsb_app, IH. simpl. now rewrite orb_false_r, orb_comm.
Qed.

Lemma after_last_app (p : gunichar -> bool) (a b : ustring) :
  existsb p b = false -> after_last p (a ++ b) = after_last p a ++ b.
Proof.
  intros H. unfold after_last. rewrite rev_app_distr, take_until_app.
  - now rewrite rev_app_distr, rev_involutive.
  - now rewrite existsb_rev_eq.
Qed.

Lemma after_last_cut (p : gunichar -> bool) (a b : ustring) (d : gunichar) :
  p d = true -> existsb p b = false -> after_last p (a ++ d :: b) = b.
Proof.
  intros Hd H. unfold after_last. rewrite rev_app_distr. simpl. rewrite <- app_assoc.
  rewrite take_until_app by now rewrite existsb_rev_eq.
  simpl. rewrite Hd, app_nil_r. apply rev_involutive.
Qed.

Lemma last_app_cons (a b : ustring) (d x : gunichar) :
  last (a ++ d :: b) x = last (d :: b) x.
Proof.
  induction a as [|c a IH]; [reflexivity|].
  cbn [app]. rewrite <- IH. destruct (a ++ d :: b) eqn:E; [|reflexivity].
  now destruct a.
Qed.

Lemma last_in_or_default (s : ustring) (d : gunichar) : s = [] \/ In (last s d) s.
Proof.
  induction s as [|c s IH]; [now left|right].
  destruct s as [|c' s]; [now left|].
  destruct IH as [IH|IH]; [discriminate|]. right. exact IH.
Qed.

Lemma existsb_false_in (p : gunichar -> bool) (s : ustring) (c : gunichar) :
  existsb p s = false -> In c s -> p c = false.
Proof.
  intros H Hin. destruct (p c) eqn:E; [|reflexivity].
  assert (existsb p s = true) by (apply existsb_exists; eauto). congruence.
Qed.

Lemma extension_round_trip_lemma (stem ext : ustring) :
  fits (stem ++ ch "." :: ext) ->
  existsb is_dot ext = false -> existsb is_blank ext = false ->
  existsb is_sep ext = false ->
  getExtension (stem ++ ch "." :: ext) = ext
  /\ removeExtension (stem ++ ch "." :: ext) = stem.
Proof.
  intros Hfit Hdot Hblank Hsep.
  set (name := stem ++ ch "." :: ext).
  assert (Hlast : is_sep (last name 0) = false).
  { unfold name. rewrite last_app_cons.
    destruct (last_in_or_default (ch "." :: ext) 0) as [E|Hin]; [discriminate|].
    destruct Hin as [<-|Hin]; [reflexivity|].
    destruct ext as [|e ext]; [destruct Hin|].
    change (last (ch "." :: e :: ext) 0) with (last (e :: ext) 0) in *.
    destruct (last_in_or_default (e :: ext) 0) as [E|Hin']; [discriminate|].
    now apply (existsb_false_in is_sep (e :: ext)). }
  destruct (extension_matches_last_segment name Hfit Hlast) as [Hext Hstem].
  assert (Hseg : last_segment name = last_segment stem ++ ch "." :: ext).
  { unfold last_segment, name. apply after_last_app. simpl. now rewrite Hsep. }
  assert (Hafter : after_last is_dot (last_segment name) = ext).
  { rewrite Hseg. now apply after_last_cut. }
  assert (Hrec : extension_recognized (last_segment name) = true).
  { unfold extension_recognized. rewrite Hafter, Hblank.
    rewrite Hseg, existsb_app. simpl. now rewrite orb_true_r. }
  rewrite Hrec in Hstem.
  assert (Hget : getExtension name = ext).
  { rewrite Hext. unfold extension_of. now rewrite Hrec. }
  split; [exact Hget|].
  rewrite Hget in Hstem. unfold name in Hstem at 1.
  now apply app_inv_tail in Hstem.
Qed.

(** X9: round trip of a file name through its two parts.  For a stem
    (with any directories, dots and spaces in it) and an extension that
    holds no dot, no whitespace and no separator, [getExtension] of
    [stem.ext] is the extension and [removeExtension] is the stem; so a
    name that starts with its only dot, like [.bashrc], has an empty stem
    and all the rest as its extension. *)
Theorem extension_round_trip (stem ext : ustring)
    (Hfit : fits (stem ++ ch "." :: ext))
    (Hdot : existsb is_dot ext = false) (Hblank : existsb is_blank ext = false)
    (Hsep : existsb is_sep ext = false) :
  getExtension (stem ++ ch "." :: ext) = ext
  /\ removeExtension (stem ++ ch "." :: ext) = stem.
Proof. exact (extension_round_trip_lemma stem ext Hfit Hdot Hblank Hsep). Qed.

Lemma extension_round_trip_witness :
  getExtension (u "/my photos/a.b/img 1.tar" ++ ch "." :: u "gz") = u "gz"
  /\ removeExtension (u "/my photos/a.b/img 1.tar" ++ ch "." :: u "gz")
     = u "/my photos/a.b/img 1.tar".
Proof.
  apply extension_round_trip; vm_compute; (reflexivity || discriminate).
Defined.

(** X10: with both case settings off and whitespace allowed, the
    evaluated name is the concatenation of the renderings, character for
    character, as long as that text does not end in a separator: the
    split into stem and extension loses nothing. *)
Theorem policies_off_keep_the_name (params : Params) (name : ustring)
    (Hfit : fits name) (Hlast : is_sep (last name 0) = false)
    (Hname : name_norm params = OFF) (Hext : ext_norm params = OFF)
    (Hws : allow_whitespace params = true) :
  normalized_name params name = name.
Proof.
  assert (Hid : forall s, map (norm_char true OFF) s = s).
  { intros s. induction s as [|c s IH]; [reflexivity|]. simpl. now rewrite IH. }
  destruct (extension_matches_last_segment name Hfit Hlast) as [Hget Hsplit].
  unfold extension_of in Hget.
  destruct (getExtension name) as [|e ext] eqn:E.
  - rewrite normalized_name_whole by assumption. now rewrite Hname, Hws, Hid.
  - rewrite normalized_name_split by (rewrite E; discriminate).
    rewrite Hname, Hext, Hws, !Hid, E.
    destruct (extension_recognized (last_segment name)); [|discriminate].
    symmetry. exact Hsplit.
Qed.

Lemma policies_off_keep_the_name_witness :
  normalized_name (sample_params [] [] [] SKIP 1) (u "out dir/My Image.CR2")
  = u "out dir/My Image.CR2".
Proof.
  apply policies_off_keep_the_name; vm_compute; (reflexivity || discriminate).
Defined.

(** ** The primary destination *)

Lemma probe_free (file_exists : ustring -> bool) (fuel : nat) (dir bn ext : ustring) :
  forall (i : Z) (newpath nn : ustring),
    probe file_exists fuel dir bn ext i = Some (newpath, nn) ->
    file_exists newpath = false /\ newpath = build_filename dir nn.
Proof.
  induction fuel as [|fuel IH]; intros i newpath nn H; [discriminate|].
  cbn [probe] in H.
  destruct (file_exists (build_filename dir (bn ++ u "_" ++ to_string i ++ ext))) eqn:E;
    cbn [negb] in H.
  - now apply IH in H.
  - injection H as <- <-. now split.
Qed.

Lemma plan_targets_head (file_exists : ustring -> bool) (getParamFile : ustring -> ustring)
    (fn newpath : ustring) (suffixes : list ustring) :
  exists rest, plan_targets file_exists getParamFile fn newpath suffixes
               = (fn, newpath) :: rest.
Proof. unfold plan_targets, plan_head. cbn [app]. eauto. Qed.

Lemma get_targets_primary (file_exists : ustring -> bool) (getParamFile : ustring -> ustring)
    (fuel : nat) (params : Params) (fd : FramesMetaData)
    (out : list (ustring * ustring)) (params' : Params) :
  get_targets file_exists getParamFile fuel params fd = Some (out, params') ->
  params' = snd (get_new_name params fd)
  /\ match out with
     | [] => on_existing params = SKIP
     | (src, dst) :: _ => src = getFileName fd /\ file_exists dst = false
     end.
Proof.
  unfold get_targets.
  destruct (get_new_name params fd) as [newname p1] eqn:En.
  assert (Hoe : on_existing p1 = on_existing params).
  { pose proof (f_equal snd En) as H. cbn [snd] in H. rewrite <- H.
    unfold get_new_name.
    now destruct (render_all (pattern params) fd (progressive_number params)). }
  cbn [snd].
  set (newpath := if g_path_is_absolute newname then newname
                  else build_filename (path_get_dirname (getFileName fd)) newname).
  destruct (file_exists newpath) eqn:Ex.
  - rewrite Hoe. destruct (on_existing params) eqn:Eo.
    + intros H. injection H as <- <-. now split.
    + match goal with
      | |- context [probe ?a ?b ?c ?d ?e ?f] =>
          destruct (probe a b c d e f) as [[np nn]|] eqn:Ep; [|discriminate]
      end.
      intros H. injection H as <- <-. split; [reflexivity|].
      rewrite push_targets_spec.
      destruct (plan_targets_head file_exists getParamFile (getFileName fd) np (sidecars p1))
        as [rest ->].
      split; [reflexivity|]. now apply probe_free in Ep.
  - intros H. injection H as <- <-. split; [reflexivity|].
    rewrite push_targets_spec.
    destruct (plan_targets_head file_exists getParamFile (getFileName fd) newpath (sidecars p1))
      as [rest ->].
    now split.
Qed.

(** X11: [get_targets] never plans to overwrite: when it lists anything,
    the first pair goes from the file itself to a path that does not
    exist; it lists nothing only under the skip policy; and in every case,
    a skipped file included, the parameters it leaves are those of
    [get_new_name], so a skipped file uses up its sequence numbers. *)
Theorem primary_destination_is_free
    (file_exists : ustring -> bool) (getParamFile : ustring -> ustring)
    (fuel : nat) (params : Params) (fd : FramesMetaData)
    (out : list (ustring * ustring)) (params' : Params)
    (Hrun : get_targets file_exists getParamFile fuel params fd = Some (out, params')) :
  params' = snd (get_new_name params fd)
  /\ match out with
     | [] => on_existing params = SKIP
     | (src, dst) :: _ => src = getFileName fd /\ file_exists dst = false
     end.
Proof. exact (get_targets_primary file_exists getParamFile fuel params fd out params' Hrun). Qed.

Lemma primary_destination_is_free_witness :
  sample_disk_absolute (u "/photos/out/img_1.cr2") = false.
Proof.
  destruct (primary_destination_is_free sample_disk_absolute sample_param_file 10
              (sample_params (u "/out") name_ext_pattern [u "xmp"] RENAME 1)
              (sample_fd (u "/photos/img.cr2"))
              [(u "/photos/img.cr2", u "/photos/out/img_1.cr2");
               (u "/photos/img.xmp", u "/photos/out/img_1.xmp")]
              (sample_params (u "/out") name_ext_pattern [u "xmp"] RENAME 1))
    as (_ & _ & Hfree).
  - vm_compute. reflexivity.
  - exact Hfree.
Defined.

(** ** Deleting *)

Section DeleteFacts.

Variable getParamFile : ustring -> ustring.
Variable removable : (ustring -> bool) -> ustring -> bool.

Lemma delete_sidename_path (fname s : ustring) :
  delete_sidename fname (removeExtension fname) s = sidecar_path fname s.
Proof.
  pose proof (sidecar_names_spec fname fname s) as H.
  unfold sidecar_names in H. unfold delete_sidename.
  destruct (is_ch (at_ s 0) "+"); now injection H.
Qed.

(** A removal creates nothing, touches no other path, and when the
    operating system allows it the path is gone afterwards. *)
Lemma g_remove_le (p : ustring) (fs : ustring -> bool) (q : ustring) :
  fst (g_remove removable p fs) q = true -> fs q = true.
Proof.
  unfold g_remove. destruct (fs p && removable fs p); cbn [fst]; [|tauto].
  intros H. now apply andb_true_iff in H.
Qed.

Lemma g_remove_other (p : ustring) (fs : ustring -> bool) (q : ustring) :
  ueqb q p = false -> fst (g_remove removable p fs) q = fs q.
Proof.
  intros H. unfold g_remove. destruct (fs p && removable fs p); cbn [fst]; [|reflexivity].
  rewrite H. apply andb_true_r.
Qed.

Lemma g_remove_gone (p : ustring) (fs : ustring -> bool) :
  removable fs p = true -> fst (g_remove removable p fs) p = false.
Proof.
  intros H. unfold g_remove. rewrite H, andb_true_r.
  destruct (fs p) eqn:E; cbn [fst]; [|exact E].
  rewrite ueqb_refl. apply andb_false_r.
Qed.

Lemma g_remove_result (p : ustring) (fs : ustring -> bool) :
  snd (g_remove removable p fs) = fs p && removable fs p.
Proof. unfold g_remove. now destruct (fs p && removable fs p). Qed.

(** The loop over the sidecar suffixes. *)
Lemma sidecar_loop_le (fname : ustring) (l : list ustring) :
  forall (fs : ustring -> bool) (q : ustring),
    fold_left
      (fun (fs : ustring -> bool) (s : ustring) =>
         let sidename := delete_sidename fname (removeExtension fname) s in
         if fs sidename then fst (g_remove removable sidename fs) else fs)
      l fs q = true ->
    fs q = true.
Proof.
  induction l as [|s l IH]; intros fs q H; [exact H|].
  cbn [fold_left] in H. apply IH in H. cbv zeta in H.
  destruct (fs (delete_sidename fname (removeExtension fname) s)); [|exact H].
  now apply g_remove_le in H.
Qed.

Lemma sidecar_loop_changes (fname : ustring) (l : list ustring) :
  forall (fs : ustring -> bool) (q : ustring),
    fs q = true ->
    fold_left
      (fun (fs : ustring -> bool) (s : ustring) =>
         let sidename := delete_sidename fname (removeExtension fname) s in
         if fs sidename then fst (g_remove removable sidename fs) else fs)
      l fs q = false ->
    exists s, In s l /\ q = sidecar_path fname s.
Proof.
  induction l as [|s l IH]; intros fs q Hq H; [cbn in H; congruence|].
  cbn [fold_left] in H.
  match type of H with fold_left _ l ?x q = false => set (fs1 := x) in H end.
  destruct (ueqb q (sidecar_path fname s)) eqn:E.
  - apply ueqb_eq in E. exists s. split; [now left|exact E].
  - assert (Hq1 : fs1 q = true).
    { unfold fs1. cbv zeta. rewrite delete_sidename_path.
      destruct (fs (sidecar_path fname s)); [|exact Hq].
      now rewrite g_remove_other. }
    destruct (IH fs1 q Hq1 H) as (s' & Hin & Hs').
    exists s'. split; [now right|exact Hs'].
Qed.

Lemma sidecar_loop_gone (fname : ustring) (l : list ustring) (s : ustring) :
  In s l -> (forall f, removable f (sidecar_path fname s) = true) ->
  forall fs : ustring -> bool,
    fold_left
      (fun (fs : ustring -> bool) (s : ustring) =>
         let sidename := delete_sidename fname (removeExtension fname) s in
         if fs sidename then fst (g_remove removable sidename fs) else fs)
      l fs (sidecar_path fname s) = false.
Proof.
  intros Hin Hrem. induction l as [|s' l IH]; intros fs; [destruct Hin|].
  cbn [fold_left]. destruct Hin as [->|Hin]; [|now apply IH].
  match goal with |- fold_left ?f l ?x ?q = false => destruct (fold_left f l x q) eqn:E end;
    [|reflexivity].
  apply sidecar_loop_le in E. cbv zeta in E. rewrite delete_sidename_path in E.
  destruct (fs (sidecar_path fname s)) eqn:Ex; [|congruence].
  rewrite g_remove_gone in E by apply Hrem. discriminate.
Qed.

Lemma delete_files_unfold (sidecars : list ustring) (fname : ustring)
    (fs : ustring -> bool) :
  delete_files getParamFile removable sidecars fname fs
  = fold_left
      (fun (fs : ustring -> bool) (s : ustring) =>
         let sidename := delete_sidename fname (removeExtension fname) s in
         if fs sidename then fst (g_remove removable sidename fs) else fs)
      sidecars
      (fst (g_remove removable (getParamFile fname) (fst (g_remove removable fname fs)))).
Proof. unfold delete_files. now destruct sidecars. Qed.

Lemma delete_files_le (sidecars : list ustring) (fname : ustring)
    (fs : ustring -> bool) (q : ustring) :
  delete_files getParamFile removable sidecars fname fs q = true -> fs q = true.
Proof.
  rewrite delete_files_unfold. intros H.
  apply sidecar_loop_le, g_remove_le, g_remove_le in H. exact H.
Qed.

Lemma plan_sidecars_in (file_exists : ustring -> bool) (fn newpath : ustring)
    (suffixes : list ustring) :
  forall (seen : list ustring) (p : ustring * ustring),
    In p (plan_sidecars file_exists fn newpath seen suffixes) ->
    exists s, In s suffixes /\ p = (sidecar_path fn s, sidecar_path newpath s).
Proof.
  induction suffixes as [|s l IH]; intros seen p Hin; [destruct Hin|].
  cbn [plan_sidecars] in Hin.
  destruct (file_exists (sidecar_path fn s) && _).
  - destruct Hin as [<-|Hin]; [exists s; split; [now left|reflexivity]|].
    destruct (IH _ _ Hin) as (s' & Hs' & ->). exists s'. split; [now right|reflexivity].
  - destruct (IH _ _ Hin) as (s' & Hs' & ->). exists s'. split; [now right|reflexivity].
Qed.

(** What disappears was planned. *)
Lemma delete_files_planned (sidecars : list ustring) (fname newpath : ustring)
    (fs : ustring -> bool) (q : ustring) :
  fs q = true ->
  delete_files getParamFile removable sidecars fname fs q = false ->
  In q (map fst (plan_targets fs getParamFile fname newpath sidecars)).
Proof.
  intros Hq H. rewrite delete_files_unfold in H.
  unfold plan_targets. rewrite map_app. apply in_or_app.
  destruct (ueqb q fname) eqn:E1; [apply ueqb_eq in E1; left; now left|].
  destruct (ueqb q (getParamFile fname)) eqn:E2.
  { apply ueqb_eq in E2. left. unfold plan_head. subst q. rewrite Hq. right. now left. }
  right.
  apply sidecar_loop_changes in H; [|now rewrite !g_remove_other].
  destruct H as (s & Hs & ->).
  destruct (plan_sidecars_sources fs fname newpath sidecars
              (map fst (plan_head fs getParamFile fname newpath)))
    as (_ & _ & Hcomplete).
  specialize (Hcomplete s Hs Hq). apply in_app_or in Hcomplete.
  destruct Hcomplete as [Hhead|Hside]; [|exact Hside].
  exfalso. unfold plan_head in Hhead. cbn [map fst] in Hhead.
  destruct Hhead as [Hh|Hh].
  - rewrite <- Hh, ueqb_refl in E1. discriminate.
  - destruct (fs (getParamFile fname)); [|destruct Hh].
    destruct Hh as [Hh|[]]. rewrite <- Hh, ueqb_refl in E2. discriminate.
Qed.

(** What was planned disappears, when the operating system lets it go. *)
Lemma delete_files_gone (sidecars : list ustring) (fname newpath : ustring)
    (fs : ustring -> bool) (q : ustring) :
  In q (map fst (plan_targets fs getParamFile fname newpath sidecars)) ->
  (forall f, removable f q = true) ->
  delete_files getParamFile removable sidecars fname fs q = false.
Proof.
  intros Hin Hrem. rewrite delete_files_unfold.
  unfold plan_targets in Hin. rewrite map_app in Hin. apply in_app_or in Hin.
  destruct Hin as [Hhead|Hside].
  - match goal with |- fold_left ?f ?l ?x ?y = false => destruct (fold_left f l x y) eqn:E end;
      [|reflexivity].
    apply sidecar_loop_le in E.
    unfold plan_head in Hhead. cbn [map fst] in Hhead. destruct Hhead as [<-|Hh].
    + apply g_remove_le in E. rewrite g_remove_gone in E by apply Hrem. discriminate.
    + destruct (fs (getParamFile fname)); [|destruct Hh]. destruct Hh as [<-|[]].
      rewrite g_remove_gone in E by apply Hrem. discriminate.
  - apply in_map_iff in Hside. destruct Hside as (p & <- & Hp).
    apply plan_sidecars_in in Hp. destruct Hp as (s & Hs & ->). cbn [fst] in *.
    now apply sidecar_loop_gone.
Qed.

Lemma delete_files_facts (sidecars : list ustring) (fname newpath : ustring)
    (fs : ustring -> bool) :
  (forall q, delete_files getParamFile removable sidecars fname fs q = true ->
     fs q = true)
  /\ (forall q, fs q = true ->
        delete_files getParamFile removable sidecars fname fs q = false ->
        In q (map fst (plan_targets fs getParamFile fname newpath sidecars)))
  /\ (forall q,
        In q (map fst (plan_targets fs getParamFile fname newpath sidecars)) ->
        (forall f, removable f q = true) ->
        delete_files getParamFile removable sidecars fname fs q = false)
  /\ ((forall f p, removable f p = true) ->
      forall q,
        delete_files getParamFile removable sidecars fname fs q
        = fs q && negb (existsb (ueqb q)
                          (map fst (plan_targets fs getParamFile fname newpath sidecars)))).
Proof.
  split; [intros q; apply delete_files_le|].
  split; [intros q; apply delete_files_planned|].
  split; [intros q; apply delete_files_gone|].
  intros Hall q.
  destruct (existsb (ueqb q) _) eqn:Ex; cbn [negb].
  - rewrite andb_false_r. apply existsb_exists in Ex. destruct Ex as (x & Hx & Hqx).
    apply ueqb_eq in Hqx. subst x. apply (delete_files_gone _ _ newpath); [exact Hx|].
    intros f. apply Hall.
  - rewrite andb_true_r.
    destruct (delete_files getParamFile removable sidecars fname fs q) eqn:E.
    + symmetry. now apply delete_files_le in E.
    + destruct (fs q) eqn:Hq; [|reflexivity].
      apply (delete_files_planned _ _ newpath) in E; [|exact Hq].
      assert (existsb (ueqb q)
                (map fst (plan_targets fs getParamFile fname newpath sidecars)) = true).
      { apply existsb_exists. exists q. split; [exact E|apply ueqb_refl]. }
      congruence.
Qed.

(** The run over the selected entries. *)
Lemma delete_fold_le (is_session : bool) (sidecars : list ustring) (l : list ustring) :
  forall (st : DeleteState) (q : ustring),
    del_fs (fold_left (delete_func getParamFile removable is_session sidecars) l st) q
    = true ->
    del_fs st q = true.
Proof.
  induction l as [|f l IH]; intros st q H; [exact H|].
  cbn [fold_left] in H. apply IH in H.
  cbn [delete_func del_fs] in H. now apply delete_files_le in H.
Qed.

Lemma delete_fold_gone (is_session : bool) (sidecars : list ustring) (l : list ustring)
    (f : ustring) :
  In f l ->
  forall st : DeleteState,
    ((forall fs, removable fs f = true) ->
     del_fs (fold_left (delete_func getParamFile removable is_session sidecars) l st) f
     = false)
    /\ ((forall fs, removable fs (getParamFile f) = true) ->
        del_fs (fold_left (delete_func getParamFile removable is_session sidecars) l st)
          (getParamFile f) = false).
Proof.
  intros Hin. induction l as [|f' l IH]; intros st; [destruct Hin|].
  cbn [fold_left]. destruct Hin as [->|Hin]; [|now apply IH].
  split; intros Hrem.
  - match goal with |- del_fs ?x f = false => destruct (del_fs x f) eqn:E end;
      [|reflexivity].
    apply delete_fold_le in E. cbn [delete_func del_fs] in E.
    rewrite (delete_files_gone sidecars f []) in E; [discriminate| |exact Hrem].
    unfold plan_targets, plan_head. cbn. now left.
  - match goal with |- del_fs ?x ?q = false => destruct (del_fs x q) eqn:E end;
      [|reflexivity].
    apply delete_fold_le in E. cbn [delete_func del_fs] in E.
    pose proof E as E'. apply delete_files_le in E'.
    rewrite (delete_files_gone sidecars f []) in E; [discriminate| |exact Hrem].
    unfold plan_targets, plan_head. rewrite E'. cbn. right. now left.
Qed.

Lemma delete_fold_fields (is_session : bool) (sidecars : list ustring) (l : list ustring) :
  forall st : DeleteState,
    session_rem (fold_left (delete_func getParamFile removable is_session sidecars) l st)
    = (if is_session then session_rem st ++ l else session_rem st)
    /\ renaming_sidecars
         (fold_left (delete_func getParamFile removable is_session sidecars) l st)
       = renaming_sidecars st
    /\ del_calls (fold_left (delete_func getParamFile removable is_session sidecars) l st)
       = del_calls st
         ++ flat_map (fun f => [fileBrowser_delEntry f; cacheMgr_deleteEntry f]) l.
Proof.
  induction l as [|f l IH]; intros st; cbn [fold_left flat_map].
  - rewrite app_nil_r. destruct is_session; now rewrite ?app_nil_r.
  - destruct (IH (delete_func getParamFile removable is_session sidecars st f))
      as (-> & -> & ->).
    cbn [delete_func session_rem renaming_sidecars del_calls].
    rewrite <- !app_assoc. destruct is_session; now rewrite <- ?app_assoc.
Qed.

Lemma deleteRequested_facts (sidecars_text : ustring) (is_session : bool) (turns : nat)
    (tbe : list ustring) (st : DeleteState) :
  (length tbe <= turns)%nat ->
  let st' := deleteRequested getParamFile removable true sidecars_text is_session
               turns tbe st in
  (forall f, In f tbe ->
     ((forall fs, removable fs f = true) -> del_fs st' f = false)
     /\ ((forall fs, removable fs (getParamFile f) = true) ->
         del_fs st' (getParamFile f) = false))
  /\ (forall q, del_fs st' q = true -> del_fs st q = true)
  /\ (forall f, In f tbe ->
        In (fileBrowser_delEntry f) (del_calls st')
        /\ In (cacheMgr_deleteEntry f) (del_calls st'))
  /\ (tbe <> [] -> renaming_sidecars st' = sidecars_text)
  /\ (tbe <> [] -> is_session = true -> last (del_calls st') redrawAll = session_remove tbe).
Proof.
  intros Hturns st'. subst st'.
  destruct tbe as [|f0 tbe0];
    [cbn; repeat split; try tauto; try (intros f []); intros _ f; tauto|].
  unfold deleteRequested. cbv beta iota.
  set (tbe := f0 :: tbe0) in *.
  destruct (parse_sidecars sidecars_text) as [parsed sidecars] eqn:Eparse.
  assert (parsed = true) as ->.
  { unfold parse_sidecars in Eparse. destruct (sidecars_loop _ _ _ _ _).
    now injection Eparse as <- _. }
  unfold run_with_progress. rewrite firstn_all2 by exact Hturns.
  match goal with
  | |- context [fold_left ?f tbe ?s0] => set (s0' := s0); set (r := fold_left f tbe s0')
  end.
  assert (Hfs : forall q, del_fs r q = true -> del_fs st q = true).
  { intros q Hq. now apply delete_fold_le in Hq. }
  destruct (delete_fold_fields is_session sidecars tbe s0') as (Hsess & Hren & Hcalls).
  fold r in Hsess, Hren, Hcalls.
  assert (Hgone : forall f, In f tbe ->
             ((forall fs, removable fs f = true) -> del_fs r f = false)
             /\ ((forall fs, removable fs (getParamFile f) = true) ->
                 del_fs r (getParamFile f) = false)).
  { intros f Hin. now apply delete_fold_gone. }
  assert (Hdropped : forall f, In f tbe ->
             In (fileBrowser_delEntry f) (del_calls r)
             /\ In (cacheMgr_deleteEntry f) (del_calls r)).
  { intros f Hin. rewrite Hcalls. split; apply in_or_app; right; apply in_flat_map;
      exists f; (split; [exact Hin|cbn; tauto]). }
  destruct is_session; cbn [add_call del_fs del_calls renaming_sidecars session_rem].
  - split; [exact Hgone|]. split; [exact Hfs|]. split.
    { intros f Hin. destruct (Hdropped f Hin) as [H1 H2].
      split; apply in_or_app; left; apply in_or_app; left; assumption. }
    split; [intros _; exact Hren|].
    intros _ _. rewrite last_last. now rewrite Hsess.
  - split; [exact Hgone|]. split; [exact Hfs|]. split.
    { intros f Hin. destruct (Hdropped f Hin) as [H1 H2].
      split; apply in_or_app; left; apply in_or_app; left; assumption. }
    split; [intros _; exact Hren|]. intros _ H. discriminate H.
Qed.

End DeleteFacts.

(** X12: what deleting an entry does to the file system, the removals
    being allowed to fail.  Nothing is created; a path that disappears is
    one of the sources that a move of the same entry with the same sidecar
    list would take along (the sources that [get_targets] plans, whatever
    the destination: the file, its parameter file, the configured sidecars
    that exist); each of those sources that the operating system lets go
    is gone afterwards; so when no removal fails, exactly those sources
    disappear and every other path stays as it was. *)
Theorem delete_removes_what_move_takes
    (getParamFile : ustring -> ustring)
    (removable : (ustring -> bool) -> ustring -> bool)
    (sidecars : list ustring) (fname newpath : ustring) (fs : ustring -> bool) :
  (forall q, delete_files getParamFile removable sidecars fname fs q = true ->
     fs q = true)
  /\ (forall q, fs q = true ->
        delete_files getParamFile removable sidecars fname fs q = false ->
        In q (map fst (plan_targets fs getParamFile fname newpath sidecars)))
  /\ (forall q,
        In q (map fst (plan_targets fs getParamFile fname newpath sidecars)) ->
        (forall f, removable f q = true) ->
        delete_files getParamFile removable sidecars fname fs q = false)
  /\ ((forall f p, removable f p = true) ->
      forall q,
        delete_files getParamFile removable sidecars fname fs q
        = fs q && negb (existsb (ueqb q)
                          (map fst (plan_targets fs getParamFile fname newpath sidecars)))).
Proof. exact (delete_files_facts getParamFile removable sidecars fname newpath fs). Qed.

Lemma delete_removes_what_move_takes_witness :
  delete_files sample_param_file sample_removable [u "xmp"] (u "img.cr2") sample_disk
    (u "img.cr2.arp") = false
  /\ delete_files sample_param_file sample_removable [u "xmp"] (u "img.cr2") sample_disk
       (u "img.xmp") = true.
Proof.
  destruct (delete_removes_what_move_takes sample_param_file sample_removable [u "xmp"]
              (u "img.cr2") [] sample_disk) as (_ & _ & Hgone & _).
  split.
  - apply Hgone; [vm_compute; tauto|reflexivity].
  - vm_compute. reflexivity.
Defined.

(** X13: a confirmed deletion that is left to run to its end, the
    removals being allowed to fail.  Each selected file, and each
    parameter file, that the operating system lets go is gone afterwards;
    no file is created.  Whether or not the removals succeed, every
    selected entry is taken out of the browser and of the cache, the
    sidecar text of the dialog is stored in the options, and, in a
    session, the run ends by taking exactly the selected names, in order,
    out of the session: a file whose removal failed stays on disk and is
    dropped from all three. *)
Theorem deleteRequested_removes_selection
    (getParamFile : ustring -> ustring)
    (removable : (ustring -> bool) -> ustring -> bool)
    (sidecars_text : ustring) (is_session : bool)
    (turns : nat) (tbe : list ustring) (st : DeleteState)
    (Hturns : (length tbe <= turns)%nat) :
  let st' := deleteRequested getParamFile removable true sidecars_text is_session
               turns tbe st in
  (forall f, In f tbe ->
     ((forall fs, removable fs f = true) -> del_fs st' f = false)
     /\ ((forall fs, removable fs (getParamFile f) = true) ->
         del_fs st' (getParamFile f) = false))
  /\ (forall q, del_fs st' q = true -> del_fs st q = true)
  /\ (forall f, In f tbe ->
        In (fileBrowser_delEntry f) (del_calls st')
        /\ In (cacheMgr_deleteEntry f) (del_calls st'))
  /\ (tbe <> [] -> renaming_sidecars st' = sidecars_text)
  /\ (tbe <> [] -> is_session = true -> last (del_calls st') redrawAll = session_remove tbe).
Proof.
  exact (deleteRequested_facts getParamFile removable sidecars_text is_session turns tbe
           st Hturns).
Qed.

Lemma deleteRequested_removes_selection_witness :
  let st' := deleteRequested sample_param_file sample_removable true (u "xmp") true 2
               [u "img.cr2"; u "img.xmp"] sample_delete_state in
  del_fs st' (u "img.cr2") = false
  /\ del_fs st' (u "img.xmp") = true
  /\ In (fileBrowser_delEntry (u "img.xmp")) (del_calls st')
  /\ last (del_calls st') redrawAll = session_remove [u "img.cr2"; u "img.xmp"].
Proof.
  destruct (deleteRequested_removes_selection sample_param_file sample_removable
              (u "xmp") true 2 [u "img.cr2"; u "img.xmp"] sample_delete_state)
    as (Hgone & _ & Hdropped & _ & Hsession).
  - simpl. lia.
  - cbv zeta. split; [|split; [|split]].
    + apply (Hgone (u "img.cr2")); [now left|reflexivity].
    + vm_compute. reflexivity.
    + apply (Hdropped (u "img.xmp")). right. now left.
    + apply Hsession; [discriminate|reflexivity].
Defined.

(** ** Copying and moving *)

Section CopyMoveFacts.

Variable World : Type.
Variable file_exists : World -> ustring -> bool.
Variable getParamFile : ustring -> ustring.
Variable g_mkdir_with_parents : World -> ustring -> World * bool.
Variable g_rename : World -> ustring -> ustring -> World * RenameResult.
Variable Gio_copy : World -> ustring -> ustring -> World * bool.
Variable g_remove_path : World -> ustring -> World * bool.
Variable getMD5 : FramesMetaData -> ustring.

Let step := transfer_step World g_mkdir_with_parents g_rename Gio_copy g_remove_path getMD5.
Let func := copy_move_func World file_exists getParamFile g_mkdir_with_parents
              g_rename Gio_copy g_remove_path getMD5.
Let batch := copy_move_batch World file_exists getParamFile g_mkdir_with_parents
               g_rename Gio_copy g_remove_path getMD5.

Ltac step_cases st p :=
  unfold step, transfer_step;
  destruct (g_mkdir_with_parents (world st) (path_get_dirname (snd p))) as [?w [|]];
  [ match goal with
    | |- context [doit ?W ?a ?b ?c ?m ?w ?s ?d] =>
        destruct (doit W a b c m w s d) as [?w [|]]
    end | ].

Lemma transfer_step_params (move is_session : bool) (e : FramesMetaData)
    (st : CopyMoveState World) (first : bool) (p : ustring * ustring) :
  cm_params (fst (step move is_session e (st, first) p)) = cm_params st
  /\ snd (step move is_session e (st, first) p) = false.
Proof.
  step_cases st p; try (destruct (first && move)); now split.
Qed.

Lemma transfer_step_later (move is_session : bool) (e : FramesMetaData)
    (st : CopyMoveState World) (p : ustring * ustring) :
  let st' := fst (step move is_session e (st, false) p) in
  cache_renames st' = cache_renames st /\ session_add st' = session_add st
  /\ cm_session_rem st' = cm_session_rem st.
Proof.
  step_cases st p; cbn; auto.
Qed.

Lemma transfer_fold_params (move is_session : bool) (e : FramesMetaData)
    (l : list (ustring * ustring)) :
  forall (st : CopyMoveState World) (first : bool),
    cm_params (fst (fold_left (step move is_session e) l (st, first))) = cm_params st.
Proof.
  induction l as [|p l IH]; intros st first; [reflexivity|].
  cbn [fold_left].
  destruct (step move is_session e (st, first) p) as [st1 b] eqn:E.
  rewrite IH. pose proof (transfer_step_params move is_session e st first p) as H.
  rewrite E in H. now destruct H.
Qed.

Lemma transfer_fold_later (move is_session : bool) (e : FramesMetaData)
    (l : list (ustring * ustring)) :
  forall st : CopyMoveState World,
    let st' := fst (fold_left (step move is_session e) l (st, false)) in
    cache_renames st' = cache_renames st /\ session_add st' = session_add st
    /\ cm_session_rem st' = cm_session_rem st.
Proof.
  induction l as [|p l IH]; intros st; [cbn; auto|].
  cbn [fold_left].
  destruct (step move is_session e (st, false) p) as [st1 b] eqn:E.
  pose proof (transfer_step_params move is_session e st false p) as [_ Hb].
  pose proof (transfer_step_later move is_session e st p) as H.
  rewrite E in Hb, H. cbn [fst snd] in Hb, H. subst b.
  destruct (IH st1) as (H1 & H2 & H3). destruct H as (H4 & H5 & H6).
  cbv zeta. rewrite H1, H2, H3. auto.
Qed.

Lemma set_progressive_number_twice (params : Params) (a b : Z) :
  set_progressive_number (set_progressive_number params a) b
  = set_progressive_number params b.
Proof. reflexivity. Qed.

Lemma get_new_name_counter (params : Params) (fd : FramesMetaData) :
  (INT_MIN <= progressive_number params)%Z ->
  (progressive_number params + Z.of_nat (progressive_count (pattern params)) <= INT_MAX)%Z ->
  snd (get_new_name params fd)
  = set_progressive_number params
      (progressive_number params + Z.of_nat (progressive_count (pattern params))).
Proof.
  intros Hlo Hhi. unfold get_new_name.
  pose proof (render_all_counter (pattern params) fd (progressive_number params) Hlo Hhi) as H.
  destruct (render_all (pattern params) fd (progressive_number params)) as [name idx].
  cbn [snd] in *. now rewrite H.
Qed.

Lemma func_params (move is_session : bool) (fuel : nat)
    (st st' : CopyMoveState World) (e : FramesMetaData) :
  func move is_session fuel st e = Some st' ->
  cm_params st' = snd (get_new_name (cm_params st) e).
Proof.
  unfold func, copy_move_func.
  destruct (get_targets (file_exists (world st)) getParamFile fuel (cm_params st) e)
    as [[torename params]|] eqn:E; [|discriminate].
  intros H. injection H as <-.
  fold step. rewrite transfer_fold_params. cbn [cm_params].
  now apply get_targets_primary in E.
Qed.

Lemma fold_func_none (move is_session : bool) (fuel : nat) (l : list FramesMetaData) :
  fold_left (fun o e => match o with
                        | Some st => func move is_session fuel st e
                        | None => None
                        end) l None = None.
Proof. induction l; [reflexivity|exact IHl]. Qed.

Lemma fold_func_params (move is_session : bool) (fuel : nat) (l : list FramesMetaData) :
  forall st st' : CopyMoveState World,
    (INT_MIN <= progressive_number (cm_params st))%Z ->
    (progressive_number (cm_params st)
     + Z.of_nat (length l) * Z.of_nat (progressive_count (pattern (cm_params st)))
     <= INT_MAX)%Z ->
    fold_left (fun o e => match o with
                          | Some st => func move is_session fuel st e
                          | None => None
                          end) l (Some st) = Some st' ->
    cm_params st'
    = set_progressive_number (cm_params st)
        (progressive_number (cm_params st)
         + Z.of_nat (length l) * Z.of_nat (progressive_count (pattern (cm_params st)))).
Proof.
  induction l as [|e l IH]; intros st st' Hlo Hhi H.
  - cbn in H. injection H as <-. cbn [length]. rewrite Z.mul_0_l, Z.add_0_r.
    now destruct (cm_params st).
  - cbn [fold_left] in H.
    destruct (func move is_session fuel st e) as [st1|] eqn:E;
      [|now rewrite fold_func_none in H].
    apply func_params in E.
    cbn [length] in Hhi |- *. rewrite Nat2Z.inj_succ in Hhi |- *.
    rewrite get_new_name_counter in E by lia.
    assert (Hn : progressive_number (cm_params st1)
                 = (progressive_number (cm_params st)
                    + Z.of_nat (progressive_count (pattern (cm_params st))))%Z)
      by now rewrite E.
    assert (Hp : pattern (cm_params st1) = pattern (cm_params st)) by now rewrite E.
    apply IH in H; rewrite ?Hn, ?Hp; try lia.
    rewrite H, Hn, Hp, E, set_progressive_number_twice. f_equal. lia.
Qed.

Lemma func_skip_returns (move is_session : bool) (fuel : nat)
    (st : CopyMoveState World) (e : FramesMetaData) :
  on_existing (cm_params st) = SKIP ->
  exists st', func move is_session fuel st e = Some st'
              /\ on_existing (cm_params st') = SKIP.
Proof.
  intros Hs. unfold func, copy_move_func.
  destruct (get_targets (file_exists (world st)) getParamFile fuel (cm_params st) e)
    as [[torename params]|] eqn:E.
  - eexists. split; [reflexivity|]. fold step. rewrite transfer_fold_params.
    cbn [cm_params]. apply get_targets_primary in E. destruct E as [-> _].
    unfold get_new_name.
    now destruct (render_all (pattern (cm_params st)) e (progressive_number (cm_params st))).
  - exfalso. revert E. unfold get_targets.
    destruct (get_new_name (cm_params st) e) as [newname p1] eqn:En.
    assert (Hoe : on_existing p1 = SKIP).
    { pose proof (f_equal snd En) as H. cbn [snd] in H. rewrite <- H.
      unfold get_new_name.
      now destruct (render_all (pattern (cm_params st)) e
                      (progressive_number (cm_params st))). }
    rewrite Hoe. now destruct (file_exists (world st) _).
Qed.

Lemma fold_func_skip (move is_session : bool) (fuel : nat) (l : list FramesMetaData) :
  forall st : CopyMoveState World,
    on_existing (cm_params st) = SKIP ->
    exists st',
      fold_left (fun o e => match o with
                            | Some st => func move is_session fuel st e
                            | None => None
                            end) l (Some st) = Some st'.
Proof.
  induction l as [|e l IH]; intros st Hs; [now exists st|].
  cbn [fold_left].
  destruct (func_skip_returns move is_session fuel st e Hs) as (st1 & -> & Hs1).
  now apply IH.
Qed.

Lemma batch_numbering_lemma (move is_session : bool) (fuel turns : nat)
    (args : list FramesMetaData) (st : CopyMoveState World) :
  let start := progressive_number (cm_params st) in
  let per_file := Z.of_nat (progressive_count (pattern (cm_params st))) in
  let handled := Z.of_nat (Nat.min turns (length args)) in
  (INT_MIN <= start)%Z -> (start + handled * per_file <= INT_MAX)%Z ->
  (forall st', batch move is_session fuel turns args st = Some st' ->
     cm_params st' = set_progressive_number (cm_params st) (start + handled * per_file))
  /\ (on_existing (cm_params st) = SKIP ->
      exists st', batch move is_session fuel turns args st = Some st').
Proof.
  intros start per_file handled Hlo Hhi.
  unfold batch, copy_move_batch, run_with_progress. fold func. split.
  - intros st' H. apply fold_func_params in H.
    + rewrite H. now rewrite length_firstn.
    + exact Hlo.
    + rewrite length_firstn. exact Hhi.
  - intros Hs. now apply fold_func_skip.
Qed.

Lemma transfer_step_errors (move is_session : bool) (e : FramesMetaData)
    (st : CopyMoveState World) (first : bool) (p x : ustring * ustring) :
  In x (cm_errors st) -> In x (cm_errors (fst (step move is_session e (st, first) p))).
Proof.
  intros Hx. step_cases st p; try (destruct (first && move)); cbn [fst cm_errors];
    try assumption; apply in_or_app; now left.
Qed.

Lemma transfer_fold_errors (move is_session : bool) (e : FramesMetaData)
    (l : list (ustring * ustring)) (x : ustring * ustring) :
  forall (st : CopyMoveState World) (first : bool),
    In x (cm_errors st) ->
    In x (cm_errors (fst (fold_left (step move is_session e) l (st, first)))).
Proof.
  induction l as [|p l IH]; intros st first Hx; [exact Hx|].
  cbn [fold_left].
  pose proof (transfer_step_errors move is_session e st first p x Hx) as H.
  destruct (step move is_session e (st, first) p) as [st1 b]. now apply IH.
Qed.

Lemma transfer_fold_nil_errors (move is_session : bool) (e : FramesMetaData)
    (st : CopyMoveState World) (first : bool) :
  cm_errors (fst (fold_left (step move is_session e) [] (st, first))) = cm_errors st.
Proof. reflexivity. Qed.

Lemma move_bookkeeping_lemma (move is_session : bool) (fuel : nat)
    (st : CopyMoveState World) (e : FramesMetaData)
    (torename : list (ustring * ustring)) (params' : Params) :
  get_targets (file_exists (world st)) getParamFile fuel (cm_params st) e
  = Some (torename, params') ->
  exists st',
    func move is_session fuel st e = Some st'
    /\ cm_params st' = params'
    /\ match torename with
       | [] =>
           cache_renames st' = cache_renames st /\ session_add st' = session_add st
           /\ cm_session_rem st' = cm_session_rem st /\ cm_errors st' = cm_errors st
       | (src, dst) :: _ =>
           src = getFileName e
           /\ file_exists (world st) dst = false
           /\ (if transfer_ok World g_mkdir_with_parents g_rename Gio_copy g_remove_path
                    move (world st) (src, dst) && move
               then cache_renames st' = cache_renames st ++ [(src, getMD5 e, dst)]
                    /\ session_add st'
                       = (if is_session then session_add st ++ [dst] else session_add st)
                    /\ cm_session_rem st'
                       = (if is_session then cm_session_rem st ++ [src]
                          else cm_session_rem st)
               else cache_renames st' = cache_renames st
                    /\ session_add st' = session_add st
                    /\ cm_session_rem st' = cm_session_rem st)
           /\ (transfer_ok World g_mkdir_with_parents g_rename Gio_copy g_remove_path
                 move (world st) (src, dst) = false ->
               In (src, dst) (cm_errors st'))
       end.
Proof.
  intros Hplan. unfold func, copy_move_func. rewrite Hplan. fold step.
  eexists. split; [reflexivity|]. split; [now rewrite transfer_fold_params|].
  apply get_targets_primary in Hplan. destruct Hplan as [_ Hplan].
  destruct torename as [|[src dst] rest]; [cbn; auto|].
  destruct Hplan as [-> Hfree]. split; [reflexivity|]. split; [exact Hfree|].
  cbn [fold_left].
  match goal with
  | |- context [step move is_session e (?s, true) ?p] =>
      set (s0 := s); set (p0 := p);
      pose proof (transfer_step_params move is_session e s0 true p0) as [_ Hb];
      destruct (step move is_session e (s0, true) p0) as [st1 b] eqn:E1
  end.
  cbn [snd] in Hb. subst b.
  destruct (transfer_fold_later move is_session e rest st1) as (H1 & H2 & H3).
  cbv zeta in H1, H2, H3. rewrite H1, H2, H3.
  assert (Herr : forall x, In x (cm_errors st1) ->
                   In x (cm_errors (fst (fold_left (step move is_session e) rest
                                           (st1, false)))))
    by (intros x; apply transfer_fold_errors).
  revert E1. unfold p0, transfer_ok. cbn [fst snd].
  change (world s0) with (world st).
  unfold step, transfer_step. cbn [fst snd]. change (world s0) with (world st).
  destruct (g_mkdir_with_parents (world st) (path_get_dirname dst)) as [w [|]].
  - destruct (doit World g_rename Gio_copy g_remove_path move w (getFileName e) dst)
      as [w' [|]]; cbn [snd andb].
    + destruct move; intros E1; injection E1 as <-; cbn; (split; [auto|discriminate]).
    + intros E1; injection E1 as <-. cbn [cache_renames session_add cm_session_rem].
      split; [auto|]. intros _. apply Herr. cbn [cm_errors]. apply in_or_app.
      right. now left.
  - cbn [andb]. intros E1; injection E1 as <-.
    cbn [cache_renames session_add cm_session_rem].
    split; [auto|]. intros _. apply Herr. cbn [cm_errors]. apply in_or_app.
    right. now left.
Qed.

End CopyMoveFacts.

(** X14: numbering across a batch.  After the files handled so far, the
    counter stands at the start value plus the number of files handled
    times the number of sequence elements of the pattern, whatever the
    file system answered, whether files were skipped or transfers failed;
    nothing else in the parameters has changed.  Under the skip policy the
    batch always comes to an end. *)
Theorem batch_numbering
    (World : Type) (file_exists : World -> ustring -> bool)
    (getParamFile : ustring -> ustring)
    (g_mkdir_with_parents : World -> ustring -> World * bool)
    (g_rename : World -> ustring -> ustring -> World * RenameResult)
    (Gio_copy : World -> ustring -> ustring -> World * bool)
    (g_remove_path : World -> ustring -> World * bool)
    (getMD5 : FramesMetaData -> ustring)
    (move is_session : bool) (fuel turns : nat)
    (args : list FramesMetaData) (st : CopyMoveState World)
    (Hlo : (INT_MIN <= progressive_number (cm_params st))%Z)
    (Hhi : (progressive_number (cm_params st)
            + Z.of_nat (Nat.min turns (length args))
              * Z.of_nat (progressive_count (pattern (cm_params st)))
            <= INT_MAX)%Z) :
  (forall st',
     copy_move_batch World file_exists getParamFile g_mkdir_with_parents g_rename
       Gio_copy g_remove_path getMD5 move is_session fuel turns args st = Some st' ->
     cm_params st'
     = set_progressive_number (cm_params st)
         (progressive_number (cm_params st)
          + Z.of_nat (Nat.min turns (length args))
            * Z.of_nat (progressive_count (pattern (cm_params st)))))
  /\ (on_existing (cm_params st) = SKIP ->
      exists st',
        copy_move_batch World file_exists getParamFile g_mkdir_with_parents g_rename
          Gio_copy g_remove_path getMD5 move is_session fuel turns args st = Some st').
Proof.
  exact (batch_numbering_lemma World file_exists getParamFile g_mkdir_with_parents
           g_rename Gio_copy g_remove_path getMD5 move is_session fuel turns args st
           Hlo Hhi).
Qed.

Lemma batch_numbering_witness :
  exists st',
    still_batch true false sample_disk 5
      [sample_fd (u "img.cr2"); sample_fd (u "a.jpg"); sample_fd (u "b.jpg")]
      (still_state (sample_params (u "out") numbered_pattern [u "xmp"] SKIP 1))
    = Some st'
    /\ cm_params st' = sample_params (u "out") numbered_pattern [u "xmp"] SKIP (1 + 3 * 1).
Proof.
  destruct (batch_numbering unit (fun _ => sample_disk) sample_param_file
              (fun w _ => (w, true)) (fun w _ _ => (w, RenameOk)) (fun w _ _ => (w, true))
              (fun w _ => (w, true)) (fun _ => u "md5") true false 10 5
              [sample_fd (u "img.cr2"); sample_fd (u "a.jpg"); sample_fd (u "b.jpg")]
              (still_state (sample_params (u "out") numbered_pattern [u "xmp"] SKIP 1)))
    as [Hparams Hends].
  - vm_compute. discriminate.
  - vm_compute. discriminate.
  - destruct (Hends eq_refl) as [st' Hst']. exists st'. split; [exact Hst'|].
    exact (Hparams st' Hst').
Defined.

(** X15: what handling one file registers.  When [get_targets] has
    planned the pairs, [func] handles them and, for a plan that is not
    empty, registers one rename with the cache manager exactly when the
    first pair, which goes from the file itself to a destination that did
    not exist when it was planned, was transferred (the directory made and
    [doit] done) and the batch is a move; the two session lists grow with
    it, in step.  When the first transfer fails, or for a copy, or for an
    empty plan, the three are left alone; a failed first transfer is
    reported as an error.  The later pairs (parameter file, sidecars)
    never register anything. *)
Theorem move_bookkeeping
    (World : Type) (file_exists : World -> ustring -> bool)
    (getParamFile : ustring -> ustring)
    (g_mkdir_with_parents : World -> ustring -> World * bool)
    (g_rename : World -> ustring -> ustring -> World * RenameResult)
    (Gio_copy : World -> ustring -> ustring -> World * bool)
    (g_remove_path : World -> ustring -> World * bool)
    (getMD5 : FramesMetaData -> ustring)
    (move is_session : bool) (fuel : nat)
    (st : CopyMoveState World) (e : FramesMetaData)
    (torename : list (ustring * ustring)) (params' : Params)
    (Hplan : get_targets (file_exists (world st)) getParamFile fuel (cm_params st) e
             = Some (torename, params')) :
  exists st',
    copy_move_func World file_exists getParamFile g_mkdir_with_parents g_rename
      Gio_copy g_remove_path getMD5 move is_session fuel st e = Some st'
    /\ cm_params st' = params'
    /\ match torename with
       | [] =>
           cache_renames st' = cache_renames st /\ session_add st' = session_add st
           /\ cm_session_rem st' = cm_session_rem st /\ cm_errors st' = cm_errors st
       | (src, dst) :: _ =>
           src = getFileName e
           /\ file_exists (world st) dst = false
           /\ (if transfer_ok World g_mkdir_with_parents g_rename Gio_copy g_remove_path
                    move (world st) (src, dst) && move
               then cache_renames st' = cache_renames st ++ [(src, getMD5 e, dst)]
                    /\ session_add st'
                       = (if is_session then session_add st ++ [dst] else session_add st)
                    /\ cm_session_rem st'
                       = (if is_session then cm_session_rem st ++ [src]
                          else cm_session_rem st)
               else cache_renames st' = cache_renames st
                    /\ session_add st' = session_add st
                    /\ cm_session_rem st' = cm_session_rem st)
           /\ (transfer_ok World g_mkdir_with_parents g_rename Gio_copy g_remove_path
                 move (world st) (src, dst) = false ->
               In (src, dst) (cm_errors st'))
       end.
Proof.
  exact (move_bookkeeping_lemma World file_exists getParamFile g_mkdir_with_parents
           g_rename Gio_copy g_remove_path getMD5 move is_session fuel st e
           torename params' Hplan).
Qed.

Lemma move_bookkeeping_witness :
  exists st',
    stuck_func true true sample_disk
      (still_state (sample_params (u "out") numbered_pattern [u "xmp"] SKIP 7))
      (sample_fd (u "img.cr2")) = Some st'
    /\ cache_renames st' = []
    /\ In (u "img.cr2", u "./out/img_007.cr2") (cm_errors st').
Proof.
  destruct (move_bookkeeping unit (fun _ => sample_disk) sample_param_file
              (fun w _ => (w, true)) (fun w _ _ => (w, RenameError))
              (fun w _ _ => (w, true)) (fun w _ => (w, true)) (fun _ => u "md5")
              true true 10
              (still_state (sample_params (u "out") numbered_pattern [u "xmp"] SKIP 7))
              (sample_fd (u "img.cr2"))
              [(u "img.cr2", u "./out/img_007.cr2");
               (u "img.cr2.arp", u "./out/img_007.cr2.arp");
               (u "img.xmp", u "./out/img_007.xmp")]
              (sample_params (u "out") numbered_pattern [u "xmp"] SKIP 8))
    as (st' & Hrun & _ & _ & _ & Hkept & Herr).
  - vm_compute. reflexivity.
  - exists st'. split; [exact Hrun|].
    split; [exact (proj1 Hkept)|]. apply Herr. reflexivity.
Defined.

(** ** The search of [Inspector::switchImage] *)

Lemma entry_at_some (entries : list FileBrowserEntry) (i : N) :
  i < entries_size entries -> exists e, entry_at entries i = Some e.
Proof.
  unfold entries_size, entry_at. intros H.
  destruct (nth_error entries (N.to_nat i)) eqn:E; [eauto|].
  apply nth_error_None in E. lia.
Qed.

Lemma match_at_bound (entries : list FileBrowserEntry) (fullPath : ustring) (k : N) :
  match_at entries fullPath k = true -> k < entries_size entries.
Proof.
  unfold match_at, entry_at, entries_size.
  destruct (nth_error entries (N.to_nat k)) eqn:E; [|discriminate].
  intros _. assert (N.to_nat k < length entries)%nat by (apply nth_error_Some; congruence).
  lia.
Qed.

Lemma search_loop_spec (entries : list FileBrowserEntry) (fullPath : ustring) (start : N) :
  start <= entries_size entries ->
  forall (fuel : nat) (t : N),
    (N.to_nat (start - t)
     + N.to_nat (entries_size entries - N.min (start + t) (entries_size entries)) < fuel)%nat ->
    (forall k, start - t <= k < N.min (start + t) (entries_size entries) ->
       match_at entries fullPath k = false) ->
    exists j,
      search_loop fuel entries fullPath (start - t) (N.min (start + t) (entries_size entries))
      = Done j
      /\ j <= entries_size entries
      /\ (j < entries_size entries ->
          match_at entries fullPath j = true
          /\ forall k, match_at entries fullPath k = true ->
               search_rank start j <= search_rank start k)
      /\ (j = entries_size entries -> forall k, match_at entries fullPath k = false).
Proof.
  intros Hstart. set (size := entries_size entries) in *.
  induction fuel as [|fuel IH]; intros t Hfuel Hinv; [lia|].
  cbn [search_loop]. fold size.
  destruct ((0 <? start - t) || (N.min (start + t) size <? size)) eqn:Hc.
  2:{ apply orb_false_iff in Hc. destruct Hc as [H1 H2].
      apply N.ltb_ge in H1, H2.
      exists size. split; [reflexivity|]. split; [lia|]. split; [lia|].
      intros _ k. destruct (match_at entries fullPath k) eqn:E; [|reflexivity].
      pose proof (match_at_bound _ _ _ E) as Hb. fold size in Hb.
      rewrite Hinv in E by lia. discriminate. }
  assert (Hnext : forall ilo' ihi',
             ilo' = start - (t + 1) -> ihi' = N.min (start + (t + 1)) size ->
             (forall k, ilo' <= k < ihi' -> match_at entries fullPath k = false) ->
             exists j,
               search_loop fuel entries fullPath ilo' ihi' = Done j
               /\ j <= size
               /\ (j < size ->
                   match_at entries fullPath j = true
                   /\ forall k, match_at entries fullPath k = true ->
                        search_rank start j <= search_rank start k)
               /\ (j = size -> forall k, match_at entries fullPath k = false)).
  { intros ilo' ihi' -> -> Hinv'. apply IH; [|exact Hinv'].
    apply orb_true_iff in Hc. rewrite !N.ltb_lt in Hc. lia. }
  clear Hc IH.
  assert (Hrank_lo : 0 < start - t -> forall k,
             match_at entries fullPath k = true ->
             search_rank start (start - t - 1) <= search_rank start k).
  { intros Hpos k Hk. pose proof (match_at_bound _ _ _ Hk) as Hb. fold size in Hb.
    assert (Hout : k < start - t \/ N.min (start + t) size <= k).
    { destruct (N.lt_ge_cases k (start - t)) as [?|?]; [now left|right].
      destruct (N.lt_ge_cases k (N.min (start + t) size)) as [?|?]; [|assumption].
      rewrite Hinv in Hk by lia. discriminate. }
    unfold search_rank.
    destruct (N.ltb_spec (start - t - 1) start), (N.ltb_spec k start); lia. }
  destruct (N.ltb_spec 0 (start - t)) as [Hpos|Hzero].
  - destruct (entry_at_some entries (start - t - 1)) as [e He]; [fold size; lia|].
    rewrite He. destruct (entry_matches e fullPath) eqn:Em.
    + exists (start - t - 1). split; [reflexivity|]. split; [lia|]. split; [|lia].
      intros _. split; [unfold match_at; now rewrite He|]. now apply Hrank_lo.
    + assert (Hlow : match_at entries fullPath (start - t - 1) = false)
        by (unfold match_at; now rewrite He).
      destruct (N.ltb_spec (N.min (start + t) size) size) as [Hhi|Hhi].
      * destruct (entry_at_some entries (N.min (start + t) size)) as [e' He'];
          [fold size; lia|].
        rewrite He'. destruct (entry_matches e' fullPath) eqn:Em'.
        -- exists (N.min (start + t) size). split; [reflexivity|]. split; [lia|].
           split; [|lia]. intros _. split; [unfold match_at; now rewrite He'|].
           intros k Hk. pose proof (match_at_bound _ _ _ Hk) as Hb. fold size in Hb.
           assert (Hout : k < start - t - 1 \/ N.min (start + t) size <= k).
           { destruct (N.lt_ge_cases k (start - t - 1)) as [?|?]; [now left|right].
             destruct (N.lt_ge_cases k (N.min (start + t) size)) as [?|?]; [|assumption].
             destruct (N.eq_dec k (start - t - 1)) as [->|?]; [congruence|].
             rewrite Hinv in Hk by lia. discriminate. }
           unfold search_rank.
           destruct (N.ltb_spec (N.min (start + t) size) start), (N.ltb_spec k start); lia.
        -- apply Hnext; [lia|lia|].
           intros k Hk.
           destruct (N.eq_dec k (start - t - 1)) as [->|?]; [exact Hlow|].
           destruct (N.eq_dec k (N.min (start + t) size)) as [->|?];
             [unfold match_at; now rewrite He'|].
           apply Hinv. lia.
      * apply Hnext; [lia|lia|].
        intros k Hk.
        destruct (N.eq_dec k (start - t - 1)) as [->|?]; [exact Hlow|].
        apply Hinv. lia.
  - destruct (N.ltb_spec (N.min (start + t) size) size) as [Hhi|Hhi].
    + destruct (entry_at_some entries (N.min (start + t) size)) as [e' He'];
        [fold size; lia|].
      rewrite He'. destruct (entry_matches e' fullPath) eqn:Em'.
      * exists (N.min (start + t) size). split; [reflexivity|]. split; [lia|].
        split; [|lia]. intros _. split; [unfold match_at; now rewrite He'|].
        intros k Hk. pose proof (match_at_bound _ _ _ Hk) as Hb. fold size in Hb.
        assert (Hout : N.min (start + t) size <= k).
        { destruct (N.lt_ge_cases k (N.min (start + t) size)) as [?|?]; [|assumption].
          rewrite Hinv in Hk by lia. discriminate. }
        unfold search_rank.
        destruct (N.ltb_spec (N.min (start + t) size) start), (N.ltb_spec k start); lia.
      * apply Hnext; [lia|lia|].
        intros k Hk.
        destruct (N.eq_dec k (N.min (start + t) size)) as [->|?];
          [unfold match_at; now rewrite He'|].
        apply Hinv. lia.
    + apply Hnext; [lia|lia|]. intros k Hk. apply Hinv. lia.
Qed.

Lemma find_entry_spec (entries : list FileBrowserEntry) (cur_idx : N) (fullPath : ustring) :
  entries_size entries < size_modulus ->
  entries <> [] \/ cur_idx = 0 ->
  exists j,
    find_entry entries cur_idx fullPath = Done j
    /\ j <= entries_size entries
    /\ (j < entries_size entries ->
        match_at entries fullPath j = true
        /\ forall k, match_at entries fullPath k = true ->
             search_rank (search_start entries cur_idx) j
             <= search_rank (search_start entries cur_idx) k)
    /\ (j = entries_size entries -> forall k, match_at entries fullPath k = false).
Proof.
  intros Hsize Hsafe. unfold find_entry. fold (search_start entries cur_idx).
  set (start := search_start entries cur_idx).
  assert (Hstart : start <= entries_size entries).
  { unfold start, search_start. destruct Hsafe as [Hne| ->]; [|rewrite N.min_0_l; apply N.le_0_l].
    assert (0 < entries_size entries).
    { unfold entries_size. destruct entries; [congruence|]. cbn [length]. lia. }
    rewrite size_sub_exact by lia. lia. }
  pose proof (search_loop_spec entries fullPath start Hstart (S (length entries)) 0) as H.
  rewrite N.sub_0_r, N.add_0_r, (N.min_l _ _ Hstart) in H.
  apply H.
  - unfold entries_size in *. lia.
  - intros k Hk. lia.
Qed.

Lemma find_entry_empty (cur_idx : N) (fullPath : ustring) :
  0 < cur_idx -> find_entry [] cur_idx fullPath = OutOfBounds.
Proof.
  intros H. unfold find_entry. cbn [length search_loop].
  change (entries_size []) with 0.
  assert (Hs : 0 < N.min cur_idx (size_sub 0 1)).
  { change (size_sub 0 1) with 18446744073709551615. lia. }
  apply N.ltb_lt in Hs. rewrite Hs. cbn [orb].
  unfold entry_at. now destruct (N.to_nat _).
Qed.

Lemma name_below (entries : list FileBrowserEntry) (i : nat) :
  (i <= length entries)%nat ->
  prev_loop entries i
  = Done (match find (fun e => negb (filtered e)) (rev (firstn i entries)) with
          | Some e => filename e
          | None => []
          end).
Proof.
  induction i as [|i IH]; intros Hi; [reflexivity|].
  cbn [prev_loop].
  destruct (nth_error entries i) as [e|] eqn:E; [|apply nth_error_None in E; lia].
  assert (Hf : firstn (S i) entries = firstn i entries ++ [e]).
  { clear IH. revert i Hi E. induction entries as [|x l IHl]; intros i Hi E.
    - now destruct i.
    - destruct i as [|i]; cbn in E |- *.
      + now injection E as ->.
      + f_equal. apply IHl; [cbn in Hi; lia|exact E]. }
  rewrite Hf, rev_app_distr. cbn [rev app find].
  destruct (negb (filtered e)); [reflexivity|]. apply IH. lia.
Qed.

Lemma name_above (entries : list FileBrowserEntry) (fuel : nat) :
  forall i : N,
    (length entries - N.to_nat i < fuel)%nat ->
    next_loop fuel entries i
    = Done (match find (fun e => negb (filtered e)) (skipn (N.to_nat i) entries) with
            | Some e => filename e
            | None => []
            end).
Proof.
  induction fuel as [|fuel IH]; intros i Hfuel; [lia|].
  cbn [next_loop]. unfold entries_size, entry_at.
  destruct (N.ltb_spec i (N.of_nat (length entries))) as [Hi|Hi].
  - destruct (nth_error entries (N.to_nat i)) as [e|] eqn:E;
      [|apply nth_error_None in E; lia].
    assert (Hs : skipn (N.to_nat i) entries = e :: skipn (S (N.to_nat i)) entries).
    { clear IH Hfuel Hi. revert E. generalize (N.to_nat i) as n.
      induction entries as [|x l IHl]; intros n E.
      - now destruct n.
      - destruct n as [|n]; cbn in E |- *.
        + now injection E as ->.
        + now apply IHl. }
    rewrite Hs. cbn [find]. destruct (negb (filtered e)); [reflexivity|].
    rewrite IH by lia. now replace (N.to_nat (i + 1)) with (S (N.to_nat i)) by lia.
  - rewrite skipn_all2 by lia. reflexivity.
Qed.

Lemma preload_of_name (o : option FileBrowserEntry) :
  (if negb (empty (match o with Some e => filename e | None => [] end))
   then [match o with Some e => filename e | None => [] end] else [])
  = preload_of o.
Proof.
  destruct o as [e|]; [|reflexivity]. unfold preload_of.
  now destruct (empty (filename e)).
Qed.

Lemma preload_of_length (o : option FileBrowserEntry) : (length (preload_of o) <= 1)%nat.
Proof. destruct o as [e|]; cbn; [destruct (empty (filename e)); cbn; lia|lia]. Qed.

Lemma preload_of_shown (entries : list FileBrowserEntry) (l : list FileBrowserEntry) :
  incl l entries ->
  Forall (fun p => p <> [] /\ In p (unfiltered_names entries))
    (preload_of (find (fun e => negb (filtered e)) l)).
Proof.
  intros Hincl.
  destruct (find (fun e => negb (filtered e)) l) as [e|] eqn:E; [|constructor].
  apply find_some in E. destruct E as [Hin Hunf].
  unfold preload_of. destruct (filename e) eqn:En; cbn [empty]; constructor; [|constructor].
  split; [discriminate|]. rewrite <- En. unfold unfiltered_names.
  apply in_map. apply filter_In. split; [now apply Hincl|exact Hunf].
Qed.

Lemma switchImage_spec (maxInspectorBuffers : Z) (entries : list FileBrowserEntry)
    (cur_idx : N) (fullPath : ustring) :
  entries_size entries < size_modulus ->
  entries <> [] \/ cur_idx = 0 ->
  exists r,
    Inspector_switchImage maxInspectorBuffers entries cur_idx fullPath = Done r
    /\ shown_path r = fullPath
    /\ ((exists k, match_at entries fullPath k = true) ->
        match_at entries fullPath (shown_idx r) = true
        /\ preloads r
           = (if (1 <? maxInspectorBuffers)%Z
              then preload_of (nearest_above entries (shown_idx r)) else [])
             ++ (if (2 <? maxInspectorBuffers)%Z
                 then preload_of (nearest_below entries (shown_idx r)) else []))
    /\ ((forall k, match_at entries fullPath k = false) ->
        shown_idx r = cur_idx /\ preloads r = [])
    /\ (1 + Z.of_nat (length (preloads r)) <= Z.max maxInspectorBuffers 1)%Z
    /\ Forall (fun p => p <> [] /\ In p (unfiltered_names entries)) (preloads r).
Proof.
  intros Hsize Hsafe. unfold Inspector_switchImage.
  destruct (find_entry_spec entries cur_idx fullPath Hsize Hsafe)
    as (j & -> & Hj & Hfound & Hnone).
  destruct (N.ltb_spec j (entries_size entries)) as [Hlt|Hge].
  - destruct (Hfound Hlt) as [Hm _].
    assert (Hprev : (if (2 <? maxInspectorBuffers)%Z then prev_loop entries (N.to_nat j)
                     else Done [])
                    = Done (match (if (2 <? maxInspectorBuffers)%Z
                                   then nearest_below entries j else None) with
                            | Some e => filename e | None => [] end)).
    { destruct (2 <? maxInspectorBuffers)%Z; [|reflexivity].
      apply name_below. unfold entries_size in Hlt. lia. }
    assert (Hnext : (if (1 <? maxInspectorBuffers)%Z
                     then next_loop (length entries) entries (j + 1) else Done [])
                    = Done (match (if (1 <? maxInspectorBuffers)%Z
                                   then nearest_above entries j else None) with
                            | Some e => filename e | None => [] end)).
    { destruct (1 <? maxInspectorBuffers)%Z; [|reflexivity].
      rewrite name_above by (unfold entries_size in Hlt; lia).
      unfold nearest_above. now replace (N.to_nat (j + 1)) with (S (N.to_nat j)) by lia. }
    rewrite Hprev, Hnext, !preload_of_name.
    eexists. split; [reflexivity|]. cbn [shown_path shown_idx preloads].
    split; [reflexivity|].
    split; [|split; [|split]].
    + intros _. split; [exact Hm|].
      now destruct (1 <? maxInspectorBuffers)%Z, (2 <? maxInspectorBuffers)%Z.
    + intros Hno. rewrite Hno in Hm. discriminate.
    + rewrite length_app.
      pose proof (preload_of_length (nearest_above entries j)).
      pose proof (preload_of_length (nearest_below entries j)).
      destruct (Z.ltb_spec 1 maxInspectorBuffers), (Z.ltb_spec 2 maxInspectorBuffers);
        cbn [preload_of length] in *; lia.
    + apply Forall_app. split.
      * destruct (1 <? maxInspectorBuffers)%Z; [|constructor].
        apply preload_of_shown. intros x Hx.
        rewrite <- (firstn_skipn (S (N.to_nat j)) entries). apply in_or_app. now right.
      * destruct (2 <? maxInspectorBuffers)%Z; [|constructor].
        apply preload_of_shown. intros x Hx. apply in_rev in Hx.
        rewrite <- (firstn_skipn (N.to_nat j) entries). apply in_or_app. now left.
  - assert (j = entries_size entries) as Hj' by lia.
    eexists. split; [reflexivity|]. cbn [shown_path shown_idx preloads length].
    split; [reflexivity|]. split; [|split; [|split]].
    + intros [k Hk]. rewrite (Hnone Hj' k) in Hk. discriminate.
    + intros _. now split.
    + lia.
    + constructor.
Qed.


Lemma search_rank_injective (start j k : N) :
  search_rank start j = search_rank start k -> j = k.
Proof.
  unfold search_rank.
  destruct (N.ltb_spec j start), (N.ltb_spec k start); lia.
Qed.

(** X16: the search of [switchImage] for the entry of a path reads the
    vector of entries inside its bounds and comes to an end, with one
    exception: when the vector is empty and the index kept from the
    image shown before is not 0, its first read, [entries[ilo - 1]], is
    outside the vector. *)
Theorem find_entry_reads_in_bounds
    (entries : list FileBrowserEntry) (cur_idx : N) (fullPath : ustring)
    (Hsize : entries_size entries < size_modulus) :
  (find_entry entries cur_idx fullPath = OutOfBounds <-> entries = [] /\ 0 < cur_idx)
  /\ find_entry entries cur_idx fullPath <> OutOfFuel.
Proof.
  destruct entries as [|e l] eqn:El.
  - destruct (N.eq_dec cur_idx 0) as [->|Hpos].
    + split; [|discriminate]. split; [discriminate|]. intros [_ H]. lia.
    + rewrite find_entry_empty by lia. split; [|discriminate].
      split; [intros _; split; [reflexivity|lia]|reflexivity].
  - rewrite <- El in *.
    destruct (find_entry_spec entries cur_idx fullPath Hsize) as (j & -> & _).
    + left. rewrite El. discriminate.
    + split; [|discriminate]. split; [discriminate|]. rewrite El. intros [H _]. discriminate.
Qed.

Lemma find_entry_reads_in_bounds_witness :
  find_entry sample_entries 7 (u "c.jpg") <> OutOfFuel.
Proof.
  apply (find_entry_reads_in_bounds sample_entries 7 (u "c.jpg")).
  vm_compute. reflexivity.
Defined.

(** X17: the search finds the path exactly when an entry that is not
    filtered out has it as its name: it then gives the index of such an
    entry, and otherwise the size of the vector, which makes
    [switchImage] leave the index of the pane alone. *)
Theorem find_entry_finds
    (entries : list FileBrowserEntry) (cur_idx : N) (fullPath : ustring)
    (Hsize : entries_size entries < size_modulus)
    (Hsafe : entries <> [] \/ cur_idx = 0) :
  exists j,
    find_entry entries cur_idx fullPath = Done j
    /\ j <= entries_size entries
    /\ (j < entries_size entries <-> exists k, match_at entries fullPath k = true)
    /\ (j < entries_size entries -> match_at entries fullPath j = true).
Proof.
  destruct (find_entry_spec entries cur_idx fullPath Hsize Hsafe)
    as (j & Hj & Hle & Hfound & Hnone).
  exists j. split; [exact Hj|]. split; [exact Hle|]. split.
  - split.
    + intros Hlt. exists j. now apply Hfound.
    + intros [k Hk]. destruct (N.eq_dec j (entries_size entries)) as [E|E]; [|lia].
      rewrite (Hnone E k) in Hk. discriminate.
  - intros Hlt. now apply Hfound.
Qed.

Lemma find_entry_finds_witness :
  exists j, find_entry sample_entries 7 (u "c.jpg") = Done j
            /\ match_at sample_entries (u "c.jpg") j = true.
Proof.
  destruct (find_entry_finds sample_entries 7 (u "c.jpg")) as (j & Hj & _ & Hiff & Hm).
  - vm_compute. reflexivity.
  - left. discriminate.
  - exists j. split; [exact Hj|]. apply Hm. apply Hiff. exists 2. reflexivity.
Defined.

(** X18: among the entries that match, the search settles on the one it
    meets first going outward from where it starts (the index of the
    image shown before, or the last entry when the vector has become
    shorter), looking below before above at each distance; no two
    indices share a turn, so that entry is determined. *)
Theorem find_entry_nearest
    (entries : list FileBrowserEntry) (cur_idx : N) (fullPath : ustring) (j k : N)
    (Hsize : entries_size entries < size_modulus)
    (Hsafe : entries <> [] \/ cur_idx = 0)
    (Hfind : find_entry entries cur_idx fullPath = Done j)
    (Hk : match_at entries fullPath k = true) :
  match_at entries fullPath j = true
  /\ search_rank (search_start entries cur_idx) j
     <= search_rank (search_start entries cur_idx) k
  /\ (search_rank (search_start entries cur_idx) j
      = search_rank (search_start entries cur_idx) k -> j = k).
Proof.
  destruct (find_entry_spec entries cur_idx fullPath Hsize Hsafe)
    as (j' & Hj & Hle & Hfound & Hnone).
  rewrite Hfind in Hj. injection Hj as <-.
  destruct (N.eq_dec j (entries_size entries)) as [E|E].
  - rewrite (Hnone E k) in Hk. discriminate.
  - destruct Hfound as [Hm Hrank]; [lia|].
    split; [exact Hm|]. split; [now apply Hrank|apply search_rank_injective].
Qed.

Lemma find_entry_nearest_witness :
  match_at (sample_entries ++ sample_entries) (u "c.jpg") 2 = true
  /\ search_rank (search_start (sample_entries ++ sample_entries) 3) 2
     <= search_rank (search_start (sample_entries ++ sample_entries) 3) 6.
Proof.
  destruct (find_entry_nearest (sample_entries ++ sample_entries) 3 (u "c.jpg") 2 6)
    as (Hm & Hrank & _).
  - vm_compute. reflexivity.
  - left. discriminate.
  - vm_compute. reflexivity.
  - vm_compute. reflexivity.
  - split; [exact Hm|exact Hrank].
Defined.

(** X19: what [switchImage] asks to preload.  When the path is found,
    the callback it registers preloads the nearest shown entry after the
    one found if the configured number of buffers is above 1, then the
    nearest shown entry before it if that number is above 2, skipping an
    entry with an empty name; when the path is not found, the index of the
    pane stays and nothing is preloaded.  So the image shown and its
    preloads never number more than the capacity the cache is built with,
    and every preload is the name of a shown entry. *)
Theorem switchImage_preloads
    (maxInspectorBuffers : Z) (entries : list FileBrowserEntry)
    (cur_idx : N) (fullPath : ustring)
    (Hsize : entries_size entries < size_modulus)
    (Hsafe : entries <> [] \/ cur_idx = 0) :
  exists r,
    Inspector_switchImage maxInspectorBuffers entries cur_idx fullPath = Done r
    /\ shown_path r = fullPath
    /\ ((exists k, match_at entries fullPath k = true) ->
        match_at entries fullPath (shown_idx r) = true
        /\ preloads r
           = (if (1 <? maxInspectorBuffers)%Z
              then preload_of (nearest_above entries (shown_idx r)) else [])
             ++ (if (2 <? maxInspectorBuffers)%Z
                 then preload_of (nearest_below entries (shown_idx r)) else []))
    /\ ((forall k, match_at entries fullPath k = false) ->
        shown_idx r = cur_idx /\ preloads r = [])
    /\ (1 + Z.of_nat (length (preloads r)) <= Z.max maxInspectorBuffers 1)%Z
    /\ Forall (fun p => p <> [] /\ In p (unfiltered_names entries)) (preloads r).
Proof.
  exact (switchImage_spec maxInspectorBuffers entries cur_idx fullPath Hsize Hsafe).
Qed.

Lemma switchImage_preloads_witness :
  exists r,
    Inspector_switchImage 3 sample_entries 0 (u "c.jpg") = Done r
    /\ shown_path r = u "c.jpg"
    /\ (1 + Z.of_nat (length (preloads r)) <= Z.max 3 1)%Z.
Proof.
  destruct (switchImage_preloads 3 sample_entries 0 (u "c.jpg"))
    as (r & Hr & Hp & _ & _ & Hcap & _).
  - vm_compute. reflexivity.
  - left. discriminate.
  - exists r. split; [exact Hr|]. split; [exact Hp|exact Hcap].
Defined.

(** ** The displayed area *)

Lemma draw_axis_spec (availableSize im center : Z) :
  (0 <= availableSize <= INT_MAX)%Z -> (0 <= im <= INT_MAX)%Z ->
  (0 <= center)%Z -> (center + Z.quot availableSize 2 <= INT_MAX)%Z ->
  let '(topLeft, dest, dw) := draw_axis availableSize im center in
  (0 <= topLeft)%Z /\ (topLeft + dw <= im)%Z
  /\ (0 <= dest)%Z /\ (dest + dw <= availableSize)%Z
  /\ dw = Z.min availableSize im
  /\ ((im < availableSize)%Z ->
      topLeft = 0%Z /\ (0 <= availableSize - im - 2 * dest <= 1)%Z)
  /\ ((availableSize <= im)%Z ->
      dest = 0%Z
      /\ topLeft = Z.max 0 (Z.min (center - (availableSize - Z.quot availableSize 2))
                              (im - availableSize))).
Proof.
  unfold INT_MAX. intros Ha Hi Hc Hsum. unfold draw_axis.
  assert (Hq : Z.quot availableSize 2 = (availableSize / 2)%Z)
    by (apply Z.quot_div_nonneg; lia).
  destruct (Z.ltb_spec im availableSize) as [Hlt|Hge].
  - assert (Hq' : Z.quot (availableSize - im) 2 = ((availableSize - im) / 2)%Z)
      by (apply Z.quot_div_nonneg; lia).
    rewrite (int_wrap_in_range (availableSize - im)) by (unfold INT_MIN, INT_MAX; lia).
    rewrite Hq'.
    pose proof (Z.mod_pos_bound (availableSize - im) 2 ltac:(lia)) as Hm.
    pose proof (Z.div_mod (availableSize - im) 2 ltac:(lia)) as Hd.
    revert Hm Hd. generalize ((availableSize - im) mod 2)%Z as r.
    generalize ((availableSize - im) / 2)%Z as d. intros d r Hm Hd.
    rewrite (int_wrap_in_range d) by (unfold INT_MIN, INT_MAX; lia).
    rewrite int_wrap_in_range by (unfold INT_MIN, INT_MAX; lia).
    repeat split; lia.
  - rewrite Hq in *.
    assert (0 <= availableSize / 2)%Z by (apply Z.div_pos; lia).
    revert H Hsum. generalize (availableSize / 2)%Z as h. intros h H Hsum.
    rewrite (int_wrap_in_range (center + h)) by (unfold INT_MIN, INT_MAX; lia).
    rewrite (int_wrap_in_range (Z.min _ _ - _)) by (unfold INT_MIN, INT_MAX; lia).
    rewrite int_wrap_in_range by (unfold INT_MIN, INT_MAX; lia).
    repeat split; lia.
Qed.

(** ** The display-mode buttons *)

Lemma ModeButton_eqb_eq (a b : ModeButton) : ModeButton_eqb a b = true <-> a = b.
Proof. destruct a, b; cbn; split; congruence. Qed.

Lemma mode_is_flags (st : ModeState) (b : ModeButton) :
  mode_is st b ->
  jpg_active st = ModeButton_eqb jpg_ b
  /\ rawlinear_active st = ModeButton_eqb rawlinear_ b
  /\ rawfilm_active st = ModeButton_eqb rawfilm_ b
  /\ rawshadow_active st = ModeButton_eqb rawshadow_ b
  /\ rawclip_active st = ModeButton_eqb rawclip_ b.
Proof.
  intros [H _].
  pose proof (H jpg_). pose proof (H rawlinear_). pose proof (H rawfilm_).
  pose proof (H rawshadow_). pose proof (H rawclip_). cbn in *. auto.
Qed.

Lemma mode_event_step (st : ModeState) (b0 : ModeButton) (ev : ModeEvent) :
  mode_is st b0 ->
  mode_is (mode_event st ev) (mode_target ev)
  /\ mode_reloads (mode_event st ev)
     = (if ModeButton_eqb (mode_target ev) b0 then mode_reloads st
        else S (mode_reloads st))
  /\ (mode_target ev = b0 -> mode_event st ev = st).
Proof.
  intros Hst. pose proof (mode_is_flags st b0 Hst) as (H1 & H2 & H3 & H4 & H5).
  destruct Hst as [_ Hsay].
  destruct st as [a1 a2 a3 a4 a5 m c n]. cbn in H1, H2, H3, H4, H5, Hsay. subst.
  destruct ev as [b|b]; destruct b, b0; cbn in Hsay |- *;
    (split; [split; [intros b'; destruct b'; reflexivity|cbn; tauto]|]);
    (split; [reflexivity|]); intros E; try discriminate E; reflexivity.
Qed.

Lemma last_cons_default {A : Type} (l : list A) :
  forall x d d' : A, last (x :: l) d = last (x :: l) d'.
Proof.
  induction l as [|y l IH]; intros x d d'; [reflexivity|].
  change (last (y :: l) d = last (y :: l) d'). apply IH.
Qed.

Lemma mode_events_last (evs : list ModeEvent) :
  forall (st : ModeState) (b0 : ModeButton),
    mode_is st b0 ->
    mode_is (fold_left mode_event evs st) (last (map mode_target evs) b0).
Proof.
  induction evs as [|ev evs IH]; intros st b0 Hst; [exact Hst|].
  cbn [fold_left map].
  destruct (mode_event_step st b0 ev Hst) as [Hstep _].
  specialize (IH _ _ Hstep).
  destruct evs as [|ev' evs]; [exact IH|].
  cbn [map] in IH |- *.
  rewrite (last_cons_default _ (mode_target ev) b0 (mode_target ev)).
  change (last (mode_target ev :: mode_target ev' :: map mode_target evs) (mode_target ev))
    with (last (mode_target ev' :: map mode_target evs) (mode_target ev)).
  exact IH.
Qed.

(** ** The zoom buttons *)

Lemma zoom_event_consistent (st : ZoomState) (ev : ZoomEvent) :
  zoom_consistent st -> zoom_consistent (zoom_event st ev).
Proof.
  unfold zoom_consistent. destruct st as [f o opt tmp n]. cbn. intros [-> ->].
  destruct ev as [[|]|[|]| |]; destruct f, tmp; cbn; auto.
Qed.

Lemma zoom_events_consistent (evs : list ZoomEvent) :
  forall st, zoom_consistent st -> zoom_consistent (fold_left zoom_event evs st).
Proof.
  induction evs as [|ev evs IH]; intros st H; [exact H|].
  cbn [fold_left]. apply IH. now apply zoom_event_consistent.
Qed.

Lemma press_release (st : ZoomState) :
  zoom_consistent st -> temp_zoom_11_ st = false ->
  let pressed := on_pressed st in
  let released := on_released pressed in
  (zoom_fit_option st = true ->
   zoom11_active pressed = true /\ zoomfit_active pressed = false
   /\ zoom_fit_option pressed = false /\ temp_zoom_11_ pressed = true)
  /\ (zoom_fit_option st = false -> pressed = st)
  /\ zoomfit_active released = zoomfit_active st
  /\ zoom11_active released = zoom11_active st
  /\ zoom_fit_option released = zoom_fit_option st
  /\ temp_zoom_11_ released = false
  /\ zoom_reloads released
     = (if zoom_fit_option st then 2 + zoom_reloads st else zoom_reloads st)%nat.
Proof.
  unfold zoom_consistent. destruct st as [f o opt tmp n]. cbn.
  intros [-> ->] ->. destruct f; cbn; repeat split; intros; congruence.
Qed.

(** ** The split view *)

Lemma split_event_inv (st st' : SplitState) (ev : SplitEvent) :
  split_inv st -> split_event st ev = Some st' -> split_inv st'.
Proof.
  unfold split_inv. destruct st as [sp a n h0 h1]. cbn. intros (Ha & Hn & Hh).
  destruct ev as [|button i|]; cbn.
  - intros E. injection E as <-. unfold split_toggled. destruct sp; cbn; repeat split; lia.
  - destruct (N.ltb_spec i n) as [Hi|Hi]; [|discriminate].
    intros E. injection E as <-. unfold onGrabFocus.
    destruct (button =? 1)%Z; cbn; [|auto].
    split; [exact Hi|]. split; [exact Hn|].
    destruct sp; subst n.
    + assert (a = 0 \/ a = 1) as [-> | ->] by lia;
        assert (i = 0 \/ i = 1) as [-> | ->] by lia; cbn in *; auto.
    + assert (a = 0) as -> by lia. assert (i = 0) as -> by lia. cbn in *. auto.
  - intros E. injection E as <-. unfold key_Tab. cbn.
    destruct sp; cbn; [|auto]. subst n.
    assert (a = 0 \/ a = 1) as [-> | ->] by lia; cbn; repeat split; lia.
Qed.

Lemma split_run_inv (evs : list SplitEvent) :
  forall st st', split_inv st -> split_run evs st = Some st' -> split_inv st'.
Proof.
  induction evs as [|ev evs IH]; intros st st' Hinv H.
  - cbn in H. now injection H as <-.
  - cbn [split_run] in H. destruct (split_event st ev) as [st1|] eqn:E; [|discriminate].
    eapply IH; [|exact H]. eapply split_event_inv; eauto.
Qed.

(** ** [FastMetadata] *)

Lemma meta_queries_loaded (cd : CacheImageData) (qs : list MetaQuery) :
  meta_queries cd true qs = (repeat FromFile (length qs), O).
Proof.
  induction qs as [|q qs IH]; [reflexivity|].
  cbn [meta_queries meta_query]. now rewrite IH.
Qed.

Lemma meta_queries_spec (cd : CacheImageData) (qs : list MetaQuery) :
  meta_queries cd false qs
  = (repeat FromCache (cached_prefix cd qs)
     ++ repeat FromFile (length qs - cached_prefix cd qs),
     if (cached_prefix cd qs <? length qs)%nat then 1%nat else 0%nat).
Proof.
  induction qs as [|q qs IH]; [reflexivity|].
  destruct q; cbn [meta_queries meta_query cached_prefix cache_answers length];
    [destruct (timeValid cd)|destruct (exifValid cd)]; cbn [negb];
    rewrite ?IH, ?meta_queries_loaded; reflexivity.
Qed.

Lemma cached_prefix_all (cd : CacheImageData) (qs : list MetaQuery) :
  (cached_prefix cd qs <= length qs)%nat
  /\ (cached_prefix cd qs = length qs <-> forallb (cache_answers cd) qs = true).
Proof.
  induction qs as [|q qs [IH1 IH2]]; [cbn; split; [lia|tauto]|].
  cbn [cached_prefix forallb length]. destruct (cache_answers cd q); cbn [andb].
  - split; [lia|]. rewrite <- IH2. lia.
  - split; [lia|]. split; [lia|discriminate].
Qed.

(** ** The delay of [InspectorArea::switchImage] *)

Lemma area_switch_delayed (inspectorDelay : Z) (st : AreaState) (p : ustring) :
  inspectorDelay <> 0%Z -> area_active st = true ->
  area_switchImage inspectorDelay st p
  = {| area_active := true; next_image_path_ := p;
       delayconn_connected := true; shown := shown st |}.
Proof.
  intros Hd Hact. apply Z.eqb_neq in Hd. unfold area_switchImage.
  rewrite Hact, Hd. reflexivity.
Qed.

Lemma area_switches_delayed (inspectorDelay : Z) (paths : list ustring) :
  inspectorDelay <> 0%Z ->
  forall st,
    area_active st = true ->
    let st' := fold_left (area_event inspectorDelay) (map SwitchImage paths) st in
    area_active st' = true /\ shown st' = shown st
    /\ next_image_path_ st' = last paths (next_image_path_ st)
    /\ delayconn_connected st'
       = (match paths with [] => delayconn_connected st | _ => true end).
Proof.
  intros Hd.
  induction paths as [|p paths IH]; intros st Hact; [cbn; auto|].
  cbn [map fold_left area_event]. rewrite area_switch_delayed by assumption.
  specialize (IH {| area_active := true; next_image_path_ := p;
                    delayconn_connected := true; shown := shown st |} eq_refl).
  cbv zeta in IH |- *. cbn [shown next_image_path_ delayconn_connected] in IH.
  destruct IH as (H1 & H2 & H3 & H4).
  rewrite H1, H2, H3, H4. split; [reflexivity|]. split; [reflexivity|].
  split; [|now destruct paths].
  destruct paths as [|q paths]; [reflexivity|].
  change (last (p :: q :: paths) (next_image_path_ st))
    with (last (q :: paths) (next_image_path_ st)).
  apply last_cons_default.
Qed.

Lemma area_timeouts (inspectorDelay : Z) (k : nat) :
  forall st,
    delayconn_connected st = true ->
    let st' := fold_left (area_event inspectorDelay) (repeat Timeout k) st in
    shown st' = shown st ++ repeat (next_image_path_ st) k
    /\ next_image_path_ st' = next_image_path_ st
    /\ delayconn_connected st' = true /\ area_active st' = area_active st.
Proof.
  induction k as [|k IH]; intros st Hc; [cbn; rewrite app_nil_r; auto|].
  cbn [repeat fold_left area_event]. unfold area_timeout. rewrite Hc.
  cbn [area_doSwitchImage].
  match goal with |- context [fold_left _ _ ?s] => specialize (IH s eq_refl) end.
  cbv zeta in IH. destruct IH as (H1 & H2 & H3 & H4).
  cbv zeta. rewrite H1, H2, H3, H4.
  cbn [shown next_image_path_ area_active]. rewrite <- app_assoc. now repeat split.
Qed.

(** X20: along each axis the area that [on_draw] takes from the image
    lies inside the image and the area it draws to lies inside the
    window, wherever the centre is: the extent is the smaller of the two
    sizes; a smaller image is centred in the window (to the pixel, the odd
    one on the far side); a larger one is shown around the centre, pushed
    back inside when the centre is near an edge. *)
Theorem draw_area_within_image (availableSize im center : Z)
    (Hwindow : (0 <= availableSize <= INT_MAX)%Z) (Himage : (0 <= im <= INT_MAX)%Z)
    (Hcenter : (0 <= center)%Z)
    (Hsum : (center + Z.quot availableSize 2 <= INT_MAX)%Z) :
  let '(topLeft, dest, dw) := draw_axis availableSize im center in
  (0 <= topLeft)%Z /\ (topLeft + dw <= im)%Z
  /\ (0 <= dest)%Z /\ (dest + dw <= availableSize)%Z
  /\ dw = Z.min availableSize im
  /\ ((im < availableSize)%Z ->
      topLeft = 0%Z /\ (0 <= availableSize - im - 2 * dest <= 1)%Z)
  /\ ((availableSize <= im)%Z ->
      dest = 0%Z
      /\ topLeft = Z.max 0 (Z.min (center - (availableSize - Z.quot availableSize 2))
                              (im - availableSize))).
Proof. exact (draw_axis_spec availableSize im center Hwindow Himage Hcenter Hsum). Qed.

Lemma draw_area_within_image_witness :
  let '(topLeft, dest, dw) := draw_axis 800 6000 5900 in
  (0 <= topLeft)%Z /\ (topLeft + dw <= 6000)%Z.
Proof.
  pose proof (draw_area_within_image 800 6000 5900) as H.
  destruct (draw_axis 800 6000 5900) as [[topLeft dest] dw].
  destruct H as (H1 & H2 & _); try (vm_compute; intuition discriminate).
  split; [exact H1|exact H2].
Defined.

(** X21: the five display-mode buttons behave as a radio group.  From a
    state in which one button is active and the settings say its mode,
    after any series of clicks and mode keys exactly the button of the
    last event is active and the settings say its mode; an event on the
    button that is active already changes nothing and loads nothing (a
    click cannot switch the active button off), and any other event
    flushes and reloads the panes once. *)
Theorem mode_buttons_form_a_radio_group (st : ModeState) (b0 : ModeButton)
    (Hst : mode_is st b0) :
  (forall evs, mode_is (fold_left mode_event evs st) (last (map mode_target evs) b0))
  /\ (forall ev,
        mode_reloads (mode_event st ev)
        = (if ModeButton_eqb (mode_target ev) b0 then mode_reloads st
           else S (mode_reloads st)))
  /\ (forall ev, mode_target ev = b0 -> mode_event st ev = st).
Proof.
  split; [|split].
  - intros evs. now apply mode_events_last.
  - intros ev. now destruct (mode_event_step st b0 ev Hst) as (_ & H & _).
  - intros ev. now destruct (mode_event_step st b0 ev Hst) as (_ & _ & H).
Qed.

Lemma mode_buttons_form_a_radio_group_witness :
  mode_is
    (fold_left mode_event [ModeClick rawfilm_; SetDisplayMode jpg_; ModeClick rawclip_]
       {| jpg_active := true; rawlinear_active := false; rawfilm_active := false;
          rawshadow_active := false; rawclip_active := false;
          thumbnail_inspector_mode := JPEG; thumbnail_inspector_raw_curve := LINEAR;
          mode_reloads := 0 |})
    rawclip_.
Proof.
  refine (proj1 (mode_buttons_form_a_radio_group _ jpg_ _)
            [ModeClick rawfilm_; SetDisplayMode jpg_; ModeClick rawclip_]).
  split; [intros b'; destruct b'; reflexivity|reflexivity].
Defined.

(** X22: the zoom buttons stay exclusive and in step with the option
    through any series of clicks, zoom keys, presses and releases; and a
    press followed by a release is a round trip: with the fit-to-window
    option on, the press switches to 1:1 for its duration and the release
    puts the buttons and the option back (two reloads), with the option
    off neither does anything. *)
Theorem temporary_zoom_round_trip (st : ZoomState)
    (Hconsistent : zoom_consistent st) (Htemp : temp_zoom_11_ st = false) :
  (forall evs, zoom_consistent (fold_left zoom_event evs st))
  /\ (let pressed := on_pressed st in
      let released := on_released pressed in
      (zoom_fit_option st = true ->
       zoom11_active pressed = true /\ zoomfit_active pressed = false
       /\ zoom_fit_option pressed = false /\ temp_zoom_11_ pressed = true)
      /\ (zoom_fit_option st = false -> pressed = st)
      /\ zoomfit_active released = zoomfit_active st
      /\ zoom11_active released = zoom11_active st
      /\ zoom_fit_option released = zoom_fit_option st
      /\ temp_zoom_11_ released = false
      /\ zoom_reloads released
         = (if zoom_fit_option st then 2 + zoom_reloads st else zoom_reloads st)%nat).
Proof.
  split.
  - intros evs. now apply zoom_events_consistent.
  - now apply press_release.
Qed.

Lemma temporary_zoom_round_trip_witness :
  zoom_fit_option
    (on_released
       (on_pressed {| zoomfit_active := true; zoom11_active := false;
                      zoom_fit_option := true; temp_zoom_11_ := false;
                      zoom_reloads := 0 |}))
  = true.
Proof.
  destruct (temporary_zoom_round_trip
              {| zoomfit_active := true; zoom11_active := false;
                 zoom_fit_option := true; temp_zoom_11_ := false; zoom_reloads := 0 |})
    as (_ & _ & _ & _ & _ & H & _).
  - split; reflexivity.
  - reflexivity.
  - exact H.
Defined.

(** X23: from the state the constructor leaves, through any series of
    split toggles, presses on a shown pane and Tab keys, the active pane
    is one of the panes shown (so [ins_[active_]] is inside the array and
    inside the panes that [num_active_] covers), the number of panes shown
    is 2 when split and 1 otherwise, and the pane that is not active is
    not highlighted. *)
Theorem active_pane_is_shown (evs : list SplitEvent) (st : SplitState)
    (Hrun : split_run evs new_Inspector = Some st) :
  active_ st < num_active_ st
  /\ num_active_ st = (if split_active st then 2 else 1)
  /\ highlight_of st (1 - active_ st) = false.
Proof.
  refine (split_run_inv evs new_Inspector st _ Hrun).
  unfold split_inv. cbn. repeat split; lia.
Qed.

Lemma active_pane_is_shown_witness :
  active_ {| split_active := true; active_ := 0; num_active_ := 2;
             highlight0 := true; highlight1 := false |}
  < num_active_ {| split_active := true; active_ := 0; num_active_ := 2;
                   highlight0 := true; highlight1 := false |}.
Proof.
  refine (proj1 (active_pane_is_shown [SplitClick; GrabFocus 1 0; KeyTab; KeyTab] _ _)).
  reflexivity.
Defined.

(** X24: [InspectorBuffer] holds a surface exactly when it holds a
    path.  Either both are missing, or the path is the one asked for, the
    surface and the histogram are the decoder's for that path and its
    extension, the path exists, is not a directory and has an
    extension. *)
Theorem buffer_has_path_iff_surface
    (Surface Histogram : Type) (empty_histogram : Histogram)
    (env : DecodeEnv Surface Histogram) (imagePath : ustring) (width height : Z) :
  let b := new_InspectorBuffer empty_histogram env imagePath width height in
  (imgPath b = [] <-> imgBuffer b = None)
  /\ (imgPath b = []
      \/ (imgPath b = imagePath
          /\ imgBuffer b
             = PreviewImage_getImage env imagePath (getExtension imagePath) width height
          /\ histogram b
             = PreviewImage_getHistogram env imagePath (getExtension imagePath) width height
          /\ test_exists env imagePath = true
          /\ test_is_dir env imagePath = false
          /\ getExtension imagePath <> [])).
Proof.
  unfold new_InspectorBuffer.
  destruct imagePath as [|c rest] eqn:Ep; [cbn; split; [tauto|now left]|].
  rewrite <- Ep. replace (empty imagePath) with false by now rewrite Ep.
  cbn [negb andb].
  destruct (test_exists env imagePath) eqn:Ee; cbn [andb];
    [|cbn; split; [tauto|now left]].
  destruct (test_is_dir env imagePath) eqn:Ed; cbn [negb];
    [cbn; split; [tauto|now left]|].
  destruct (ueqb (getExtension imagePath) []) eqn:Ex;
    [cbn; split; [tauto|now left]|].
  destruct (PreviewImage_getImage env imagePath (getExtension imagePath) width height)
    as [surface|] eqn:Es; cbn [imgPath imgBuffer histogram].
  - split; [rewrite Ep; split; discriminate|]. right.
    repeat split; try reflexivity. intros E. rewrite E in Ex. discriminate.
  - split; [tauto|now left].
Qed.

(** X25: a [FastMetadata] reads the file at most once, and only at the
    first call that the cache data cannot answer ([getDateTime] without a
    valid time, any other getter without valid Exif data).  The calls
    before that one are answered from the cache data, that call and all
    later ones from the file, also those the cache data could answer. *)
Theorem metadata_read_at_most_once (cd : CacheImageData) (qs : list MetaQuery) :
  meta_queries cd false qs
  = (repeat FromCache (cached_prefix cd qs)
     ++ repeat FromFile (length qs - cached_prefix cd qs),
     if (cached_prefix cd qs <? length qs)%nat then 1%nat else 0%nat)
  /\ (snd (meta_queries cd false qs) <= 1)%nat
  /\ (snd (meta_queries cd false qs) = 0%nat <-> forallb (cache_answers cd) qs = true).
Proof.
  rewrite meta_queries_spec. cbn [snd].
  destruct (cached_prefix_all cd qs) as [Hle Hall].
  split; [reflexivity|].
  destruct (Nat.ltb_spec (cached_prefix cd qs) (length qs)) as [Hlt|Hge].
  - split; [lia|]. rewrite <- Hall. lia.
  - split; [lia|]. rewrite <- Hall. lia.
Qed.

Lemma area_switches_immediate (paths : list ustring) :
  forall st,
    area_active st = true ->
    shown (fold_left (area_event 0) (map SwitchImage paths) st) = shown st ++ paths
    /\ delayconn_connected (fold_left (area_event 0) (map SwitchImage paths) st)
       = (match paths with [] => delayconn_connected st | _ => false end).
Proof.
  induction paths as [|p paths IH]; intros st Hact; [cbn; now rewrite app_nil_r|].
  cbn [map fold_left area_event]. unfold area_switchImage. rewrite Hact.
  cbn [negb Z.eqb area_doSwitchImage fst area_active next_image_path_ shown
         delayconn_connected].
  match goal with |- context [fold_left _ _ ?s] => destruct (IH s eq_refl) as [H1 H2] end.
  rewrite H1, H2. cbn [shown delayconn_connected]. rewrite <- app_assoc.
  split; [reflexivity|now destruct paths].
Qed.

Lemma delayed_switch_lemma (inspectorDelay : Z) (paths : list ustring) (k : nat)
    (st : AreaState) :
  area_active st = true -> paths <> [] ->
  (inspectorDelay <> 0%Z ->
   shown (fold_left (area_event inspectorDelay)
            (map SwitchImage paths ++ repeat Timeout k) st)
   = shown st ++ repeat (last paths []) k)
  /\ shown (fold_left (area_event 0) (map SwitchImage paths ++ repeat Timeout k) st)
     = shown st ++ paths.
Proof.
  intros Hact Hne. split.
  - intros Hd. rewrite fold_left_app.
    destruct (area_switches_delayed inspectorDelay paths Hd st Hact) as (H1 & H2 & H3 & H4).
    cbv zeta in H1, H2, H3, H4.
    destruct (area_timeouts inspectorDelay k
                (fold_left (area_event inspectorDelay) (map SwitchImage paths) st))
      as (H5 & _).
    + rewrite H4. now destruct paths.
    + cbv zeta in H5. rewrite H5, H2, H3.
      destruct paths as [|p paths]; [congruence|].
      now rewrite (last_cons_default paths p (next_image_path_ st) []).
  - rewrite fold_left_app.
    destruct (area_switches_immediate paths st Hact) as [H1 H2].
    set (st1 := fold_left (area_event 0) (map SwitchImage paths) st) in *.
    assert (Hc : delayconn_connected st1 = false) by (rewrite H2; now destruct paths).
    assert (Hfix : forall n s, delayconn_connected s = false ->
                     fold_left (area_event 0) (repeat Timeout n) s = s).
    { induction n as [|n IHn]; intros s Hs; [reflexivity|].
      cbn [repeat fold_left area_event]. unfold area_timeout. rewrite Hs. now apply IHn. }
    now rewrite Hfix.
Qed.

(** X26: the delay of the inspector.  With a delay configured, a series
    of requests made before the timer runs out shows nothing yet, and
    each time the timer then comes due the last path requested is shown,
    never an earlier one; the handler returns [true], so the timer stays
    connected and comes due again.  Without a delay every request is
    shown at once, in order, and no timer is left. *)
Theorem delayed_switch_shows_last (inspectorDelay : Z) (paths : list ustring) (k : nat)
    (st : AreaState) (Hactive : area_active st = true) (Hrequests : paths <> []) :
  (inspectorDelay <> 0%Z ->
   shown (fold_left (area_event inspectorDelay)
            (map SwitchImage paths ++ repeat Timeout k) st)
   = shown st ++ repeat (last paths []) k)
  /\ shown (fold_left (area_event 0) (map SwitchImage paths ++ repeat Timeout k) st)
     = shown st ++ paths.
Proof. exact (delayed_switch_lemma inspectorDelay paths k st Hactive Hrequests). Qed.

Lemma delayed_switch_shows_last_witness :
  shown (fold_left (area_event 200)
           (map SwitchImage [u "a.jpg"; u "b.jpg"; u "c.jpg"] ++ repeat Timeout 2)
           {| area_active := true; next_image_path_ := []; delayconn_connected := false;
              shown := [] |})
  = [] ++ repeat (last [u "a.jpg"; u "b.jpg"; u "c.jpg"] []) 2.
Proof.
  refine (proj1 (delayed_switch_shows_last 200 [u "a.jpg"; u "b.jpg"; u "c.jpg"] 2
                   {| area_active := true; next_image_path_ := [];
                      delayconn_connected := false; shown := [] |} _ _) _).
  - reflexivity.
  - discriminate.
  - discriminate.
Defined.

(** X27: the rename policy.  When the destination exists, the names
    [stem_1.ext], [stem_2.ext], ... are tried in the directory of the
    source file, counting from 1, and the first that does not exist
    becomes the primary destination; the parameter file and the sidecars
    are named after it, and the counter is the one [get_new_name] left.
    The numbered name is joined to the directory of the source also when
    the evaluated name is absolute. *)
Theorem rename_picks_first_free_number
    (file_exists : ustring -> bool) (getParamFile : ustring -> ustring)
    (fuel : nat) (params : Params) (fd : FramesMetaData) (k : Z)
    (Hexists :
       file_exists
         (if g_path_is_absolute (fst (get_new_name params fd))
          then fst (get_new_name params fd)
          else build_filename (path_get_dirname (getFileName fd))
                 (fst (get_new_name params fd))) = true)
    (Hpolicy : on_existing params = RENAME)
    (Hk : (1 <= k <= INT_MAX)%Z)
    (Hbusy : forall j, (1 <= j < k)%Z ->
       file_exists (build_filename (path_get_dirname (getFileName fd))
                      (probe_name (fst (get_new_name params fd)) j)) = true)
    (Hfree : file_exists (build_filename (path_get_dirname (getFileName fd))
                            (probe_name (fst (get_new_name params fd)) k)) = false)
    (Hfuel : (Z.to_nat k <= fuel)%nat) :
  get_targets file_exists getParamFile fuel params fd
  = Some (plan_targets file_exists getParamFile (getFileName fd)
            (build_filename (path_get_dirname (getFileName fd))
               (probe_name (fst (get_new_name params fd)) k))
            (sidecars params),
          snd (get_new_name params fd)).
Proof.
  exact (get_targets_rename file_exists getParamFile fuel params fd k
           Hexists Hpolicy Hk Hbusy Hfree Hfuel).
Qed.

Lemma rename_picks_first_free_number_witness :
  option_map fst
    (get_targets (files [u "a/x.jpg"; u "a/x_1.jpg"; u "a/x.xmp"]) sample_param_file 10
       (sample_params [] name_ext_pattern [u "xmp"] RENAME 1) (sample_fd (u "a/x.jpg")))
  = Some [(u "a/x.jpg", u "a/x_2.jpg"); (u "a/x.xmp", u "a/x_2.xmp")].
Proof.
  rewrite (rename_picks_first_free_number
             (files [u "a/x.jpg"; u "a/x_1.jpg"; u "a/x.xmp"]) sample_param_file 10
             (sample_params [] name_ext_pattern [u "xmp"] RENAME 1)
             (sample_fd (u "a/x.jpg")) 2).
  - vm_compute. reflexivity.
  - vm_compute. reflexivity.
  - reflexivity.
  - unfold INT_MAX. lia.
  - intros j Hj. assert (j = 1%Z) as -> by lia. vm_compute. reflexivity.
  - vm_compute. reflexivity.
  - simpl. lia.
Defined.

(** * The evaluated name, revisited *)

(** ** The separators of the literal segments are those of the text *)

Lemma literal_text_snoc (out : list Pattern) (p : Pattern) :
  literal_text (out ++ [p]) = literal_text out ++ literal_of p.
Proof. unfold literal_text. rewrite flat_map_app. simpl. now rewrite app_nil_r. Qed.

Lemma sep_count_firstn_mono (a b : nat) (s : ustring) :
  (a <= b)%nat -> (sep_count (firstn a s) <= sep_count (firstn b s))%nat.
Proof.
  intros Hab. replace a with (Nat.min a b) by lia.
  rewrite <- firstn_firstn. apply sep_count_firstn.
Qed.

Lemma sep_count_segment (s : ustring) (prev len : nat) :
  (sep_count (firstn prev s) + sep_count (firstn len (skipn prev s))
   <= sep_count (firstn (prev + len) s))%nat.
Proof.
  rewrite <- (firstn_skipn prev (firstn (prev + len) s)).
  rewrite sep_count_app, firstn_firstn, Nat.min_l by lia.
  rewrite skipn_firstn_comm. replace (prev + len - prev)%nat with len by lia. lia.
Qed.

Lemma parse_loop_literal_separators (s : ustring) (Hfit : fits s) (fuel : nat) :
  forall (prev i : N) (out : list Pattern) (prev' : N) (out' : list Pattern),
    prev <= i <= ulen s ->
    (sep_count (literal_text out) <= sep_count (firstn (N.to_nat prev) s))%nat ->
    parse_loop fuel s prev i out = Some (prev', out') ->
    prev' <= ulen s
    /\ (sep_count (literal_text out') <= sep_count (firstn (N.to_nat prev') s))%nat.
Proof.
  induction fuel as [|fuel IH]; intros prev i out prev' out' Hpi Hinv H.
  - simpl in H. injection H as <- <-. split; [lia|assumption].
  - rewrite parse_loop_S in H.
    destruct (N.ltb_spec i (ulen s)) as [Hlt|Hge].
    2:{ injection H as <- <-. split; [lia|assumption]. }
    destruct (is_ch (at_ s i) "%") eqn:Hc.
    + destruct (N.ltb_spec (i + 1) (ulen s)) as [Hlt2|_]; [|discriminate].
      set (out1 := if negb (prev =? i)
                   then out ++ [new_FixedPattern (substr s prev (i - prev))] else out) in *.
      assert (Hout1 : (sep_count (literal_text out1)
                       <= sep_count (firstn (N.to_nat i) s))%nat).
      { unfold out1. destruct (N.eqb_spec prev i) as [E|E]; cbn [negb].
        - now subst i.
        - rewrite literal_text_snoc, sep_count_app. unfold new_FixedPattern.
          cbn [literal_of]. rewrite make_valid_keep, substr_fits by assumption.
          pose proof (sep_count_segment s (N.to_nat prev) (N.to_nat (i - prev))) as Hseg.
          replace (N.to_nat prev + N.to_nat (i - prev))%nat with (N.to_nat i) in Hseg by lia.
          lia. }
      destruct (parse_directive s (ulen s) (i + 2) (at_ s (i + 2 - 1)) out1)
        as [[i2 out2]|] eqn:Hd; [|discriminate].
      apply parse_directive_element in Hd; [|assumption|lia].
      destruct Hd as (Hi2 & p & -> & Hp & _).
      apply (IH i2 i2 (out1 ++ [p]) prev' out'); [lia| |exact H].
      rewrite literal_text_snoc, sep_count_app.
      replace (literal_of p) with (@nil N) by (destruct p; [discriminate| | |]; reflexivity).
      pose proof (sep_count_firstn_mono (N.to_nat i) (N.to_nat i2) s ltac:(lia)).
      change (sep_count []) with 0%nat. lia.
    + destruct (negb _); [discriminate|].
      apply (IH prev (i + 1) out prev' out'); [lia|assumption|exact H].
Qed.

Lemma literal_separators_typed (s : ustring) (pat : list Pattern) :
  fits s -> parse_pattern s = Some pat ->
  (sep_count (literal_text pat) <= sep_count s)%nat.
Proof.
  intros Hfit. unfold parse_pattern.
  destruct (parse_loop (S (length s)) s 0 0 []) as [[prev out]|] eqn:Hl; [|discriminate].
  apply (parse_loop_literal_separators s Hfit) in Hl; [|lia|simpl; lia].
  destruct Hl as [Hprev Hinv].
  set (out1 := if prev <? ulen s
               then out ++ [new_FixedPattern (substr_from s prev)] else out).
  assert (Hout1 : (sep_count (literal_text out1) <= sep_count s)%nat).
  { unfold out1. destruct (N.ltb_spec prev (ulen s)) as [Hlt|Hge].
    - rewrite literal_text_snoc, sep_count_app. unfold new_FixedPattern.
      cbn [literal_of]. rewrite make_valid_keep, substr_from_skipn.
      pose proof (sep_count_split (N.to_nat prev) (N.to_nat prev) s (le_n _)). lia.
    - pose proof (sep_count_firstn (N.to_nat prev) s). lia. }
  intros H.
  assert (pat = out1) as ->.
  { destruct out1 as [|[s0| | |] tl]; try discriminate; try (now injection H as <-).
    destruct (g_path_is_absolute s0); [discriminate|]. now injection H as <-. }
  exact Hout1.
Qed.

Lemma render_computed (fd : FramesMetaData) (i : Z) :
  (forall s_, render (FixedPattern s_) fd i = (s_, i))
  /\ (forall f,
        render (FramesDataPattern f) fd i
        = (map (substitute posix false) (apply_func f fd), i))
  /\ (forall tag,
        render (TagPattern tag) fd i
        = (match tag_value fd tag with
           | Some v => map (substitute posix false) v
           | None => []
           end, i)).
Proof.
  split; [reflexivity|]. split.
  - intros f. cbn [render]. now rewrite make_valid_map.
  - intros tag. cbn [render]. unfold tag_value.
    destruct (_ || _); [|reflexivity].
    destruct (exiv2_findKey fd tag); [|reflexivity]. now rewrite make_valid_map.
Qed.

(** C1: for a pattern compiled from a text and any metadata, the
    evaluated name holds no more raw separators than the literal segments
    of the pattern, which hold no more than the text that was typed;
    every element renders the separators of its literal text and no
    other.  The name that [get_new_name] returns, when no base directory
    is put in front, is that evaluated name.  The evaluation is the
    concatenation, in order, of what the elements render, and a computed
    element renders its value position by position, nothing dropped: the
    rendering is the value with each character kept when it is valid, an
    invalid ['/'] replaced by the division slash U+2215 and any other
    invalid character by ['_']; every separator is invalid, and what is
    written is never a separator. *)
Theorem evaluated_name_separators
    (s : ustring) (pat : list Pattern) (params : Params) (fd : FramesMetaData) (idx : Z)
    (Htext : fits s)
    (Hcompiled : parse_pattern s = Some pat)
    (Hfits : fits (fst (render_all pat fd idx))) :
  (sep_count (normalized_name params (fst (render_all pat fd idx)))
   <= sep_count (literal_text pat))%nat
  /\ (sep_count (literal_text pat) <= sep_count s)%nat
  /\ (forall params0,
        pattern params0 = pat -> basedir params0 = [] \/ basedir params0 = u "." ->
        fst (get_new_name params0 fd)
        = normalized_name params0 (fst (render_all pat fd (progressive_number params0))))
  /\ (forall p i, sep_count (fst (render p fd i)) = sep_count (literal_of p))
  /\ (forall i, render_all [] fd i = ([], i))
  /\ (forall p ps i,
        render_all (p :: ps) fd i
        = (fst (render p fd i) ++ fst (render_all ps fd (snd (render p fd i))),
           snd (render_all ps fd (snd (render p fd i)))))
  /\ (forall s_ i, render (FixedPattern s_) fd i = (s_, i))
  /\ (forall f i,
        render (FramesDataPattern f) fd i
        = (map (substitute posix false) (apply_func f fd), i))
  /\ (forall tag i,
        render (TagPattern tag) fd i
        = (match tag_value fd tag with
           | Some v => map (substitute posix false) v
           | None => []
           end, i))
  /\ (forall win32 v, make_valid win32 v false = map (substitute win32 false) v)
  /\ (forall win32 c,
        substitute win32 false c =
        if is_valid_char win32 c false then c
        else if c =? ch "/" then 8725 else ch "_")
  /\ (forall win32 c, G_IS_DIR_SEPARATOR win32 c && is_valid_char win32 c false = false)
  /\ (forall win32 c, G_IS_DIR_SEPARATOR win32 (substitute win32 false c) = false).
Proof.
  split.
  { rewrite <- render_all_sep_count with (fd := fd) (idx := idx).
    now apply normalized_name_sep_count. }
  split; [now apply literal_separators_typed|].
  split.
  { intros params0 <- Hbase. now apply get_new_name_no_basedir. }
  split; [intros p i; apply render_sep_count|].
  split; [intros i; apply render_all_nil|].
  split; [intros p ps i; apply render_all_cons|].
  split; [intros s_ i; apply render_computed|].
  split; [intros f i; apply render_computed|].
  split; [intros tag i; apply render_computed|].
  split; [intros win32 v; apply make_valid_map|].
  split; [intros win32 c; reflexivity|].
  split.
  - intros win32 c. unfold is_valid_char. destruct (G_IS_DIR_SEPARATOR win32 c); reflexivity.
  - intros win32 c. apply substitute_not_separator.
Qed.

Lemma evaluated_name_separators_witness :
  (sep_count (normalized_name
                (sample_params [] [FixedPattern (u "a/"); FramesDataPattern Model] [] SKIP 1)
                (fst (render_all [FixedPattern (u "a/"); FramesDataPattern Model]
                        (sample_fd (u "img.cr2")) 1)))
   <= sep_count (literal_text [FixedPattern (u "a/"); FramesDataPattern Model]))%nat
  /\ (sep_count (literal_text [FixedPattern (u "a/"); FramesDataPattern Model])
      <= sep_count (u "a/%N"))%nat.
Proof.
  destruct (evaluated_name_separators (u "a/%N")
              [FixedPattern (u "a/"); FramesDataPattern Model]
              (sample_params [] [FixedPattern (u "a/"); FramesDataPattern Model] [] SKIP 1)
              (sample_fd (u "img.cr2")) 1) as (H1 & H2 & _).
  - vm_compute. reflexivity.
  - vm_compute. reflexivity.
  - vm_compute. reflexivity.
  - split; [exact H1|exact H2].
Defined.

(** * Patterns that do not compile, revisited *)

(** ** The scanner on a text and on a longer one *)

Lemma parse_loop_add_fuel (s : ustring) (k : nat) :
  forall (fuel : nat) (prev i : N) (out : list Pattern),
    ulen s <= i + N.of_nat fuel ->
    parse_loop (fuel + k) s prev i out = parse_loop fuel s prev i out.
Proof.
  induction k as [|k IH]; intros fuel prev i out H; [now rewrite Nat.add_0_r|].
  rewrite Nat.add_succ_r, <- parse_loop_fuel; [now apply IH|lia].
Qed.

Lemma parse_loop_enough (s : ustring) (f g : nat) (prev i : N) (out : list Pattern) :
  ulen s <= i + N.of_nat f -> ulen s <= i + N.of_nat g ->
  parse_loop f s prev i out = parse_loop g s prev i out.
Proof.
  intros Hf Hg. destruct (Nat.le_ge_cases f g) as [H|H].
  - replace g with (f + (g - f))%nat by lia. symmetry. now apply parse_loop_add_fuel.
  - replace f with (g + (f - g))%nat by lia. now apply parse_loop_add_fuel.
Qed.

Lemma fits_prefix (pre rest : ustring) : fits (pre ++ rest) -> fits pre.
Proof. unfold fits. rewrite ulen_app. lia. Qed.

Lemma substr_prefix (pre rest : ustring) (pos len : N) :
  fits (pre ++ rest) -> pos + len <= ulen pre ->
  substr (pre ++ rest) pos len = substr pre pos len.
Proof.
  intros Hfit Hlen. rewrite !substr_fits by eauto using fits_prefix.
  unfold ulen in Hlen.
  rewrite skipn_app, firstn_app, length_skipn.
  replace (N.to_nat pos - length pre)%nat with 0%nat by lia.
  replace (N.to_nat len - (length pre - N.to_nat pos))%nat with 0%nat by lia.
  cbn [skipn firstn]. now rewrite app_nil_r.
Qed.

Lemma scan_bracket_app (a b : ustring) :
  forall j, scan_bracket a j < j + ulen a -> scan_bracket (a ++ b) j = scan_bracket a j.
Proof.
  induction a as [|c a IH]; intros j H.
  - cbn in H. unfold ulen in H. simpl in H. lia.
  - cbn [app scan_bracket] in *. destruct (is_ch c "]"); [reflexivity|].
    apply IH. unfold ulen in *. cbn [length] in H. lia.
Qed.

Lemma dropN_prefix (pre rest : ustring) (k : N) :
  k <= ulen pre -> dropN k (pre ++ rest) = dropN k pre ++ rest.
Proof.
  intros H. rewrite !dropN_skipn, skipn_app. unfold ulen in H.
  now replace (N.to_nat k - length pre)%nat with 0%nat by lia.
Qed.

Lemma ulen_dropN (s : ustring) (k : N) : ulen (dropN k s) = ulen s - k.
Proof. rewrite dropN_skipn. unfold ulen. rewrite length_skipn. lia. Qed.

(** A directive that is accepted in [pre] is read the same way when a
    sigil follows [pre]. *)
Lemma parse_directive_prefix (pre tl : ustring) (j : N) (c : gunichar)
    (out : list Pattern) (j' : N) (out' : list Pattern) :
  fits (pre ++ ch "%" :: tl) -> j <= ulen pre ->
  parse_directive pre (ulen pre) j c out = Some (j', out') ->
  parse_directive (pre ++ ch "%" :: tl) (ulen (pre ++ ch "%" :: tl)) j c out
  = Some (j', out')
  /\ j <= j' <= ulen pre.
Proof.
  intros Hfit Hj. set (s' := pre ++ ch "%" :: tl).
  assert (Hn : ulen s' = ulen pre + 1 + ulen tl).
  { unfold s'. rewrite ulen_app. unfold ulen. cbn [length]. lia. }
  assert (Hjn : (j <? ulen s') = true) by (apply N.ltb_lt; lia).
  unfold parse_directive. rewrite Hjn. cbn [andb].
  destruct (is_ch c "n").
  - destruct (N.ltb_spec j (ulen pre)) as [Hlt|Hge]; cbn [andb].
    + unfold s'. rewrite at_app_l by assumption.
      destruct (isdigit (at_ pre j)); intros H; injection H as <- <-; split;
        try reflexivity; lia.
    + assert (j = ulen pre) as -> by lia.
      unfold s'. rewrite at_sigil. change (isdigit (ch "%")) with false.
      intros H; injection H as <- <-. split; [reflexivity|lia].
  - destruct (is_ch c "T").
    + destruct (N.ltb_spec j (ulen pre)) as [Hlt|Hge]; cbn [andb]; [|discriminate].
      unfold s'. rewrite at_app_l by assumption. fold s'.
      destruct (is_ch (at_ pre j) "["); [|discriminate].
      destruct (N.ltb_spec (scan_bracket (dropN (j + 1) pre) (j + 1)) (ulen pre))
        as [Hfound|_]; [|discriminate].
      assert (Hscan : scan_bracket (dropN (j + 1) s') (j + 1)
                      = scan_bracket (dropN (j + 1) pre) (j + 1)).
      { unfold s'. rewrite dropN_prefix by lia. apply scan_bracket_app.
        rewrite ulen_dropN. lia. }
      rewrite Hscan.
      pose proof (scan_bracket_ge (dropN (j + 1) pre) (j + 1)) as Hge.
      replace (scan_bracket (dropN (j + 1) pre) (j + 1) <? ulen s') with true
        by (symmetry; apply N.ltb_lt; lia).
      unfold s'. rewrite substr_prefix by (assumption || lia).
      intros H; injection H as <- <-. split; [reflexivity|lia].
    + destruct (frames_directive c); [|discriminate].
      intros H; injection H as <- <-. split; [reflexivity|lia].
Qed.

(** When the scanner runs through [pre], it does the same on [pre]
    followed by a sigil, and stands at that sigil with what it had at the
    end of [pre]. *)
Lemma parse_loop_prefix (pre tl : ustring) (Hfit : fits (pre ++ ch "%" :: tl))
    (fuel : nat) :
  forall (prev i : N) (out : list Pattern) (prev' : N) (out' : list Pattern)
         (f g : nat),
    prev <= i <= ulen pre ->
    parse_loop fuel pre prev i out = Some (prev', out') ->
    ulen pre <= i + N.of_nat fuel ->
    ulen (pre ++ ch "%" :: tl) <= i + N.of_nat f ->
    ulen (pre ++ ch "%" :: tl) <= ulen pre + N.of_nat g ->
    parse_loop f (pre ++ ch "%" :: tl) prev i out
    = parse_loop g (pre ++ ch "%" :: tl) prev' (ulen pre) out'
    /\ prev' <= ulen pre.
Proof.
  set (s' := pre ++ ch "%" :: tl) in *.
  assert (Hn : ulen s' = ulen pre + 1 + ulen tl).
  { unfold s'. rewrite ulen_app. unfold ulen. cbn [length]. lia. }
  induction fuel as [|fuel IH]; intros prev i out prev' out' f g Hpi H Hfuel Hf Hg.
  - cbn in H. injection H as <- <-. assert (i = ulen pre) as -> by lia.
    split; [now apply parse_loop_enough|lia].
  - rewrite parse_loop_S in H.
    destruct (N.ltb_spec i (ulen pre)) as [Hlt|Hge].
    2:{ injection H as <- <-. assert (i = ulen pre) as -> by lia.
        split; [now apply parse_loop_enough|lia]. }
    destruct f as [|f]; [lia|]. rewrite parse_loop_S.
    replace (i <? ulen s') with true by (symmetry; apply N.ltb_lt; lia).
    unfold s' at 1. rewrite at_app_l by assumption. fold s'.
    destruct (is_ch (at_ pre i) "%").
    + destruct (N.ltb_spec (i + 1) (ulen pre)) as [Hlt2|_]; [|discriminate].
      replace (i + 1 <? ulen s') with true by (symmetry; apply N.ltb_lt; lia).
      assert (Hc : at_ s' (i + 2 - 1) = at_ pre (i + 2 - 1))
        by (unfold s'; apply at_app_l; lia).
      assert (Hsub : substr s' prev (i - prev) = substr pre prev (i - prev))
        by (unfold s'; apply substr_prefix; [assumption|lia]).
      rewrite Hc, Hsub.
      destruct (parse_directive pre (ulen pre) (i + 2) (at_ pre (i + 2 - 1)) _)
        as [[i2 out2]|] eqn:Hd; [|discriminate].
      apply parse_directive_prefix with (tl := tl) in Hd; [|assumption|lia].
      fold s' in Hd. destruct Hd as [-> Hi2].
      apply (IH i2 i2 out2 prev' out' f g); try assumption; lia.
    + rewrite is_valid_char_posix_sep in *. cbn [negb] in *.
      apply (IH prev (i + 1) out prev' out' f g); try assumption; lia.
Qed.

Lemma scans_reaches (pre tl : ustring) :
  fits (pre ++ ch "%" :: tl) -> scans pre ->
  exists prev out,
    prev <= ulen pre
    /\ parse_loop (S (length (pre ++ ch "%" :: tl))) (pre ++ ch "%" :: tl) 0 0 []
       = parse_loop (S (length tl)) (pre ++ ch "%" :: tl) prev (ulen pre) out.
Proof.
  intros Hfit [[prev out] Hr]. exists prev, out.
  assert (Hn : ulen (pre ++ ch "%" :: tl) = ulen pre + 1 + ulen tl).
  { rewrite ulen_app. unfold ulen. cbn [length]. lia. }
  destruct (parse_loop_prefix pre tl Hfit (S (length pre)) 0 0 [] prev out
              (S (length (pre ++ ch "%" :: tl))) (S (length tl))) as [H1 H2];
    try assumption; try (unfold ulen in *; lia).
  now split.
Qed.

Lemma scans_literal (pre : ustring) : ~ In (ch "%") pre -> scans pre.
Proof.
  intros Hpre. unfold scans.
  pose proof (parse_loop_scan pre (length pre) 1 0 0 []) as H.
  replace (length pre + 1)%nat with (S (length pre)) in H by lia.
  rewrite H.
  - rewrite parse_loop_S. replace (0 + N.of_nat (length pre) <? ulen pre) with false
      by (symmetry; apply N.ltb_ge; unfold ulen; lia).
    eauto.
  - intros j Hj E. apply Hpre. rewrite <- E. apply at_in. unfold ulen. lia.
  - unfold ulen. lia.
Qed.

Lemma scans_compiled (pre : ustring) (pat : list Pattern) :
  parse_pattern pre = Some pat -> scans pre.
Proof.
  unfold parse_pattern, scans.
  destruct (parse_loop (S (length pre)) pre 0 0 []) as [r|]; [eauto|discriminate].
Qed.

Lemma unknown_directive_fails_anywhere (pre post : ustring) (c : gunichar) :
  fits (pre ++ ch "%" :: c :: post) -> scans pre -> is_directive c = false ->
  parse_pattern (pre ++ ch "%" :: c :: post) = None.
Proof.
  intros Hfit Hpre Hc. unfold parse_pattern.
  destruct (scans_reaches pre (c :: post) Hfit Hpre) as (prev & out & _ & ->).
  rewrite parse_loop_S.
  assert (Hn : ulen (pre ++ ch "%" :: c :: post) = ulen pre + 2 + ulen post).
  { rewrite ulen_app. unfold ulen. simpl length. lia. }
  rewrite Hn, at_sigil, at_after_sigil.
  replace (ulen pre <? ulen pre + 2 + ulen post) with true by (symmetry; apply N.ltb_lt; lia).
  replace (ulen pre + 1 <? ulen pre + 2 + ulen post) with true
    by (symmetry; apply N.ltb_lt; lia).
  change (is_ch (ch "%") "%") with true. cbv iota.
  unfold is_directive in Hc. unfold parse_directive.
  destruct (frames_directive c); [discriminate|].
  apply orb_false_iff in Hc. destruct Hc as [-> ->]. reflexivity.
Qed.

Lemma trailing_sigil_fails_anywhere (pre : ustring) :
  fits (pre ++ [ch "%"]) -> scans pre -> parse_pattern (pre ++ [ch "%"]) = None.
Proof.
  intros Hfit Hpre. unfold parse_pattern.
  destruct (scans_reaches pre [] Hfit Hpre) as (prev & out & _ & ->).
  rewrite parse_loop_S.
  assert (Hn : ulen (pre ++ [ch "%"]) = ulen pre + 1).
  { rewrite ulen_app. reflexivity. }
  rewrite Hn, at_sigil.
  replace (ulen pre <? ulen pre + 1) with true by (symmetry; apply N.ltb_lt; lia).
  rewrite N.ltb_irrefl. reflexivity.
Qed.

Lemma unterminated_tag_fails_anywhere (pre key : ustring) :
  fits (pre ++ u "%T[" ++ key) -> scans pre -> ~ In (ch "]") key ->
  parse_pattern (pre ++ u "%T[" ++ key) = None.
Proof.
  intros Hfit Hpre Hkey. unfold parse_pattern.
  change (u "%T[" ++ key) with (ch "%" :: ch "T" :: ch "[" :: key) in *.
  destruct (scans_reaches pre (ch "T" :: ch "[" :: key) Hfit Hpre)
    as (prev & out & _ & ->).
  rewrite parse_loop_S.
  assert (Hn : ulen (pre ++ ch "%" :: ch "T" :: ch "[" :: key) = ulen pre + 3 + ulen key).
  { rewrite ulen_app. unfold ulen. simpl length. lia. }
  rewrite Hn, at_sigil, at_after_sigil.
  replace (ulen pre <? ulen pre + 3 + ulen key) with true by (symmetry; apply N.ltb_lt; lia).
  replace (ulen pre + 1 <? ulen pre + 3 + ulen key) with true
    by (symmetry; apply N.ltb_lt; lia).
  change (is_ch (ch "%") "%") with true. cbv iota.
  unfold parse_directive.
  change (is_ch (ch "T") "n") with false. change (is_ch (ch "T") "T") with true. cbv iota.
  replace (ulen pre + 2 <? ulen pre + 3 + ulen key) with true
    by (symmetry; apply N.ltb_lt; lia).
  assert (Hat : at_ (pre ++ ch "%" :: ch "T" :: ch "[" :: key) (ulen pre + 2) = ch "[")
    by now rewrite at_app_r.
  rewrite Hat. change (is_ch (ch "[") "[") with true. cbn [andb].
  assert (Hdrop : dropN (ulen pre + 2 + 1) (pre ++ ch "%" :: ch "T" :: ch "[" :: key) = key).
  { replace (pre ++ ch "%" :: ch "T" :: ch "[" :: key)
      with ((pre ++ [ch "%"; ch "T"; ch "["]) ++ key) by now rewrite <- app_assoc.
    replace (ulen pre + 2 + 1) with (ulen (pre ++ [ch "%"; ch "T"; ch "["]))
      by (rewrite ulen_app; unfold ulen; simpl length; lia).
    apply dropN_app. }
  rewrite Hdrop, scan_bracket_none by assumption.
  replace (ulen pre + 2 + 1 + ulen key <? ulen pre + 3 + ulen key) with false
    by (symmetry; apply N.ltb_ge; lia).
  reflexivity.
Qed.

(** C2: compiling fails on an unknown directive character, on a sigil
    that ends the text, on a tag directive that is never closed, each of
    them wherever the directive stands: after any text that the scanner
    runs through, which is the case of any literal run and of any text
    that compiles; and it fails on a text that starts with a separator
    (its first literal segment is an absolute path).  The sample texts
    fail, also with the bad directive after good ones; ["%%"] compiles to
    the percent element, which evaluates to the one character ["%"]
    whatever the metadata, counter and settings. *)
Theorem parse_pattern_failures :
  (forall pre c post, ~ In (ch "%") pre -> is_directive c = false ->
     parse_pattern (pre ++ ch "%" :: c :: post) = None)
  /\ (forall pre, ~ In (ch "%") pre -> parse_pattern (pre ++ [ch "%"]) = None)
  /\ (forall pre key, ~ In (ch "%") pre -> ~ In (ch "]") key ->
        parse_pattern (pre ++ u "%T[" ++ key) = None)
  /\ (forall rest, parse_pattern (ch "/" :: rest) = None)
  /\ (forall pre c post,
        fits (pre ++ ch "%" :: c :: post) -> scans pre -> is_directive c = false ->
        parse_pattern (pre ++ ch "%" :: c :: post) = None)
  /\ (forall pre,
        fits (pre ++ [ch "%"]) -> scans pre -> parse_pattern (pre ++ [ch "%"]) = None)
  /\ (forall pre key,
        fits (pre ++ u "%T[" ++ key) -> scans pre -> ~ In (ch "]") key ->
        parse_pattern (pre ++ u "%T[" ++ key) = None)
  /\ (forall pre, ~ In (ch "%") pre -> scans pre)
  /\ (forall pre pat, parse_pattern pre = Some pat -> scans pre)
  /\ parse_pattern (u "%z") = None
  /\ parse_pattern (u "%") = None
  /\ parse_pattern (u "%T[Exif.Foo") = None
  /\ parse_pattern (u "/abs/%f") = None
  /\ parse_pattern (u "%f%z") = None
  /\ parse_pattern (u "%f_%") = None
  /\ parse_pattern (u "%n2%T[Exif.Foo") = None
  /\ parse_pattern (u "%%") = Some [FramesDataPattern Percent]
  /\ (forall fd idx, render_all [FramesDataPattern Percent] fd idx = (u "%", idx))
  /\ (forall params, normalized_name params (u "%") = u "%")
  /\ (forall fd bd sc oe start, bd = [] \/ bd = u "." ->
        fst (get_new_name (sample_params bd [FramesDataPattern Percent] sc oe start) fd)
        = u "%").
Proof.
  split; [intros pre c post; apply unknown_directive_fails|].
  split; [exact trailing_sigil_fails|].
  split; [exact unterminated_tag_fails|].
  split; [exact absolute_prefix_fails|].
  split; [intros pre c post; apply unknown_directive_fails_anywhere|].
  split; [exact trailing_sigil_fails_anywhere|].
  split; [exact unterminated_tag_fails_anywhere|].
  split; [exact scans_literal|].
  split; [exact scans_compiled|].
  do 8 (split; [vm_compute; reflexivity|]).
  split; [reflexivity|].
  split.
  - intros params. unfold normalized_name.
    change (split_ext (u "%")) with (u "%", @nil N). cbn [map app].
    destruct (allow_whitespace params), (name_norm params); reflexivity.
  - intros fd bd sc oe start [-> | ->]; reflexivity.
Qed.

Lemma parse_pattern_failures_witness :
  parse_pattern (u "img_" ++ ch "%" :: ch "z" :: u ".jpg") = None
  /\ parse_pattern (u "img_" ++ [ch "%"]) = None
  /\ parse_pattern (u "img_" ++ u "%T[" ++ u "Exif.Foo") = None
  /\ parse_pattern (u "%f_%n2" ++ ch "%" :: ch "z" :: u ".jpg") = None
  /\ parse_pattern (u "%f_%n2" ++ [ch "%"]) = None
  /\ parse_pattern (u "%f_%n2" ++ u "%T[" ++ u "Exif.Foo") = None
  /\ fst (get_new_name (sample_params [] [FramesDataPattern Percent] [] SKIP 1)
            (sample_fd (u "img.cr2"))) = u "%".
Proof.
  destruct parse_pattern_failures
    as (H1 & H2 & H3 & _ & G1 & G2 & G3 & _ & Hc & _ & _ & _ & _ & _ & _ & _ & _ & _ & _ & H4).
  assert (Hpre : ~ In (ch "%") (u "img_")).
  { vm_compute. intros [H|[H|[H|[H|[]]]]]; discriminate. }
  assert (Hkey : ~ In (ch "]") (u "Exif.Foo")).
  { vm_compute. intros H. repeat (destruct H as [H|H]; [discriminate|]). exact H. }
  assert (Hscan : scans (u "%f_%n2")).
  { apply (Hc _ [FramesDataPattern FileName; FixedPattern (u "_"); ProgressivePattern 2]).
    vm_compute. reflexivity. }
  split; [|split; [|split; [|split; [|split; [|split]]]]].
  - apply H1; [exact Hpre|reflexivity].
  - apply H2. exact Hpre.
  - apply H3; [exact Hpre|exact Hkey].
  - apply G1; [vm_compute; reflexivity|exact Hscan|reflexivity].
  - apply G2; [vm_compute; reflexivity|exact Hscan].
  - apply G3; [vm_compute; reflexivity|exact Hscan|exact Hkey].
  - apply H4. now left.
Defined.

(** * The plan of targets, revisited *)

(** Below a number that is free there is a first one. *)
Lemma least_free_from (P : Z -> bool) (n : nat) :
  forall i k : Z,
    (1 <= i <= k)%Z -> (forall j, (1 <= j < i)%Z -> P j = true) ->
    (Z.to_nat (k - i) < n)%nat -> P k = false ->
    exists k0, (i <= k0 <= k)%Z /\ P k0 = false
               /\ forall j, (1 <= j < k0)%Z -> P j = true.
Proof.
  induction n as [|n IH]; intros i k Hik Hbelow Hn Hfree; [lia|].
  destruct (P i) eqn:Pi.
  - assert (i <> k) by (intros ->; congruence).
    destruct (IH (i + 1)%Z k) as (k0 & Hk0 & Pk0 & Hmin); try assumption; try lia.
    + intros j Hj. destruct (Z.eq_dec j i) as [->|Hne]; [exact Pi|apply Hbelow; lia].
    + exists k0. split; [lia|]. now split.
  - exists i. split; [lia|]. now split.
Qed.

Lemma least_free (P : Z -> bool) (k : Z) :
  (1 <= k)%Z -> P k = false ->
  exists k0, (1 <= k0 <= k)%Z /\ P k0 = false
             /\ forall j, (1 <= j < k0)%Z -> P j = true.
Proof.
  intros Hk Hfree.
  apply (least_free_from P (S (Z.to_nat (k - 1))) 1 k); try assumption; try lia.
Qed.

Section ListingFacts.

Variable file_exists : ustring -> bool.
Variable getParamFile : ustring -> ustring.

(** With no conflict the plan is made for the evaluated name. *)
Lemma get_targets_free (fuel : nat) (params : Params) (fd : FramesMetaData) :
  let fn := getFileName fd in
  let newname := fst (get_new_name params fd) in
  let newpath := if g_path_is_absolute newname then newname
                 else build_filename (path_get_dirname fn) newname in
  file_exists newpath = false ->
  get_targets file_exists getParamFile fuel params fd
  = Some (plan_targets file_exists getParamFile fn newpath (sidecars params),
          snd (get_new_name params fd)).
Proof.
  cbv zeta. unfold get_targets. intros Hex.
  destruct (get_new_name params fd) as [newname params1] eqn:Hn. cbn [fst snd] in *.
  assert (Hsc : sidecars params1 = sidecars params).
  { unfold get_new_name in Hn. destruct (render_all _ _ _). now injection Hn as _ <-. }
  rewrite Hex. now rewrite push_targets_spec, Hsc.
Qed.

(** What the plan for a new path lists. *)
Lemma plan_targets_facts (fn newpath : ustring) (suffixes : list ustring) :
  let head := (fn, newpath) ::
              (if file_exists (getParamFile fn)
               then [(getParamFile fn, getParamFile newpath)] else []) in
  let side := plan_sidecars file_exists fn newpath (map fst head) suffixes in
  let out := plan_targets file_exists getParamFile fn newpath suffixes in
  out = head ++ side
  /\ hd_error out = Some (fn, newpath)
  /\ Forall (fun p => file_exists (fst p) = true /\ ~ In (fst p) (map fst head)) side
  /\ NoDup (map fst side)
  /\ (forall s, In s suffixes -> file_exists (sidecar_path fn s) = true ->
        In (sidecar_path fn s) (map fst out))
  /\ (forall rest, sidecar_path fn (ch "+" :: rest) = fn ++ u "." ++ rest)
  /\ (forall s, is_ch (at_ s 0) "+" = false ->
        sidecar_path fn s = removeExtension fn ++ u "." ++ s).
Proof.
  cbv zeta.
  destruct (plan_sidecars_sources file_exists fn newpath suffixes
              (map fst (plan_head file_exists getParamFile fn newpath)))
    as (Hall & Hnd & Hcomplete).
  unfold plan_targets, plan_head in *.
  split; [reflexivity|]. split; [reflexivity|]. split; [exact Hall|].
  split; [exact Hnd|]. split; [|split].
  - intros s Hs Hex. rewrite map_app. now apply Hcomplete.
  - reflexivity.
  - intros [|c s] Hc; [reflexivity|]. simpl. change (at_ (c :: s) 0) with c in Hc.
    now rewrite Hc.
Qed.

Lemma plan_targets_nonempty (fn newpath : ustring) (suffixes : list ustring) :
  plan_targets file_exists getParamFile fn newpath suffixes <> [].
Proof. unfold plan_targets, plan_head. discriminate. Qed.

Lemma get_targets_returns (fuel : nat) (params : Params) (fd : FramesMetaData) :
  let fn := getFileName fd in
  let dir := path_get_dirname fn in
  let newname := fst (get_new_name params fd) in
  let newpath := if g_path_is_absolute newname then newname
                 else build_filename dir newname in
  (on_existing params = RENAME -> file_exists newpath = true ->
   exists k, (1 <= k <= INT_MAX)%Z
             /\ file_exists (build_filename dir (probe_name newname k)) = false
             /\ (Z.to_nat k <= fuel)%nat) ->
  exists out,
    get_targets file_exists getParamFile fuel params fd
    = Some (out, snd (get_new_name params fd))
    /\ (out = [] <-> file_exists newpath = true /\ on_existing params = SKIP)
    /\ (out <> [] ->
        exists dest, out = plan_targets file_exists getParamFile fn dest (sidecars params)).
Proof.
  cbv zeta. intros Hfree.
  destruct (file_exists (if g_path_is_absolute (fst (get_new_name params fd))
                         then fst (get_new_name params fd)
                         else build_filename (path_get_dirname (getFileName fd))
                                (fst (get_new_name params fd)))) eqn:Hex.
  - destruct (on_existing params) eqn:Hpol.
    + exists []. split; [now apply get_targets_skip|]. split; [tauto|congruence].
    + destruct (Hfree eq_refl eq_refl) as (k & Hk & Hk_free & Hk_fuel).
      destruct (least_free
                  (fun j => file_exists
                              (build_filename (path_get_dirname (getFileName fd))
                                 (probe_name (fst (get_new_name params fd)) j)))
                  k ltac:(lia) Hk_free) as (k0 & Hk0 & Hk0_free & Hbusy).
      eexists. split.
      * apply (get_targets_rename file_exists getParamFile fuel params fd k0);
          try assumption; lia.
      * split.
        -- split; [intros E; now apply plan_targets_nonempty in E|intros [_ E]; discriminate].
        -- intros _. eauto.
  - eexists. split; [now apply get_targets_free|]. split.
    + split; [intros E; now apply plan_targets_nonempty in E|intros [E _]; discriminate].
    + intros _. eauto.
Qed.

End ListingFacts.

(** C4: [get_targets] returns: always when the destination is free or
    the policy is to skip, and under the rename policy as soon as one of
    the numbered names is free within the turns allowed.  It skips the
    file (an empty list) exactly when the destination exists and the
    policy is to skip.  Otherwise its list is the plan of the
    specification for some new path: the primary pair first, then the
    parameter-file pair if that file exists, then, suffix by suffix in the
    configured order, the pair of [sidecar_path] of the source and of the
    new path, kept when the source exists and is not yet a source in the
    list.  So every sidecar source listed exists, no sidecar source is
    listed twice or repeats the primary or the parameter file, and every
    configured suffix whose source exists has that source in the list. *)
Theorem plan_targets_listing
    (file_exists : ustring -> bool) (getParamFile : ustring -> ustring)
    (fuel : nat) (params : Params) (fd : FramesMetaData)
    (Hfree :
       on_existing params = RENAME ->
       file_exists
         (if g_path_is_absolute (fst (get_new_name params fd))
          then fst (get_new_name params fd)
          else build_filename (path_get_dirname (getFileName fd))
                 (fst (get_new_name params fd))) = true ->
       exists k, (1 <= k <= INT_MAX)%Z
                 /\ file_exists
                      (build_filename (path_get_dirname (getFileName fd))
                         (probe_name (fst (get_new_name params fd)) k)) = false
                 /\ (Z.to_nat k <= fuel)%nat) :
  exists out,
    get_targets file_exists getParamFile fuel params fd
    = Some (out, snd (get_new_name params fd))
    /\ (out = [] <->
        file_exists
          (if g_path_is_absolute (fst (get_new_name params fd))
           then fst (get_new_name params fd)
           else build_filename (path_get_dirname (getFileName fd))
                  (fst (get_new_name params fd))) = true
        /\ on_existing params = SKIP)
    /\ (out <> [] ->
        exists newpath,
          let fn := getFileName fd in
          let head := (fn, newpath) ::
                      (if file_exists (getParamFile fn)
                       then [(getParamFile fn, getParamFile newpath)] else []) in
          let side := plan_sidecars file_exists fn newpath (map fst head)
                        (sidecars params) in
          out = head ++ side
          /\ hd_error out = Some (fn, newpath)
          /\ Forall (fun p => file_exists (fst p) = true
                              /\ ~ In (fst p) (map fst head)) side
          /\ NoDup (map fst side)
          /\ (forall s, In s (sidecars params) ->
                file_exists (sidecar_path fn s) = true ->
                In (sidecar_path fn s) (map fst out))
          /\ (forall rest, sidecar_path fn (ch "+" :: rest) = fn ++ u "." ++ rest)
          /\ (forall s, is_ch (at_ s 0) "+" = false ->
                sidecar_path fn s = removeExtension fn ++ u "." ++ s)).
Proof.
  destruct (get_targets_returns file_exists getParamFile fuel params fd Hfree)
    as (out & Hrun & Hskip & Hplan).
  exists out. split; [exact Hrun|]. split; [exact Hskip|].
  intros Hne. destruct (Hplan Hne) as [dest ->]. exists dest.
  apply plan_targets_facts.
Qed.

Lemma plan_targets_listing_witness :
  exists out,
    get_targets (files [u "a/x.jpg"; u "a/x_1.jpg"; u "a/x.xmp"]) sample_param_file 10
      (sample_params [] name_ext_pattern [u "xmp"; u "jpg"; u "xmp"] RENAME 1)
      (sample_fd (u "a/x.jpg"))
    = Some (out, snd (get_new_name
                        (sample_params [] name_ext_pattern [u "xmp"; u "jpg"; u "xmp"]
                           RENAME 1)
                        (sample_fd (u "a/x.jpg"))))
    /\ out <> [].
Proof.
  destruct (plan_targets_listing (files [u "a/x.jpg"; u "a/x_1.jpg"; u "a/x.xmp"])
              sample_param_file 10
              (sample_params [] name_ext_pattern [u "xmp"; u "jpg"; u "xmp"] RENAME 1)
              (sample_fd (u "a/x.jpg")))
    as (out & Hrun & Hskip & _).
  - intros _ _. exists 2%Z. split; [unfold INT_MAX; lia|].
    split; [vm_compute; reflexivity|simpl; lia].
  - exists out. split; [exact Hrun|].
    intros E. apply Hskip in E. destruct E as [_ E]. discriminate E.
Defined.
